(** * Klotski solver: a shallow embedding of [src/components/try.cpp]

    The program enumerates the states of a sliding-block puzzle on a 4x5
    board ([GenerateGraph]), relabelling congruent blocks into a canonical
    order ([Normalize]), and then runs a breadth-first search from the
    solved states ([Solve]).

    Modelling choices.
    - [char] is [Z]; nothing below depends on the signedness of [char],
      because [std::set<char>] and [operator<] use the same order.
    - [State] ([std::array<char,20>]) is a [list char]; the theorems assume
      [length s = 20] where the array size matters.
    - [std::set] and [std::map] are strictly increasing lists (of keys,
      respectively of key/value pairs), so that [begin()] is the head and
      iteration runs in key order, as in the C++ containers.
    - [size_t] indices are [nat]: [Move] is only ever called on an index
      that is not on the corresponding edge, so no subtraction wraps.
    - Assertions, dereferences of an end iterator and the fuel of the
      [while] loops are made explicit in the type [outcome]. *)

From Stdlib Require Import List ZArith Lia Bool Arith Sorted Permutation.
Import ListNotations.

(** ** Outcomes of a run *)

Inductive outcome (A : Type) : Type :=
| Done (a : A)       (* normal completion *)
| AssertFailed       (* an [assert] fired: the program aborts *)
| Undefined          (* an end iterator was dereferenced *)
| OutOfFuel.         (* the model's loop bound was reached *)

Arguments Done {A} a.
Arguments AssertFailed {A}.
Arguments Undefined {A}.
Arguments OutOfFuel {A}.

Definition bind {A B : Type} (m : outcome A) (k : A -> outcome B) : outcome B :=
  match m with
  | Done a => k a
  | AssertFailed => AssertFailed
  | Undefined => Undefined
  | OutOfFuel => OutOfFuel
  end.

Notation "x <- m ;; k" := (bind m (fun x => k))
  (at level 61, m at next level, right associativity).

(** A [for] loop over a container whose body may fail. *)
Fixpoint foldM {A X : Type} (body : A -> X -> outcome A) (xs : list X) (a : A)
  : outcome A :=
  match xs with
  | [] => Done a
  | x :: rest => a' <- body a x ;; foldM body rest a'
  end.

(** ** Ordered containers *)

Section Containers.
Variable K : Type.
Variable cmp : K -> K -> comparison.

(** [std::set<K>::insert]: the new set and whether the key was new. *)
Fixpoint set_insert (x : K) (s : list K) : list K * bool :=
  match s with
  | [] => ([x], true)
  | y :: rest =>
      match cmp x y with
      | Lt => (x :: s, true)
      | Eq => (s, false)
      | Gt => let (rest', fresh) := set_insert x rest in (y :: rest', fresh)
      end
  end.

Variable V : Type.

(** [std::map<K,V>::insert]: an existing entry is left as it is. *)
Fixpoint map_insert (k : K) (v : V) (m : list (K * V)) : list (K * V) * bool :=
  match m with
  | [] => ([(k, v)], true)
  | (k', v') :: rest =>
      match cmp k k' with
      | Lt => ((k, v) :: m, true)
      | Eq => (m, false)
      | Gt => let (rest', fresh) := map_insert k v rest in ((k', v') :: rest', fresh)
      end
  end.

(** [std::map<K,V>::find]: [None] stands for the end iterator. *)
Fixpoint map_find (k : K) (m : list (K * V)) : option V :=
  match m with
  | [] => None
  | (k', v') :: rest => match cmp k k' with Eq => Some v' | _ => map_find k rest end
  end.

(** Writing through an iterator that points at the entry of [k]. *)
Fixpoint map_adjust (f : V -> V) (k : K) (m : list (K * V)) : list (K * V) :=
  match m with
  | [] => []
  | (k', v') :: rest =>
      match cmp k k' with
      | Eq => (k', f v') :: rest
      | _ => (k', v') :: map_adjust f k rest
      end
  end.

Definition keys (m : list (K * V)) : list K := map fst m.
End Containers.

Arguments set_insert {K} cmp x s.
Arguments map_insert {K} cmp {V} k v m.
Arguments map_find {K} cmp {V} k m.
Arguments map_adjust {K} cmp {V} f k m.
Arguments keys {K V} m.

(** ** Data model *)

Definition char := Z.
Definition space : char := 32%Z.          (* ' ' *)

Definition State := list char.           (* array<char,20> *)
Definition Labels := list char.          (* set<char> *)

Definition State_compare : State -> State -> comparison := list_compare Z.compare.

Definition Graph := list (State * list State).   (* map<State, set<State>> *)
Definition Solution := list (State * State).     (* map<State, State> *)

Inductive Direction := LEFT | RIGHT | TOP | BOTTOM.

(** [state[i]] and [state[i] = v]. *)
Definition get (s : State) (i : nat) : char := nth i s 0%Z.

Fixpoint put (i : nat) (v : char) (s : State) : State :=
  match s, i with
  | [], _ => []
  | _ :: rest, O => v :: rest
  | x :: rest, S i' => x :: put i' v rest
  end.

(** ** Normalize *)

(** The inner loop of [Normalize]: cells [j], [j+1], ... exchange the
    labels [c] and [l]; [k] is the number of cells left. *)
Fixpoint swap_labels (c l : char) (s : State) (j k : nat) : State :=
  match k with
  | O => s
  | S k' =>
      if (get s j =? c)%Z then swap_labels c l (put j l s) (S j) k'
      else if (get s j =? l)%Z then swap_labels c l (put j c s) (S j) k'
      else swap_labels c l s (S j) k'
  end.

(** The outer loop at cell [i] with [k] cells left; [ls] is the part of the
    label set from the cursor [l] on, so [ls = []] is [l == labels.end()]. *)
Fixpoint Normalize_loop (s : State) (ls : Labels) (i k : nat) : outcome State :=
  match k with
  | O => Done s
  | S k' =>
      let c := get s i in
      if (c =? space)%Z then Normalize_loop s ls (S i) k'
      else
        match ls with
        | [] => Undefined
        | l :: ls' =>
            if (c <? l)%Z then Normalize_loop s ls (S i) k'
            else if (c =? l)%Z then
              match ls' with
              | [] => Done s
              | _ => Normalize_loop s ls' (S i) k'
              end
            else
              let s' := swap_labels c l s i (length s - i) in
              match ls' with
              | [] => Done s'
              | _ => Normalize_loop s' ls' (S i) k'
              end
        end
  end.

Definition Normalize (state : State) (labels : Labels) : outcome State :=
  Normalize_loop state labels 0 (length state).

(** ** GatherLabels *)

Definition GatherLabels (initial : State) : Labels :=
  fold_left (fun labels c =>
               if (c =? space)%Z then labels else fst (set_insert Z.compare c labels))
            initial [].

(** ** Board geometry *)

Definition IsEdge (direction : Direction) (index : nat) : bool :=
  match direction with
  | LEFT => index mod 4 =? 0
  | RIGHT => index mod 4 =? 3
  | TOP => index <? 4
  | BOTTOM => 15 <? index
  end.

Definition Move (direction : Direction) (index : nat) : nat :=
  match direction with
  | LEFT => index - 1
  | RIGHT => index + 1
  | TOP => index - 4
  | BOTTOM => index + 4
  end.

(** ** AddNeighbors *)

(** The cells of [current] that carry [label], in increasing order. *)
Definition indices_of (current : State) (label : char) : list nat :=
  filter (fun i => (get current i =? label)%Z) (seq 0 (length current)).

(** The feasibility loop; it stops at the first cell that cannot move. *)
Fixpoint canmove (current : State) (label : char) (direction : Direction)
         (indices : list nat) : bool :=
  match indices with
  | [] => true
  | i :: rest =>
      if IsEdge direction i then false
      else
        let neighbor := get current (Move direction i) in
        if negb (neighbor =? space)%Z && negb (neighbor =? label)%Z then false
        else canmove current label direction rest
  end.

(** The two loops that build [newstate] before it is normalized. *)
Definition slide (current : State) (label : char) (direction : Direction)
           (indices : list nat) : State :=
  let cleared := fold_left (fun st i => put i space st) indices current in
  fold_left (fun st i => put (Move direction i) label st) indices cleared.

Definition directions : list Direction := [LEFT; RIGHT; TOP; BOTTOM].

(** The body of the loop over directions, for one block. *)
Definition try_direction (labels : Labels) (current : State) (label : char)
           (indices : list nat) (acc : Graph * list State) (direction : Direction)
  : outcome (Graph * list State) :=
  let (graph, states_to_explore) := acc in
  if canmove current label direction indices then
    newstate <- Normalize (slide current label direction indices) labels ;;
    let graph' :=
      map_adjust State_compare
                 (fun nbrs => fst (set_insert State_compare newstate nbrs))
                 current graph in
    match map_find State_compare newstate graph' with
    | Some _ => Done (graph', states_to_explore)
    | None => Done (graph', fst (set_insert State_compare newstate states_to_explore))
    end
  else Done acc.

(** The body of the loop over blocks. *)
Definition try_label (labels : Labels) (current : State)
           (acc : Graph * list State) (label : char)
  : outcome (Graph * list State) :=
  foldM (try_direction labels current label (indices_of current label))
        directions acc.

Definition AddNeighbors (graph : Graph) (states_to_explore : list State)
           (labels : Labels) : outcome (Graph * list State) :=
  match states_to_explore with
  | [] => Undefined
  | current :: rest =>
      let (graph', success) := map_insert State_compare current [] graph in
      if success then foldM (try_label labels current) labels (graph', rest)
      else AssertFailed
  end.

(** ** GenerateGraph *)

Fixpoint GenerateGraph_loop (fuel : nat) (labels : Labels) (graph : Graph)
         (states_to_explore : list State) : outcome Graph :=
  match states_to_explore with
  | [] => Done graph
  | _ :: _ =>
      match fuel with
      | O => OutOfFuel
      | S fuel' =>
          st <- AddNeighbors graph states_to_explore labels ;;
          GenerateGraph_loop fuel' labels (fst st) (snd st)
      end
  end.

Definition GenerateGraph (fuel : nat) (initial : State) : outcome Graph :=
  let labels := GatherLabels initial in
  initial' <- Normalize initial labels ;;
  GenerateGraph_loop fuel labels [] [initial'].

(** The configuration of the work-set loop after [n] rounds (fewer when the
    work-set runs empty before). *)
Fixpoint builder_run (n : nat) (labels : Labels) (graph : Graph)
         (states_to_explore : list State) : outcome (Graph * list State) :=
  match n, states_to_explore with
  | S n', _ :: _ =>
      st <- AddNeighbors graph states_to_explore labels ;;
      builder_run n' labels (fst st) (snd st)
  | _, _ => Done (graph, states_to_explore)
  end.

Definition GenerateGraph_rounds (n : nat) (initial : State)
  : outcome (Graph * list State) :=
  let labels := GatherLabels initial in
  initial' <- Normalize initial labels ;;
  builder_run n labels [] [initial'].

(** ** Solve *)

Definition IsSolved (state : State) : bool :=
  (get state 13 =? get state 14)%Z && (get state 14 =? get state 17)%Z &&
  (get state 17 =? get state 18)%Z && negb (get state 18 =? space)%Z.

(** The first loop of [Solve]: every solved vertex is mapped to itself and
    queued.  The queue is a list with its front at the head. *)
Definition seed (acc : Solution * list State) (vertex : State * list State)
  : outcome (Solution * list State) :=
  let (solution, queue) := acc in
  if IsSolved (fst vertex) then
    let (solution', fresh) :=
      map_insert State_compare (fst vertex) (fst vertex) solution in
    if fresh then Done (solution', queue ++ [fst vertex]) else AssertFailed
  else Done acc.

(** The loop over the neighbors of the state at the front of the queue. *)
Definition visit (state : State) (acc : Solution * list State) (neighbor : State)
  : Solution * list State :=
  let (solution, queue) := acc in
  let (solution', fresh) := map_insert State_compare neighbor state solution in
  if fresh then (solution', queue ++ [neighbor]) else (solution, queue).

Fixpoint Solve_loop (fuel : nat) (graph : Graph) (solution : Solution)
         (queue : list State) : outcome Solution :=
  match queue with
  | [] => Done solution
  | state :: _ =>
      match map_find State_compare state graph with
      | None => Undefined
      | Some nbrs =>
          match fuel with
          | O => OutOfFuel
          | S fuel' =>
              let (solution', queue') :=
                fold_left (visit state) nbrs (solution, queue) in
              Solve_loop fuel' graph solution' (tl queue')
          end
      end
  end.

(** The [while] loop pops one state per round and every state is pushed at
    most once, so [length graph] rounds are enough (see
    [Solve_loop_enough_fuel]). *)
Definition Solve (graph : Graph) : outcome Solution :=
  st <- foldM seed graph ([], []) ;;
  solution <- Solve_loop (length graph) graph (fst st) (snd st) ;;
  if length solution =? length graph then Done solution else AssertFailed.

(** ** operator<< *)

(* '\n' = 10 *)
Definition endl : char := 10%Z.

(** The characters that [operator<<] writes for a state: the body of the
    loop for [i = 0, 4, ..., 16], then the last [endl].  They go to
    [cout], whatever the stream on the left of [<<] is, and that stream is
    returned as it was. *)
Definition operator_shl (state : State) : list char :=
  flat_map (fun i => [get state i; get state (i + 1); get state (i + 2);
                      get state (i + 3); endl])
           [0; 4; 8; 12; 16]
  ++ [endl].

(** ** Print *)

(** The states written by the [while] loop of [Print], following the map
    from [cur], whose entry is [nxt]. *)
Fixpoint Print_loop (fuel : nat) (solution : Solution) (cur nxt : State)
  : outcome (list State) :=
  match State_compare cur nxt with
  | Eq => Done []
  | _ =>
      match map_find State_compare nxt solution with
      | None => Undefined
      | Some nxt' =>
          match fuel with
          | O => OutOfFuel
          | S fuel' =>
              rest <- Print_loop fuel' solution nxt nxt' ;;
              Done (nxt :: rest)
          end
      end
  end.

Definition Print (fuel : nat) (initial : State) (solution : Solution)
  : outcome (list State) :=
  match map_find State_compare initial solution with
  | None => Undefined
  | Some nxt =>
      rest <- Print_loop fuel solution initial nxt ;;
      Done (initial :: rest)
  end.

(** ** main *)

(* '1' = 49, ..., '9' = 57, 'a' = 97 *)
Definition main_initial : State :=
  [49; 50; 50; 51;
   49; 50; 50; 51;
   52; 53; 54; 55;
   56; 57; 57; 97;
   56; 32; 32; 97]%Z.

(** The body of [main] for a given board: build the graph, solve it and
    print the path from the board the caller holds. *)
Definition main_run (fuel : nat) (initial : State) : outcome (list State) :=
  graph <- GenerateGraph fuel initial ;;
  solution <- Solve graph ;;
  Print fuel initial solution.

(** * Specification vocabulary *)

(** ** Invariants of the containers *)

(** The order of the keys of a container. *)
Definition lt_key {K : Type} (cmp : K -> K -> comparison) (x y : K) : Prop :=
  cmp x y = Lt.

(** The representation invariant of [std::set] and [std::map]: the keys are
    strictly increasing. *)
Definition sorted_set {K : Type} (cmp : K -> K -> comparison) (s : list K) : Prop :=
  StronglySorted (lt_key cmp) s.

Definition sorted_map {K V : Type} (cmp : K -> K -> comparison)
           (m : list (K * V)) : Prop :=
  sorted_set cmp (keys m).

(** ** Label sets and relabelings *)

(** The exchange of the labels [c] and [l]. *)
Definition sw (c l x : char) : char :=
  if (x =? c)%Z then l else if (x =? l)%Z then c else x.

(** The representation invariant of [std::set<char>]. *)
Definition increasing (ls : Labels) : Prop := StronglySorted Z.lt ls.

(** A label set as [GatherLabels] builds it. *)
Definition label_set (ls : Labels) : Prop := increasing ls /\ ~ In space ls.

(** [x] is smaller than every label from the cursor on: it was seen before. *)
Definition below (ls : Labels) (x : char) : Prop := forall y, In y ls -> (x < y)%Z.

(** A cell that [Normalize] can meet when its cursor is at [ls]. *)
Definition cell_ok (ls : Labels) (x : char) : Prop :=
  x = space \/ In x ls \/ below ls x.

(** A relabeling of the labels in [ls] that leaves every other symbol alone. *)
Definition relabeling (ls : Labels) (g : char -> char) : Prop :=
  (forall x, ~ In x ls -> g x = x) /\
  (forall x, In x ls -> In (g x) ls) /\
  (forall x y, g x = g y -> x = y).

(** The cells of a state are empty or carry a label of the label set. *)
Definition uses (labels : Labels) (s : State) : Prop :=
  forall x, In x s -> x = space \/ In x labels.

(** A state that [Normalize] leaves as it is. *)
Definition canonical (labels : Labels) (s : State) : Prop :=
  Normalize s labels = Done s.

(** The labels of [r] are met in increasing order: before a cell that
    carries a label, every smaller label of the label set has occurred. *)
Definition in_order (L : Labels) (r : State) : Prop :=
  forall j, j < length r -> get r j <> space ->
  forall y, In y L -> (y < get r j)%Z -> exists i, i < j /\ get r i = y.

(** The loop invariant that ties two runs at cell [i]: the cells before [i]
    agree, the cells from [i] on carry the same blocks, and the labels that
    were seen before (or are empty) agree too. *)
Record related (ls : Labels) (i : nat) (s1 s2 : State) : Prop := {
  rel_len : length s1 = length s2;
  rel_done : forall j, j < i -> get s1 j = get s2 j;
  rel_part : forall j j', i <= j < length s1 -> i <= j' < length s1 ->
      (get s1 j = get s1 j' <-> get s2 j = get s2 j');
  rel_seen1 : forall j, i <= j < length s1 ->
      get s1 j = space \/ ~ In (get s1 j) ls -> get s1 j = get s2 j;
  rel_seen2 : forall j, i <= j < length s1 ->
      get s2 j = space \/ ~ In (get s2 j) ls -> get s1 j = get s2 j;
  rel_ok1 : forall j, i <= j < length s1 -> cell_ok ls (get s1 j);
  rel_ok2 : forall j, i <= j < length s1 -> cell_ok ls (get s2 j) }.

(** [x] is the label of a block of [s]. *)
Definition is_label (s : State) (x : char) : Prop := In x s /\ x <> space.

(** [pi] applied to every non-empty cell; empty cells stay empty. *)
Definition relabel (pi : char -> char) (s : State) : State :=
  map (fun c => if (c =? space)%Z then space else pi c) s.

(** [pi] permutes the block labels of [s]. *)
Definition label_permutation (pi : char -> char) (s : State) : Prop :=
  (forall x, is_label s x -> is_label s (pi x)) /\
  (forall x y, is_label s x -> is_label s y -> pi x = pi y -> x = y).

(** ** The board of the specification *)





(** ** Moves *)

Definition opposite (d : Direction) : Direction :=
  match d with LEFT => RIGHT | RIGHT => LEFT | TOP => BOTTOM | BOTTOM => TOP end.

(** The block [label] of [s] can slide one cell in [direction]. *)
Definition feasible (s : State) (label : char) (d : Direction) : bool :=
  canmove s label d (indices_of s label).

(** The state [AddNeighbors] builds for that slide, before [Normalize]. *)
Definition slid (s : State) (label : char) (d : Direction) : State :=
  slide s label d (indices_of s label).

(** Cell [j] is one of the cells the block moves onto. *)
Definition shifted (s : State) (label : char) (d : Direction) (j : nat) : bool :=
  negb (IsEdge (opposite d) j) && (get s (Move (opposite d) j) =? label)%Z.

(** [fold_left] of [put] with one value. *)
Definition puts (v : char) (targets : list nat) (s : State) : State :=
  fold_left (fun st t => put t v st) targets s.

(** [b] is the normal form of a feasible slide of some block of [a]. *)
Definition edge (L : Labels) (a b : State) : Prop :=
  exists label d,
    In label L /\ feasible a label d = true /\ Normalize (slid a label d) L = Done b.

(** The states that moves lead to from [init]. *)
Inductive reachable (L : Labels) (init : State) : State -> Prop :=
| reach_init : reachable L init init
| reach_step a b : reachable L init a -> edge L a b -> reachable L init b.

(** [n] moves of the puzzle itself, without renaming: each slides one block
    of the label set by one cell. *)
Inductive moves (L : Labels) : nat -> State -> State -> Prop :=
| moves_none s : moves L 0 s s
| moves_step n s t label d :
    In label L -> feasible s label d = true ->
    moves L n (slid s label d) t -> moves L (S n) s t.

(** A state as the builder stores it. *)
Definition good (L : Labels) (s : State) : Prop :=
  length s = 20 /\ uses L s /\ canonical L s.

(** ** The graph builder *)

(** The (block, direction) pairs in the order [AddNeighbors] tries them. *)
Definition pairs_of (ll : list char) : list (char * Direction) :=
  flat_map (fun label => map (pair label) directions) ll.

(** [w] is the successor produced by one of the pairs in [ps]. *)
Definition produced (L : Labels) (current : State)
           (ps : list (char * Direction)) (w : State) : Prop :=
  exists p, In p ps /\ feasible current (fst p) (snd p) = true /\
            Normalize (slid current (fst p) (snd p)) L = Done w.

(** The invariant of the two loops of [AddNeighbors] after the pairs [ps]:
    [g] is the graph before [current] was inserted and [rest] the work-set
    after it was removed. *)
Record expanding (L : Labels) (current : State) (g : Graph) (rest : list State)
       (ps : list (char * Direction)) (acc : Graph * list State) : Prop := {
  exp_keys : forall v, In v (keys (fst acc)) <-> v = current \/ In v (keys g);
  exp_perm : Permutation (keys (fst acc)) (current :: keys g);
  exp_sorted : sorted_map State_compare (fst acc);
  exp_other : forall v, v <> current ->
      map_find State_compare v (fst acc) = map_find State_compare v g;
  exp_nbrs : exists ns, map_find State_compare current (fst acc) = Some ns /\
                        forall w, In w ns <-> produced L current ps w;
  exp_todo_sorted : sorted_set State_compare (snd acc);
  exp_todo : forall w, In w (snd acc) <->
      In w rest \/ (produced L current ps w /\ w <> current /\ ~ In w (keys g)) }.

(** The invariant of the work-set loop of [GenerateGraph]. *)
Record builder_inv (L : Labels) (init : State) (g : Graph) (todo : list State)
  : Prop := {
  inv_good : forall v, In v (keys g) \/ In v todo -> good L v /\ reachable L init v;
  inv_disjoint : forall v, In v (keys g) -> ~ In v todo;
  inv_graph_sorted : sorted_map State_compare g;
  inv_todo_sorted : sorted_set State_compare todo;
  inv_edges : forall v ns, map_find State_compare v g = Some ns ->
                           forall w, In w ns <-> edge L v w;
  inv_closed : forall v ns w, map_find State_compare v g = Some ns -> In w ns ->
                              In w (keys g) \/ In w todo;
  inv_init : In init (keys g) \/ In init todo }.

(** Every state of [n] cells over an alphabet, and how many there are on the
    board over a label set: the bound of the work-set loop. *)
Fixpoint all_states (n : nat) (alphabet : list char) : list State :=
  match n with
  | O => [[]]
  | S n' => flat_map (fun x => map (cons x) (all_states n' alphabet)) alphabet
  end.

Definition state_bound (L : Labels) : nat := S (length L) ^ 20.

(** ** The solver *)

(** [w] is in the neighbor set of the vertex [v]. *)
Definition adj (g : Graph) (v w : State) : Prop :=
  exists ns, map_find State_compare v g = Some ns /\ In w ns.

(** Every neighbor is a vertex. *)
Definition closed_graph (g : Graph) : Prop := forall v w, adj g v w -> In w (keys g).

(** The graph is undirected. *)
Definition symmetric_graph (g : Graph) : Prop := forall v w, adj g v w -> adj g w v.

(** [n] applications of the solution map, starting at [v]. *)
Fixpoint follow (sol : Solution) (n : nat) (v : State) : option State :=
  match n with
  | O => Some v
  | S n' =>
      match map_find State_compare v sol with
      | Some p => follow sol n' p
      | None => None
      end
  end.

(** A walk of [n] edges in the graph. *)
Inductive walk (g : Graph) : State -> State -> nat -> Prop :=
| walk_here v : walk g v v 0
| walk_step v u w n : adj g v u -> walk g u w n -> walk g v w (S n).

(** [n] is the least number of edges from [v] to a solved state. *)
Definition distance_to_goal (g : Graph) (v : State) (n : nat) : Prop :=
  (exists goal, IsSolved goal = true /\ walk g v goal n) /\
  (forall m goal, IsSolved goal = true -> walk g v goal m -> n <= m).

(** The level of a state that has just been entered into the map. *)
Definition set_level (lev : State -> nat) (w : State) (n : nat) : State -> nat :=
  fun x => match State_compare x w with Eq => n | _ => lev x end.

(** What an entry [v |-> p] of the map says, with [lev] the number of steps
    from each state to a solved one. *)
Definition entry_ok (g : Graph) (sol : Solution) (lev : State -> nat)
           (v p : State) : Prop :=
  In v (keys g) /\
  ((v = p /\ IsSolved v = true /\ lev v = 0) \/
   (IsSolved v = false /\ adj g p v /\ In p (keys sol) /\ lev v = S (lev p))).

(** The invariant of the [while] loop of [Solve]. *)
Record bfs_inv (g : Graph) (fuel : nat) (sol : Solution) (queue : list State)
       (lev : State -> nat) : Prop := {
  bfs_sorted : sorted_map State_compare sol;
  bfs_forest : forall v p, map_find State_compare v sol = Some p ->
                           entry_ok g sol lev v p;
  bfs_goals : forall v, In v (keys g) -> IsSolved v = true ->
                        map_find State_compare v sol = Some v;
  bfs_queue : forall v, In v queue -> In v (keys sol);
  bfs_levels : StronglySorted (fun a b => lev a <= lev b) queue;
  bfs_spread : forall h t v, queue = h :: t -> In v (keys sol) ->
                 lev v <= S (lev h) /\ (~ In v queue -> lev v <= lev h);
  bfs_done : forall v w, In v (keys sol) -> ~ In v queue -> adj g v w ->
                         In w (keys sol) /\ lev w <= S (lev v);
  bfs_fuel : length queue + length g <= fuel + length sol }.

(** The invariant of the first loop of [Solve] after the vertices [pre]. *)
Record seeded (pre : Graph) (acc : Solution * list State) : Prop := {
  seed_sorted : sorted_map State_compare (fst acc);
  seed_entries : forall v p, map_find State_compare v (fst acc) = Some p ->
                             v = p /\ IsSolved v = true /\ In v (keys pre);
  seed_goals : forall v, In v (keys pre) -> IsSolved v = true ->
                         map_find State_compare v (fst acc) = Some v;
  seed_queue : forall v, In v (snd acc) <-> In v (keys (fst acc));
  seed_length : length (snd acc) = length (fst acc) }.

(** What [Solve] establishes when its last assertion passes. *)
Record solved_by (g : Graph) (sol : Solution) (lev : State -> nat) : Prop := {
  sol_size : length sol = length g;
  sol_sorted : sorted_map State_compare sol;
  sol_keys : forall v, In v (keys sol) <-> In v (keys g);
  sol_forest : forall v p, map_find State_compare v sol = Some p ->
                           entry_ok g sol lev v p;
  sol_goals : forall v, In v (keys g) -> IsSolved v = true ->
                        map_find State_compare v sol = Some v;
  sol_levels : forall v w, In v (keys g) -> adj g v w -> lev w <= S (lev v) }.

(** ** Concrete boards used to exercise the theorems *)

(* 'A' = 65, 'B' = 66, 'C' = 67 *)

(** One 2x2 block in the top left corner of an empty board. *)
Definition square_board : State :=
  [65; 65; 32; 32;
   65; 65; 32; 32;
   32; 32; 32; 32;
   32; 32; 32; 32;
   32; 32; 32; 32]%Z.

(** The same block one cell to the right. *)
Definition square_right : State :=
  [32; 65; 65; 32;
   32; 65; 65; 32;
   32; 32; 32; 32;
   32; 32; 32; 32;
   32; 32; 32; 32]%Z.

(** Its graph and its solution map, as the program computes them. *)
Definition square_graph : Graph :=
  Eval vm_compute in
    match GenerateGraph 12 square_board with Done g => g | _ => [] end.

Definition square_solution : Solution :=
  Eval vm_compute in
    match Solve square_graph with Done sol => sol | _ => [] end.

(** A 2x2 block labelled 'B' and a single cell labelled 'A': the labels are
    not in the order of their first cells, so [Normalize] exchanges them. *)
Definition two_blocks : State :=
  [66; 66; 32; 32;
   66; 66; 32; 32;
   32; 32; 32; 32;
   32; 32; 32; 32;
   32; 32; 32; 65]%Z.


(** The 2x2 block on the four target cells. *)
Definition square_solved : State :=
  [32; 32; 32; 32;
   32; 32; 32; 32;
   32; 32; 32; 32;
   32; 65; 65; 32;
   32; 65; 65; 32]%Z.

(** A bar that spans the board can only move up and down and never covers
    the four target cells. *)
Definition bar_board : State :=
  [65; 65; 65; 65;
   32; 32; 32; 32;
   32; 32; 32; 32;
   32; 32; 32; 32;
   32; 32; 32; 32]%Z.

(** Three blocks whose labels are not in the order of their first cells. *)
Definition mixed_board : State :=
  [66; 66; 32; 67;
   65; 32; 32; 67;
   32; 32; 32; 32;
   32; 32; 32; 32;
   32; 32; 32; 32]%Z.

Definition mixed_labels : Labels := [65; 66; 67]%Z.

(** The cycle A -> B -> C -> A. *)
Definition cycle_labels (x : char) : char :=
  if (x =? 65)%Z then 66%Z
  else if (x =? 66)%Z then 67%Z
  else if (x =? 67)%Z then 65%Z
  else x.

(** * Properties *)

(** ** Ordered containers *)

Section ContainerFacts.
Variable K : Type.
Variable cmp : K -> K -> comparison.
Hypothesis cmp_eq : forall x y, cmp x y = Eq <-> x = y.
Hypothesis cmp_antisym : forall x y, cmp y x = CompOpp (cmp x y).
Hypothesis cmp_trans : forall x y z, cmp x y = Lt -> cmp y z = Lt -> cmp x z = Lt.

Lemma cmp_refl x : cmp x x = Eq.
Proof. now apply cmp_eq. Qed.

Lemma cmp_Gt_Lt x y : cmp x y = Gt -> cmp y x = Lt.
Proof. intros H. rewrite cmp_antisym, H. reflexivity. Qed.

Lemma set_insert_In x y s :
  In x (fst (set_insert cmp y s)) <-> x = y \/ In x s.
Proof.
  induction s as [|z s IH]; simpl.
  - intuition.
  - destruct (cmp y z) eqn:E; simpl.
    + apply cmp_eq in E. subst. intuition.
    + intuition.
    + destruct (set_insert cmp y s) as [s' b]. simpl in *. intuition.
Qed.

Lemma sorted_set_NoDup s : sorted_set cmp s -> NoDup s.
Proof.
  induction 1 as [|x s Hs IH Hx]; constructor; auto.
  intros Hin. rewrite Forall_forall in Hx. specialize (Hx _ Hin).
  unfold lt_key in Hx. rewrite cmp_refl in Hx. discriminate.
Qed.

Lemma sorted_set_tail x s : sorted_set cmp (x :: s) -> sorted_set cmp s.
Proof. now inversion 1. Qed.

Lemma set_insert_sorted x s :
  sorted_set cmp s -> sorted_set cmp (fst (set_insert cmp x s)).
Proof.
  induction 1 as [|y s Hs IH Hy]; simpl.
  - repeat constructor.
  - destruct (cmp x y) eqn:E; simpl.
    + now constructor.
    + constructor; [now constructor|].
      constructor; [exact E|].
      rewrite Forall_forall in *. intros z Hz. eapply cmp_trans; eauto. now apply Hy.
    + destruct (set_insert cmp x s) as [s' b] eqn:Es. simpl in *.
      constructor; [exact IH|].
      rewrite Forall_forall in *. intros z Hz.
      assert (Hz' : In z (fst (set_insert cmp x s))) by now rewrite Es.
      apply set_insert_In in Hz'. destruct Hz' as [->|Hz']; [|now apply Hy].
      now apply cmp_Gt_Lt.
Qed.

Variable V : Type.
Implicit Types m : list (K * V).

Lemma map_find_In k v m : map_find cmp k m = Some v -> In (k, v) m.
Proof.
  induction m as [|[k' v'] m IH]; simpl; [discriminate|].
  destruct (cmp k k') eqn:E; auto.
  intros [= ->]. apply cmp_eq in E. subst. now left.
Qed.

Lemma map_find_None k m : map_find cmp k m = None <-> ~ In k (keys m).
Proof.
  induction m as [|[k' v'] m IH]; simpl; [intuition|].
  destruct (cmp k k') eqn:E.
  - apply cmp_eq in E. subst. split; [discriminate|intuition].
  - rewrite IH. split; [|intuition]. intros H [->|H']; [|auto].
    rewrite cmp_refl in E. discriminate.
  - rewrite IH. split; [|intuition]. intros H [->|H']; [|auto].
    rewrite cmp_refl in E. discriminate.
Qed.

Lemma map_find_keys k m : In k (keys m) <-> exists v, map_find cmp k m = Some v.
Proof.
  destruct (map_find cmp k m) eqn:E.
  - split; [eauto|]. intros _. apply map_find_In in E.
    unfold keys. apply in_map_iff. now exists (k, v).
  - split; [|intros [v [=]]]. intros H. now apply map_find_None in E.
Qed.

Lemma map_insert_keys x k v m :
  In x (keys (fst (map_insert cmp k v m))) <-> x = k \/ In x (keys m).
Proof.
  induction m as [|[k' v'] m IH]; simpl.
  - intuition.
  - destruct (cmp k k') eqn:E; simpl.
    + apply cmp_eq in E. subst. intuition.
    + intuition.
    + destruct (map_insert cmp k v m) as [m' b]. simpl in *. intuition.
Qed.

Lemma map_insert_old k v m m' : map_insert cmp k v m = (m', false) -> m' = m.
Proof.
  revert m'. induction m as [|[k' v'] m IH]; simpl; intros m'.
  - intros [=].
  - destruct (cmp k k') eqn:E.
    + now intros [= <-].
    + intros [=].
    + destruct (map_insert cmp k v m) as [m1 b]. intros [= <- ->].
      f_equal. now apply IH.
Qed.

Lemma map_insert_new k v m :
  ~ In k (keys m) ->
  snd (map_insert cmp k v m) = true /\
  Permutation (keys (fst (map_insert cmp k v m))) (k :: keys m) /\
  forall x, map_find cmp x (fst (map_insert cmp k v m)) =
            match cmp x k with Eq => Some v | _ => map_find cmp x m end.
Proof.
  induction m as [|[k' v'] m IH]; simpl; intros Hk.
  - repeat split; auto.
  - destruct (cmp k k') eqn:E; simpl.
    + apply cmp_eq in E. subst. tauto.
    + repeat split; auto.
    + destruct IH as (Hb & Hp & Hf); [tauto|].
      destruct (map_insert cmp k v m) as [m1 b]. simpl in *.
      repeat split; auto.
      * rewrite Hp. apply perm_swap.
      * intros x. rewrite Hf. destruct (cmp x k') eqn:E'; auto.
        apply cmp_eq in E'. subst x.
        rewrite cmp_antisym, E. reflexivity.
Qed.

Lemma map_insert_present k v m :
  sorted_map cmp m -> In k (keys m) -> map_insert cmp k v m = (m, false).
Proof.
  unfold sorted_map.
  induction m as [|[k' v'] m IH]; simpl; intros Hs Hk; [tauto|].
  inversion Hs as [|? ? Hs' Hall]; subst.
  destruct (cmp k k') eqn:E; auto.
  - destruct Hk as [->|Hk]; [rewrite cmp_refl in E; discriminate|].
    rewrite Forall_forall in Hall. specialize (Hall _ Hk). unfold lt_key in Hall.
    rewrite cmp_antisym, E in Hall. discriminate.
  - destruct Hk as [->|Hk]; [rewrite cmp_refl in E; discriminate|].
    now rewrite IH.
Qed.

Lemma map_insert_sorted k v m :
  sorted_map cmp m -> sorted_map cmp (fst (map_insert cmp k v m)).
Proof.
  unfold sorted_map.
  induction m as [|[k' v'] m IH]; simpl; intros Hs.
  - repeat constructor.
  - inversion Hs as [|? ? Hs' Hall]; subst.
    destruct (cmp k k') eqn:E; simpl.
    + exact Hs.
    + constructor; [exact Hs|].
      constructor; [exact E|].
      rewrite Forall_forall in *. intros z Hz. eapply cmp_trans; eauto. now apply Hall.
    + specialize (IH Hs').
      pose proof (fun x => map_insert_keys x k v m) as Hin.
      destruct (map_insert cmp k v m) as [m1 b]. simpl in *.
      constructor; [exact IH|].
      rewrite Forall_forall in *. intros z Hz.
      apply Hin in Hz. destruct Hz as [->|Hz]; [|now apply Hall].
      now apply cmp_Gt_Lt.
Qed.

Lemma map_adjust_keys f k m : keys (map_adjust cmp f k m) = keys m.
Proof.
  induction m as [|[k' v'] m IH]; simpl; auto.
  destruct (cmp k k'); simpl; congruence.
Qed.

Lemma map_adjust_find f k x m :
  map_find cmp x (map_adjust cmp f k m) =
  match cmp x k with
  | Eq => option_map f (map_find cmp k m)
  | _ => map_find cmp x m
  end.
Proof.
  induction m as [|[k' v'] m IH]; simpl.
  - now destruct (cmp x k).
  - destruct (cmp k k') eqn:E; simpl.
    + apply cmp_eq in E. subst k'. destruct (cmp x k) eqn:E'; auto.
    + destruct (cmp x k') eqn:E'; auto.
      apply cmp_eq in E'. subst k'.
      destruct (cmp x k) eqn:E2; auto.
      apply cmp_eq in E2. subst. rewrite cmp_refl in E. discriminate.
    + destruct (cmp x k') eqn:E'; auto.
      apply cmp_eq in E'. subst k'.
      destruct (cmp x k) eqn:E2; auto.
      apply cmp_eq in E2. subst. rewrite cmp_refl in E. discriminate.
Qed.

End ContainerFacts.

(** ** The order on states and on labels *)

Lemma Z_compare_antisym (x y : Z) : (y ?= x)%Z = CompOpp (x ?= y)%Z.
Proof. apply Z.compare_antisym. Qed.

Lemma Z_compare_trans (x y z : Z) (c : comparison) :
  (x ?= y)%Z = c -> (y ?= z)%Z = c -> (x ?= z)%Z = c.
Proof.
  destruct c; intros H1 H2.
  - rewrite Z.compare_eq_iff in *. lia.
  - rewrite Z.compare_lt_iff in *. lia.
  - rewrite Z.compare_gt_iff in *. lia.
Qed.

Lemma State_compare_eq (a b : State) : State_compare a b = Eq <-> a = b.
Proof. apply list_compare_refl. exact Z.compare_eq_iff. Qed.

Lemma State_compare_antisym (a b : State) :
  State_compare b a = CompOpp (State_compare a b).
Proof.
  apply list_compare_antisym; [exact Z.compare_eq_iff | exact Z_compare_antisym].
Qed.

Lemma State_compare_trans (a b c : State) :
  State_compare a b = Lt -> State_compare b c = Lt -> State_compare a c = Lt.
Proof.
  apply list_compare_trans;
    [exact Z.compare_eq_iff | exact Z_compare_trans | exact Z_compare_antisym].
Qed.

Lemma State_compare_refl (a : State) : State_compare a a = Eq.
Proof. now apply State_compare_eq. Qed.

Lemma State_eq_dec (a b : State) : {a = b} + {a <> b}.
Proof. apply list_eq_dec, Z.eq_dec. Qed.

(** ** Reading and writing cells *)

Lemma length_put i v s : length (put i v s) = length s.
Proof.
  revert i. induction s as [|x s IH]; intros [|i]; simpl; auto.
Qed.

Lemma get_put_same i v s : i < length s -> get (put i v s) i = v.
Proof.
  unfold get. revert i. induction s as [|x s IH]; intros [|i]; simpl; intros H;
    try lia; auto. apply IH. lia.
Qed.

Lemma get_put_other i j v s : i <> j -> get (put i v s) j = get s j.
Proof.
  unfold get. revert i j. induction s as [|x s IH]; intros [|i] [|j]; simpl; intros H;
    try congruence; auto.
Qed.

Lemma put_out_of_range i v s : length s <= i -> put i v s = s.
Proof.
  revert i. induction s as [|x s IH]; intros [|i]; simpl; intros H; auto; try lia.
  f_equal. apply IH. lia.
Qed.

Lemma get_put i j v s :
  get (put i v s) j = if (i =? j) && (i <? length s) then v else get s j.
Proof.
  destruct (Nat.eqb_spec i j) as [->|Hij]; simpl.
  - destruct (Nat.ltb_spec j (length s)).
    + now apply get_put_same.
    + now rewrite put_out_of_range.
  - now apply get_put_other.
Qed.

Lemma state_ext (a b : State) :
  length a = length b -> (forall i, i < length a -> get a i = get b i) -> a = b.
Proof. intros Hl H. apply nth_ext with (d := 0%Z) (d' := 0%Z); auto. Qed.

Lemma get_map f s i : i < length s -> get (map f s) i = f (get s i).
Proof.
  intros H. unfold get.
  rewrite nth_indep with (d' := f 0%Z) by now rewrite length_map.
  apply map_nth.
Qed.

Lemma get_In s i : i < length s -> In (get s i) s.
Proof. intros H. now apply nth_In. Qed.

Lemma In_get x s : In x s -> exists i, i < length s /\ get s i = x.
Proof. intros H. apply In_nth with (d := 0%Z) in H. exact H. Qed.

(** ** Normalize: the inner loop exchanges two labels *)

Lemma sw_inj c l x y : sw c l x = sw c l y -> x = y.
Proof.
  unfold sw.
  destruct (Z.eqb_spec x c), (Z.eqb_spec x l), (Z.eqb_spec y c), (Z.eqb_spec y l);
    congruence.
Qed.

Lemma sw_same l x : sw l l x = x.
Proof. unfold sw. destruct (Z.eqb_spec x l); congruence. Qed.

Lemma swap_labels_spec c l k :
  forall s j, j + k <= length s ->
    length (swap_labels c l s j k) = length s /\
    forall i, get (swap_labels c l s j k) i =
              if (j <=? i) && (i <? j + k) then sw c l (get s i) else get s i.
Proof.
  induction k as [|k IH]; intros s j Hj; simpl.
  - split; auto. intros i.
    destruct (Nat.leb_spec j i), (Nat.ltb_spec i (j + 0)); simpl; auto; lia.
  - assert (Hstep : exists s1,
        (if (get s j =? c)%Z then swap_labels c l (put j l s) (S j) k
         else if (get s j =? l)%Z then swap_labels c l (put j c s) (S j) k
              else swap_labels c l s (S j) k) = swap_labels c l s1 (S j) k /\
        length s1 = length s /\
        forall i, get s1 i = if i =? j then sw c l (get s j) else get s i).
    { unfold sw.
      destruct (Z.eqb_spec (get s j) c) as [E|E];
        [|destruct (Z.eqb_spec (get s j) l) as [E'|E']].
      - exists (put j l s). split; [reflexivity|]. split; [apply length_put|].
        intros i. rewrite get_put. rewrite (Nat.eqb_sym i j).
        destruct (Nat.eqb_spec j i); simpl; auto.
        destruct (Nat.ltb_spec j (length s)); auto; lia.
      - exists (put j c s). split; [reflexivity|]. split; [apply length_put|].
        intros i. rewrite get_put. rewrite (Nat.eqb_sym i j).
        destruct (Nat.eqb_spec j i); simpl; auto.
        destruct (Nat.ltb_spec j (length s)); auto; lia.
      - exists s. split; [reflexivity|]. split; [reflexivity|].
        intros i. destruct (Nat.eqb_spec i j); subst; auto. }
    destruct Hstep as (s1 & -> & Hlen & Hget).
    destruct (IH s1 (S j)) as [IHl IHg]; [lia|].
    split; [congruence|].
    intros i. rewrite IHg, Hget.
    destruct (Nat.eqb_spec i j) as [->|Hij].
    + destruct (Nat.leb_spec (S j) j); [lia|].
      destruct (Nat.leb_spec j j); [|lia].
      destruct (Nat.ltb_spec j (j + S k)); [|lia]. reflexivity.
    + destruct (Nat.leb_spec (S j) i), (Nat.leb_spec j i),
        (Nat.ltb_spec i (S j + k)), (Nat.ltb_spec i (j + S k)); simpl; auto; lia.
Qed.

Lemma swap_labels_length c l s i :
  i <= length s -> length (swap_labels c l s i (length s - i)) = length s.
Proof. intros H. apply swap_labels_spec. lia. Qed.

Lemma swap_labels_before c l s i j :
  i <= length s -> j < i -> get (swap_labels c l s i (length s - i)) j = get s j.
Proof.
  intros H Hj. destruct (swap_labels_spec c l (length s - i) s i) as [_ Hg]; [lia|].
  rewrite Hg. destruct (Nat.leb_spec i j); [lia|]. reflexivity.
Qed.

Lemma swap_labels_from c l s i j :
  i <= j < length s ->
  get (swap_labels c l s i (length s - i)) j = sw c l (get s j).
Proof.
  intros H. destruct (swap_labels_spec c l (length s - i) s i) as [_ Hg]; [lia|].
  rewrite Hg. destruct (Nat.leb_spec i j); [|lia].
  destruct (Nat.ltb_spec j (i + (length s - i))); [|lia]. reflexivity.
Qed.

Lemma swap_labels_same l s i :
  i <= length s -> swap_labels l l s i (length s - i) = s.
Proof.
  intros H. apply state_ext.
  - now apply swap_labels_length.
  - intros j Hj. rewrite swap_labels_length in Hj by assumption.
    destruct (Nat.lt_ge_cases j i).
    + now apply swap_labels_before.
    + rewrite swap_labels_from by lia. apply sw_same.
Qed.

(** ** Normalize: well-formed cells and relabelings *)

Lemma increasing_head l ls x : increasing (l :: ls) -> In x ls -> (l < x)%Z.
Proof.
  intros H Hx. inversion H as [|? ? _ Hall]; subst.
  rewrite Forall_forall in Hall. now apply Hall.
Qed.

Lemma increasing_tail l ls : increasing (l :: ls) -> increasing ls.
Proof. now inversion 1. Qed.

Lemma increasing_not_in l ls : increasing (l :: ls) -> ~ In l ls.
Proof. intros H Hin. pose proof (increasing_head _ _ _ H Hin). lia. Qed.

Lemma relabeling_id ls : relabeling ls (fun x => x).
Proof. repeat split; auto. Qed.

Lemma relabeling_sw ls c l : In c ls -> In l ls -> relabeling ls (sw c l).
Proof.
  intros Hc Hl. repeat split.
  - intros x Hx. unfold sw.
    destruct (Z.eqb_spec x c), (Z.eqb_spec x l); congruence.
  - intros x Hx. unfold sw.
    destruct (Z.eqb_spec x c), (Z.eqb_spec x l); congruence.
  - apply sw_inj.
Qed.

Lemma relabeling_weaken ls ls' g :
  incl ls' ls -> relabeling ls' g -> relabeling ls g.
Proof.
  intros Hi (H1 & H2 & H3). repeat split; auto.
  intros x Hx. destruct (in_dec Z.eq_dec x ls') as [Hin|Hin].
  - apply Hi. now apply H2.
  - now rewrite H1.
Qed.

Lemma relabeling_compose ls g1 g2 :
  relabeling ls g1 -> relabeling ls g2 -> relabeling ls (fun x => g1 (g2 x)).
Proof.
  intros (A1 & A2 & A3) (B1 & B2 & B3). repeat split.
  - intros x Hx. rewrite B1 by assumption. now apply A1.
  - intros x Hx. auto.
  - intros x y H. auto.
Qed.

Lemma cell_ok_sw l ls c x :
  increasing (l :: ls) -> In c (l :: ls) ->
  cell_ok (l :: ls) x -> cell_ok ls (sw c l x).
Proof.
  intros Hinc Hc Hx. unfold sw.
  destruct (Z.eqb_spec x c) as [->|Hxc].
  - right. right. intros y Hy. eapply increasing_head; eauto.
  - destruct (Z.eqb_spec x l) as [->|Hxl].
    + right. left. destruct Hc as [<-|Hc]; [congruence|exact Hc].
    + destruct Hx as [->|[[<-|Hx]|Hx]].
      * now left.
      * congruence.
      * right. now left.
      * right. right. intros y Hy. apply Hx. now right.
Qed.

Lemma cell_ok_ge l ls x :
  increasing (l :: ls) -> cell_ok (l :: ls) x -> x <> space -> (l <= x)%Z ->
  In x (l :: ls).
Proof.
  intros Hinc [->|[H|H]] Hs Hge; [congruence|exact H|].
  specialize (H l (or_introl eq_refl)). lia.
Qed.

Lemma In_ge l ls x : increasing (l :: ls) -> In x (l :: ls) -> (l <= x)%Z.
Proof.
  intros Hinc [<-|H]; [lia|]. pose proof (increasing_head _ _ _ Hinc H). lia.
Qed.

(** From a cell that carries an unseen label on, both branches of the loop
    body (label under the cursor, larger label) are one exchange. *)
Lemma Normalize_loop_unseen s l ls i k :
  i < length s -> get s i <> space -> (l <= get s i)%Z ->
  Normalize_loop s (l :: ls) i (S k) =
  let s' := swap_labels (get s i) l s i (length s - i) in
  match ls with
  | [] => Done s'
  | _ => Normalize_loop s' ls (S i) k
  end.
Proof.
  intros Hi Hs Hge. simpl.
  destruct (Z.eqb_spec (get s i) space) as [E|_]; [congruence|].
  destruct (Z.ltb_spec (get s i) l) as [E|_]; [lia|].
  destruct (Z.eqb_spec (get s i) l) as [E|_]; [|reflexivity].
  rewrite E. rewrite swap_labels_same by lia. reflexivity.
Qed.

Lemma Normalize_loop_seen s ls i k :
  get s i = space \/ (exists l ls', ls = l :: ls' /\ (get s i < l)%Z) ->
  Normalize_loop s ls i (S k) = Normalize_loop s ls (S i) k.
Proof.
  intros H. simpl.
  destruct (Z.eqb_spec (get s i) space) as [E|E]; [reflexivity|].
  destruct H as [H|(l & ls' & -> & H)]; [congruence|].
  destruct (Z.ltb_spec (get s i) l); [reflexivity|lia].
Qed.

(** ** Normalize: two runs on states that differ by a relabeling *)

Lemma related_sym ls i s1 s2 : related ls i s1 s2 -> related ls i s2 s1.
Proof.
  intros [H1 H2 H3 H4 H5 H6 H7]. constructor; rewrite <- ?H1; auto.
  - intros j Hj. symmetry. auto.
  - intros j j' Hj Hj'. symmetry. auto.
  - intros j Hj Hs. symmetry. auto.
  - intros j Hj Hs. symmetry. auto.
Qed.

Lemma related_nil i s1 s2 : related [] i s1 s2 -> s1 = s2.
Proof.
  intros H. apply state_ext; [apply H|].
  intros j Hj. destruct (Nat.lt_ge_cases j i).
  - now apply (rel_done _ _ _ _ H).
  - apply (rel_seen1 _ _ _ _ H); [lia|]. right. intros [].
Qed.

Lemma related_next ls i s1 s2 :
  related ls i s1 s2 -> get s1 i = get s2 i -> related ls (S i) s1 s2.
Proof.
  intros [H1 H2 H3 H4 H5 H6 H7] He. constructor; auto.
  - intros j Hj. destruct (Nat.eq_dec j i) as [->|]; [exact He|]. apply H2. lia.
  - intros j j' Hj Hj'. apply H3; lia.
  - intros j Hj. apply H4. lia.
  - intros j Hj. apply H5. lia.
  - intros j Hj. apply H6. lia.
  - intros j Hj. apply H7. lia.
Qed.

Lemma sw_hit c l : sw c l c = l.
Proof. unfold sw. now rewrite Z.eqb_refl. Qed.

Lemma sw_seen c1 c2 l ls x1 x2 :
  increasing (l :: ls) -> ~ In space (l :: ls) ->
  In c1 (l :: ls) -> In c2 (l :: ls) ->
  (x1 = c1 <-> x2 = c2) ->
  (x1 = space \/ ~ In x1 (l :: ls) -> x1 = x2) ->
  sw c1 l x1 = space \/ ~ In (sw c1 l x1) ls ->
  sw c1 l x1 = sw c2 l x2.
Proof.
  intros Hinc Hsp Hc1 Hc2 Hpart Hseen Hnew.
  assert (Hl : In l (l :: ls)) by now left.
  assert (Hnl : ~ In l ls) by now apply increasing_not_in.
  unfold sw in *.
  destruct (Z.eqb_spec x1 c1) as [E1|E1].
  - apply Hpart in E1. destruct (Z.eqb_spec x2 c2); congruence.
  - assert (E2 : x2 <> c2) by (intros E; apply Hpart in E; congruence).
    destruct (Z.eqb_spec x2 c2) as [|_]; [congruence|].
    destruct (Z.eqb_spec x1 l) as [E1l|E1l].
    + exfalso. destruct Hnew as [Hnew|Hnew]; [congruence|].
      apply Hnew. destruct Hc1 as [Hc1|Hc1]; [congruence|exact Hc1].
    + assert (Hx : x1 = x2).
      { apply Hseen. destruct Hnew as [Hnew|Hnew]; [now left|right].
        intros [Hin|Hin]; [congruence|auto]. }
      subst x2. destruct (Z.eqb_spec x1 l); congruence.
Qed.

Lemma related_swap l ls i s1 s2 :
  increasing (l :: ls) -> ~ In space (l :: ls) ->
  related (l :: ls) i s1 s2 -> i < length s1 ->
  In (get s1 i) (l :: ls) -> In (get s2 i) (l :: ls) ->
  related ls (S i)
          (swap_labels (get s1 i) l s1 i (length s1 - i))
          (swap_labels (get s2 i) l s2 i (length s2 - i)).
Proof.
  intros Hinc Hsp H Hi Hc1 Hc2.
  pose proof (rel_len _ _ _ _ H) as Hlen.
  assert (Hi2 : i < length s2) by lia.
  constructor; rewrite ?swap_labels_length by lia.
  - exact Hlen.
  - intros j Hj. destruct (Nat.eq_dec j i) as [->|Hne].
    + rewrite !swap_labels_from by lia. now rewrite !sw_hit.
    + rewrite !swap_labels_before by lia. apply (rel_done _ _ _ _ H). lia.
  - intros j j' Hj Hj'. rewrite !swap_labels_from by lia.
    split; intros E; apply sw_inj in E; f_equal;
      apply (rel_part _ _ _ _ H j j'); auto; lia.
  - intros j Hj. rewrite !swap_labels_from by lia.
    apply sw_seen with (ls := ls); auto.
    + apply (rel_part _ _ _ _ H); lia.
    + apply (rel_seen1 _ _ _ _ H). lia.
  - intros j Hj. rewrite !swap_labels_from by lia. intros Hs. symmetry.
    apply sw_seen with (ls := ls); auto.
    + symmetry. apply (rel_part _ _ _ _ H); lia.
    + intros Hx. symmetry. apply (rel_seen2 _ _ _ _ H); [lia|exact Hx].
  - intros j Hj. rewrite swap_labels_from by lia.
    apply cell_ok_sw; auto. apply (rel_ok1 _ _ _ _ H). lia.
  - intros j Hj. rewrite swap_labels_from by lia.
    apply cell_ok_sw; auto. apply (rel_ok2 _ _ _ _ H). lia.
Qed.

Lemma Normalize_loop_related k : forall ls i s1 s2,
  i + k = length s1 -> increasing ls -> ~ In space ls -> related ls i s1 s2 ->
  Normalize_loop s1 ls i k = Normalize_loop s2 ls i k.
Proof.
  induction k as [|k IH]; intros ls i s1 s2 Hk Hinc Hsp H.
  - simpl. f_equal. apply state_ext; [apply H|].
    intros j Hj. apply (rel_done _ _ _ _ H). lia.
  - pose proof (rel_len _ _ _ _ H) as Hlen.
    destruct ls as [|l ls]; [now rewrite (related_nil _ _ _ H)|].
    assert (Hi : i <= i < length s1) by lia.
    destruct (Z.eq_dec (get s1 i) space) as [E1|E1].
    { assert (E2 : get s1 i = get s2 i) by (apply (rel_seen1 _ _ _ _ H); auto).
      rewrite !Normalize_loop_seen by (left; congruence).
      apply IH; auto; [lia|]. now apply related_next. }
    destruct (Z_lt_dec (get s1 i) l) as [L1|L1].
    { assert (E2 : get s1 i = get s2 i).
      { apply (rel_seen1 _ _ _ _ H); auto. right. intros Hin.
        pose proof (In_ge _ _ _ Hinc Hin). lia. }
      rewrite !Normalize_loop_seen by (right; exists l, ls; split; [auto|lia]).
      apply IH; auto; [lia|]. now apply related_next. }
    assert (Hc1 : In (get s1 i) (l :: ls)).
    { apply cell_ok_ge; auto; [|lia]. now apply (rel_ok1 _ _ _ _ H). }
    assert (Hc2 : get s2 i <> space /\ In (get s2 i) (l :: ls)).
    { destruct (Z.eq_dec (get s2 i) space) as [E2|E2].
      - exfalso. apply E1. rewrite (rel_seen2 _ _ _ _ H i Hi); auto.
      - split; auto. destruct (in_dec Z.eq_dec (get s2 i) (l :: ls)) as [|N]; auto.
        assert (E : get s1 i = get s2 i) by (apply (rel_seen2 _ _ _ _ H i Hi); auto).
        exfalso. apply N. now rewrite <- E. }
    destruct Hc2 as [E2 Hc2].
    pose proof (In_ge _ _ _ Hinc Hc2) as L2.
    rewrite !Normalize_loop_unseen by (auto; lia). cbv zeta.
    pose proof (related_swap _ _ _ _ _ Hinc Hsp H (proj2 Hi) Hc1 Hc2) as Hrel.
    destruct ls as [|l' ls'].
    + f_equal. now apply related_nil in Hrel.
    + apply IH; auto.
      * rewrite swap_labels_length by lia. lia.
      * now apply increasing_tail in Hinc.
      * intros Hin. apply Hsp. now right.
Qed.

(** ** Normalize: the result is a relabeling of the argument *)

Lemma Normalize_loop_all_space k : forall s ls i,
  (forall j, i <= j < i + k -> get s j = space) ->
  Normalize_loop s ls i k = Done s.
Proof.
  induction k as [|k IH]; intros s ls i H; [reflexivity|].
  rewrite Normalize_loop_seen by (left; apply H; lia).
  apply IH. intros j Hj. apply H. lia.
Qed.

Lemma Normalize_loop_shape k : forall l ls i s,
  i + k = length s -> increasing (l :: ls) -> ~ In space (l :: ls) ->
  (forall j, i <= j < length s -> cell_ok (l :: ls) (get s j)) ->
  exists s' g,
    Normalize_loop s (l :: ls) i k = Done s' /\ length s' = length s /\
    (forall j, j < i -> get s' j = get s j) /\
    (forall j, i <= j < length s -> get s' j = g (get s j)) /\
    relabeling (l :: ls) g.
Proof.
  induction k as [|k IH]; intros l ls i s Hk Hinc Hsp Hok.
  - exists s, (fun x => x). simpl. repeat split; auto.
  - assert (Hi : i <= i < length s) by lia.
    assert (Hseen : get s i = space \/ (get s i < l)%Z ->
                    exists s' g,
                      Normalize_loop s (l :: ls) i (S k) = Done s' /\
                      length s' = length s /\
                      (forall j, j < i -> get s' j = get s j) /\
                      (forall j, i <= j < length s -> get s' j = g (get s j)) /\
                      relabeling (l :: ls) g).
    { intros Hc.
      rewrite Normalize_loop_seen
        by (destruct Hc; [now left|right; exists l, ls; auto]).
      destruct (IH l ls (S i) s) as (s' & g & Hrun & Hlen & Hpre & Hpost & Hg);
        auto; [lia|intros j Hj; apply Hok; lia|].
      exists s', g. split; [exact Hrun|]. split; [exact Hlen|].
      split; [intros j Hj; apply Hpre; lia|]. split; [|exact Hg].
      intros j Hj. destruct (Nat.eq_dec j i) as [->|Hne]; [|apply Hpost; lia].
      rewrite Hpre by lia. symmetry. apply (proj1 Hg).
      destruct Hc as [Hc|Hc]; [now rewrite Hc|].
      intros Hin. pose proof (In_ge _ _ _ Hinc Hin). lia. }
    destruct (Z.eq_dec (get s i) space) as [E|E]; [now apply Hseen; left|].
    destruct (Z_lt_dec (get s i) l) as [L|L]; [now apply Hseen; right|].
    clear Hseen.
    assert (Hc : In (get s i) (l :: ls)) by (apply cell_ok_ge; auto; lia).
    rewrite Normalize_loop_unseen by (auto; lia). cbv zeta.
    set (c := get s i) in *. set (s1 := swap_labels c l s i (length s - i)).
    assert (Hlen1 : length s1 = length s) by (apply swap_labels_length; lia).
    destruct ls as [|l' ls'].
    + exists s1, (sw c l). split; [reflexivity|]. split; [exact Hlen1|].
      split; [|split].
      * intros j Hj. apply swap_labels_before; lia.
      * intros j Hj. now apply swap_labels_from.
      * apply relabeling_sw; auto. now left.
    + destruct (IH l' ls' (S i) s1) as (s' & g & Hrun & Hlen & Hpre & Hpost & Hg).
      * lia.
      * now apply increasing_tail in Hinc.
      * intros Hin. apply Hsp. now right.
      * intros j Hj. unfold s1. rewrite swap_labels_from by lia.
        apply cell_ok_sw; auto. apply Hok. lia.
      * assert (Hrel : relabeling (l :: l' :: ls') (fun x => g (sw c l x))).
        { apply relabeling_compose.
          - apply relabeling_weaken with (ls' := l' :: ls'); auto.
            intros x Hx. now right.
          - apply relabeling_sw; auto. now left. }
        exists s', (fun x => g (sw c l x)).
        split; [exact Hrun|]. split; [congruence|]. split; [|split; [|exact Hrel]].
        -- intros j Hj. rewrite Hpre by lia. apply swap_labels_before; lia.
        -- intros j Hj. destruct (Nat.eq_dec j i) as [->|Hne].
           ++ rewrite Hpre by lia. unfold s1. rewrite swap_labels_from by lia.
              fold c. rewrite sw_hit. symmetry. apply (proj1 Hg).
              now apply increasing_not_in.
           ++ rewrite Hpost by lia. unfold s1. now rewrite swap_labels_from by lia.
Qed.

Lemma uses_get L s j : uses L s -> j < length s -> get s j = space \/ In (get s j) L.
Proof. intros H Hj. apply H. now apply get_In. Qed.

Theorem Normalize_shape L s :
  label_set L -> uses L s ->
  exists s' g, Normalize s L = Done s' /\ s' = map g s /\ relabeling L g.
Proof.
  intros [Hinc Hsp] Hu. unfold Normalize. destruct L as [|l ls].
  - exists s, (fun x => x). split; [|split; [now rewrite map_id|apply relabeling_id]].
    apply Normalize_loop_all_space. intros j Hj.
    destruct (uses_get _ _ j Hu) as [H|[]]; [lia|exact H].
  - destruct (Normalize_loop_shape (length s) l ls 0 s)
      as (s' & g & Hrun & Hlen & _ & Hpost & Hg); auto.
    { intros j Hj. destruct (uses_get _ _ j Hu) as [H|H]; [lia| |].
      - now left.
      - right. now left. }
    exists s', g. split; [exact Hrun|]. split; [|exact Hg].
    apply state_ext; [now rewrite length_map|].
    intros j Hj. rewrite get_map by lia. apply Hpost. lia.
Qed.

(** Relabeling a state injectively inside the label set does not change
    its normal form. *)
Theorem Normalize_relabel L s f :
  label_set L -> uses L s ->
  f space = space ->
  (forall x, In x s -> x <> space -> In (f x) L) ->
  (forall x y, In x s -> In y s -> f x = f y -> x = y) ->
  Normalize (map f s) L = Normalize s L.
Proof.
  intros [Hinc Hsp] Hu Hfs Hfl Hfi. unfold Normalize. rewrite length_map.
  apply Normalize_loop_related; auto; [now rewrite length_map|].
  assert (Hcase : forall j, j < length s ->
            (get s j = space /\ get (map f s) j = space) \/
            (get s j <> space /\ In (get s j) L /\ In (get (map f s) j) L)).
  { intros j Hj. rewrite get_map by assumption.
    destruct (Z.eq_dec (get s j) space) as [E|E].
    - left. now rewrite E.
    - right. destruct (uses_get _ _ j Hu Hj) as [H|H]; [congruence|].
      repeat split; auto. apply Hfl; auto. now apply get_In. }
  constructor; rewrite ?length_map.
  - reflexivity.
  - intros j Hj. lia.
  - intros j j' Hj Hj'. rewrite !get_map by lia. split; intros E.
    + apply Hfi; auto; apply get_In; lia.
    + now rewrite E.
  - intros j Hj Hs. destruct (Hcase j) as [[H1 H2]|(H1 & H2 & H3)]; [lia|congruence|].
    destruct Hs as [Hs|Hs]; [|contradiction]. rewrite Hs in H3. contradiction.
  - intros j Hj Hs. destruct (Hcase j) as [[H1 H2]|(H1 & H2 & H3)]; [lia|congruence|].
    destruct Hs as [Hs|Hs]; [congruence|contradiction].
  - intros j Hj. destruct (Hcase j) as [[H1 H2]|(H1 & H2 & H3)]; [lia| |].
    + now left.
    + right. now left.
  - intros j Hj. destruct (Hcase j) as [[H1 H2]|(H1 & H2 & H3)]; [lia| |].
    + now left.
    + right. now left.
Qed.

Lemma relabeling_space L g : ~ In space L -> relabeling L g -> g space = space.
Proof. intros Hsp Hg. now apply (proj1 Hg). Qed.

Lemma uses_map L g s : ~ In space L -> relabeling L g -> uses L s -> uses L (map g s).
Proof.
  intros Hsp Hg Hu x Hx. apply in_map_iff in Hx. destruct Hx as (y & <- & Hy).
  destruct (Hu y Hy) as [->|H].
  - left. now apply relabeling_space with (L := L).
  - right. now apply (proj1 (proj2 Hg)).
Qed.

(** [Normalize] returns a canonical state over the same label set. *)
Theorem Normalize_canonical L s s' :
  label_set L -> uses L s -> Normalize s L = Done s' ->
  canonical L s' /\ uses L s' /\ length s' = length s.
Proof.
  intros HL Hu Hrun.
  destruct (Normalize_shape L s HL Hu) as (s1 & g & Hrun1 & -> & Hg).
  rewrite Hrun in Hrun1. injection Hrun1 as ->.
  destruct HL as [Hinc Hsp]. split; [|split].
  - unfold canonical. rewrite Normalize_relabel; auto.
    + now split.
    + now apply relabeling_space with (L := L).
    + intros x Hx Hne. apply (proj1 (proj2 Hg)).
      destruct (Hu x Hx); [congruence|assumption].
    + intros x y _ _. apply (proj2 (proj2 Hg)).
  - now apply uses_map.
  - apply length_map.
Qed.

Lemma Normalize_total L s :
  label_set L -> uses L s -> exists s', Normalize s L = Done s'.
Proof.
  intros HL Hu. destruct (Normalize_shape L s HL Hu) as (s' & g & H & _). eauto.
Qed.

(** ** The move relation *)

Lemma opposite_involutive d : opposite (opposite d) = d.
Proof. now destruct d. Qed.

Lemma Move_inside d i :
  i < 20 -> IsEdge d i = false ->
  Move d i < 20 /\ IsEdge (opposite d) (Move d i) = false /\
  Move (opposite d) (Move d i) = i.
Proof.
  intros Hi. destruct d.
  - revert Hi.
    do 20 (destruct i as [|i]; [vm_compute; intros; repeat split; (congruence || lia)|]).
    lia.
  - revert Hi.
    do 20 (destruct i as [|i]; [vm_compute; intros; repeat split; (congruence || lia)|]).
    lia.
  - revert Hi.
    do 20 (destruct i as [|i]; [vm_compute; intros; repeat split; (congruence || lia)|]).
    lia.
  - revert Hi.
    do 20 (destruct i as [|i]; [vm_compute; intros; repeat split; (congruence || lia)|]).
    lia.
Qed.

(** *** [IsEdge] and [Move] against the board of the specification *)





Lemma indices_of_In s label i :
  In i (indices_of s label) <-> i < length s /\ get s i = label.
Proof.
  unfold indices_of. rewrite filter_In, in_seq, Z.eqb_eq. intuition lia.
Qed.

Lemma canmove_spec s label d idx :
  canmove s label d idx = true <->
  forall i, In i idx ->
    IsEdge d i = false /\
    (get s (Move d i) = space \/ get s (Move d i) = label).
Proof.
  induction idx as [|i idx IH]; simpl.
  - split; auto. intros _ i [].
  - destruct (IsEdge d i) eqn:E.
    + split; [discriminate|]. intros H.
      destruct (H i (or_introl eq_refl)) as [H' _]. congruence.
    + destruct (Z.eqb_spec (get s (Move d i)) space) as [Es|Es]; simpl.
      * rewrite IH. split.
        -- intros H j [<-|Hj]; auto.
        -- intros H j Hj. apply H. now right.
      * destruct (Z.eqb_spec (get s (Move d i)) label) as [El|El]; simpl.
        -- rewrite IH. split.
           ++ intros H j [<-|Hj]; auto.
           ++ intros H j Hj. apply H. now right.
        -- split; [discriminate|]. intros H.
           destruct (H i (or_introl eq_refl)) as [_ [H'|H']]; congruence.
Qed.

Lemma feasible_spec s label d :
  feasible s label d = true <->
  forall i, i < length s -> get s i = label ->
    IsEdge d i = false /\
    (get s (Move d i) = space \/ get s (Move d i) = label).
Proof.
  unfold feasible. rewrite canmove_spec. split.
  - intros H i Hi Hl. apply H. now apply indices_of_In.
  - intros H i Hi. apply indices_of_In in Hi. now apply H.
Qed.

Lemma puts_length v ts : forall s, length (puts v ts s) = length s.
Proof.
  unfold puts. induction ts as [|t ts IH]; intros s; simpl; auto.
  rewrite IH. apply length_put.
Qed.

Lemma puts_get v ts : forall s j,
  get (puts v ts s) j =
  if existsb (Nat.eqb j) ts && (j <? length s) then v else get s j.
Proof.
  unfold puts. induction ts as [|t ts IH]; intros s j; simpl; auto.
  rewrite IH, length_put, get_put. rewrite (Nat.eqb_sym j t).
  destruct (Nat.eqb_spec t j) as [->|Hne]; simpl.
  - destruct (j <? length s); simpl.
    + now rewrite andb_true_r, Tauto.if_same.
    + now rewrite !andb_false_r.
  - reflexivity.
Qed.

Lemma slide_puts s label d idx :
  slide s label d idx = puts label (map (Move d) idx) (puts space idx s).
Proof.
  unfold slide, puts. generalize (fold_left (fun st i => put i space st) idx s).
  induction idx as [|i idx IH]; intros st; simpl; auto.
Qed.

Lemma slid_length s label d : length (slid s label d) = length s.
Proof. unfold slid. now rewrite slide_puts, !puts_length. Qed.

Lemma existsb_indices s label j :
  j < length s ->
  existsb (Nat.eqb j) (indices_of s label) = (get s j =? label)%Z.
Proof.
  intros Hj. apply eq_true_iff_eq. rewrite existsb_exists, Z.eqb_eq. split.
  - intros (i & Hi & E). apply Nat.eqb_eq in E. subst i.
    now apply indices_of_In in Hi.
  - intros E. exists j. split; [now apply indices_of_In|apply Nat.eqb_refl].
Qed.

Lemma existsb_shifted s label d j :
  length s = 20 -> feasible s label d = true -> j < 20 ->
  existsb (Nat.eqb j) (map (Move d) (indices_of s label)) = shifted s label d j.
Proof.
  intros Hlen Hf Hj. apply eq_true_iff_eq.
  rewrite existsb_exists. unfold shifted.
  rewrite andb_true_iff, negb_true_iff, Z.eqb_eq.
  rewrite feasible_spec in Hf. split.
  - intros (t & Ht & E). apply Nat.eqb_eq in E. subst t.
    apply in_map_iff in Ht. destruct Ht as (i & <- & Hi).
    apply indices_of_In in Hi. destruct Hi as [Hi Hl].
    destruct (Hf i Hi Hl) as [He _].
    destruct (Move_inside d i) as (_ & H1 & H2); [lia|exact He|].
    now rewrite H1, H2.
  - intros [He Hl].
    destruct (Move_inside (opposite d) j Hj He) as (H1 & _ & H2).
    rewrite opposite_involutive in H2.
    exists j. split; [|apply Nat.eqb_refl].
    apply in_map_iff. exists (Move (opposite d) j). split; [exact H2|].
    apply indices_of_In. split; [lia|exact Hl].
Qed.

(** The cells of the state built for a feasible slide. *)
Lemma slid_get s label d j :
  length s = 20 -> feasible s label d = true -> j < 20 ->
  get (slid s label d) j =
  if shifted s label d j then label
  else if (get s j =? label)%Z then space else get s j.
Proof.
  intros Hlen Hf Hj. unfold slid. rewrite slide_puts, !puts_get, puts_length.
  rewrite existsb_shifted, existsb_indices by (auto; lia).
  rewrite Hlen. destruct (Nat.ltb_spec j 20); [|lia].
  now rewrite !andb_true_r.
Qed.

(** ** A slide can be taken back *)

Lemma shifted_source s label d j :
  length s = 20 -> j < 20 -> shifted s label d j = true ->
  Move (opposite d) j < 20 /\ get s (Move (opposite d) j) = label /\
  Move d (Move (opposite d) j) = j.
Proof.
  intros Hlen Hj H. unfold shifted in H.
  apply andb_true_iff in H. destruct H as [He Hl].
  apply negb_true_iff in He. apply Z.eqb_eq in Hl.
  destruct (Move_inside (opposite d) j Hj He) as (H1 & _ & H2).
  rewrite opposite_involutive in H2. auto.
Qed.

Lemma shifted_target s label d i :
  length s = 20 -> feasible s label d = true -> i < 20 -> get s i = label ->
  Move d i < 20 /\ shifted s label d (Move d i) = true.
Proof.
  intros Hlen Hf Hi Hl. rewrite feasible_spec in Hf.
  destruct (Hf i) as [He _]; [lia|exact Hl|].
  destruct (Move_inside d i Hi He) as (H1 & H2 & H3).
  split; [exact H1|]. unfold shifted. rewrite H2, H3, Hl. simpl.
  apply Z.eqb_refl.
Qed.

Lemma slid_get_label s label d j :
  length s = 20 -> feasible s label d = true -> label <> space -> j < 20 ->
  (get (slid s label d) j = label <-> shifted s label d j = true).
Proof.
  intros Hlen Hf Hsp Hj. rewrite slid_get by assumption.
  destruct (shifted s label d j); [tauto|].
  destruct (Z.eqb_spec (get s j) label); split; congruence.
Qed.

Theorem slide_back s label d :
  length s = 20 -> label <> space -> feasible s label d = true ->
  feasible (slid s label d) label (opposite d) = true /\
  slid (slid s label d) label (opposite d) = s.
Proof.
  intros Hlen Hsp Hf.
  assert (Hlen' : length (slid s label d) = 20) by now rewrite slid_length.
  assert (Hback : feasible (slid s label d) label (opposite d) = true).
  { apply feasible_spec. rewrite Hlen'. intros i Hi Hl.
    apply slid_get_label in Hl; auto.
    destruct (shifted_source _ _ _ _ Hlen Hi Hl) as (H1 & H2 & H3).
    unfold shifted in Hl. apply andb_true_iff in Hl. destruct Hl as [He _].
    apply negb_true_iff in He. split; [exact He|].
    rewrite slid_get by assumption.
    destruct (shifted s label d (Move (opposite d) i)); [now right|].
    rewrite H2, Z.eqb_refl. now left. }
  split; [exact Hback|].
  apply state_ext; [now rewrite !slid_length|].
  rewrite slid_length, Hlen'. intros j Hj.
  rewrite slid_get by assumption.
  destruct (Z.eq_dec (get s j) label) as [E|E].
  - destruct (shifted_target _ _ _ _ Hlen Hf Hj E) as [H1 H2].
    assert (H3 : shifted (slid s label d) label (opposite d) j = true).
    { unfold shifted. rewrite opposite_involutive.
      pose proof (proj1 (feasible_spec _ _ _) Hf) as Hf'.
      destruct (Hf' j) as [He _]; [lia|exact E|].
      rewrite He. simpl. apply Z.eqb_eq. now apply slid_get_label. }
    now rewrite H3.
  - assert (H3 : shifted (slid s label d) label (opposite d) j = false).
    { unfold shifted. rewrite opposite_involutive.
      destruct (IsEdge d j) eqn:He; [reflexivity|]. simpl.
      destruct (Move_inside d j Hj He) as (H1 & H2 & H4).
      apply Z.eqb_neq. intros Hl. apply slid_get_label in Hl; auto.
      destruct (shifted_source _ _ _ _ Hlen H1 Hl) as (_ & H5 & _).
      rewrite H4 in H5. contradiction. }
    rewrite H3. rewrite slid_get by assumption.
    destruct (shifted s label d j) eqn:Hs.
    + rewrite Z.eqb_refl.
      destruct (shifted_source _ _ _ _ Hlen Hj Hs) as (H1 & H2 & H4).
      pose proof (proj1 (feasible_spec _ _ _) Hf) as Hf'.
      destruct (Hf' (Move (opposite d) j)) as [_ Hn]; [lia|exact H2|].
      rewrite H4 in Hn. destruct Hn; congruence.
    + destruct (Z.eqb_spec (get s j) label); [contradiction|].
      destruct (Z.eqb_spec (get s j) label); [contradiction|reflexivity].
Qed.

(** ** Slides commute with relabelings *)

Lemma put_map g i v s : put i (g v) (map g s) = map g (put i v s).
Proof.
  revert i. induction s as [|x s IH]; intros [|i]; simpl; auto. now rewrite IH.
Qed.

Lemma puts_map g v ts : forall s, puts (g v) ts (map g s) = map g (puts v ts s).
Proof.
  unfold puts. induction ts as [|t ts IH]; intros s; simpl; auto.
  now rewrite put_map, IH.
Qed.

Lemma indices_of_map g s label :
  (forall x y, g x = g y -> x = y) ->
  indices_of (map g s) (g label) = indices_of s label.
Proof.
  intros Hg. unfold indices_of. rewrite length_map.
  apply filter_ext_in. intros i Hi. apply in_seq in Hi.
  rewrite get_map by lia.
  destruct (Z.eqb_spec (g (get s i)) (g label)) as [E|E];
    destruct (Z.eqb_spec (get s i) label) as [E'|E']; auto.
  - apply Hg in E. contradiction.
  - subst. contradiction.
Qed.

Lemma slid_map g s label d :
  (forall x y, g x = g y -> x = y) -> g space = space ->
  slid (map g s) (g label) d = map g (slid s label d).
Proof.
  intros Hg Hs. unfold slid. rewrite indices_of_map by assumption.
  rewrite !slide_puts. rewrite <- Hs at 1. now rewrite !puts_map.
Qed.

Lemma feasible_map g s label d :
  length s = 20 -> (forall x y, g x = g y -> x = y) -> g space = space ->
  feasible s label d = true -> feasible (map g s) (g label) d = true.
Proof.
  intros Hlen Hg Hs Hf. rewrite feasible_spec in *. rewrite length_map.
  intros i Hi Hl. rewrite get_map in Hl by assumption. apply Hg in Hl.
  destruct (Hf i Hi Hl) as [He Hn]. split; [exact He|].
  destruct (Move_inside d i) as (H1 & _); [lia|exact He|].
  rewrite get_map by lia. destruct Hn as [-> | ->]; auto.
Qed.

Lemma uses_slid L s label d :
  length s = 20 -> uses L s -> In label L -> feasible s label d = true ->
  uses L (slid s label d).
Proof.
  intros Hlen Hu Hl Hf x Hx. apply In_get in Hx. destruct Hx as (j & Hj & <-).
  rewrite slid_length in Hj. rewrite slid_get by (auto; lia).
  destruct (shifted s label d j); [now right|].
  destruct (Z.eqb_spec (get s j) label); [now left|].
  apply Hu. apply get_In. lia.
Qed.

(** ** GatherLabels *)

Lemma sorted_set_increasing ls : sorted_set Z.compare ls <-> increasing ls.
Proof.
  (* [Z.lt x y] is [(x ?= y) = Lt] by definition *)
  split; intros H; exact H.
Qed.

Lemma Z_compare_lt_trans (x y z : Z) :
  (x ?= y)%Z = Lt -> (y ?= z)%Z = Lt -> (x ?= z)%Z = Lt.
Proof. apply Z_compare_trans. Qed.

Lemma gather_step_spec s : forall acc,
  let r := fold_left (fun labels c =>
                        if (c =? space)%Z then labels
                        else fst (set_insert Z.compare c labels)) s acc in
  (sorted_set Z.compare acc -> sorted_set Z.compare r) /\
  (forall x, In x r <-> In x acc \/ (In x s /\ x <> space)).
Proof.
  induction s as [|c s IH]; intros acc; simpl.
  - split; auto. intros x. tauto.
  - destruct (IH (if (c =? space)%Z then acc else fst (set_insert Z.compare c acc)))
      as [IHs IHi].
    split.
    + intros Hs. apply IHs. destruct (c =? space)%Z; auto.
      apply set_insert_sorted; auto.
      * exact Z.compare_eq_iff.
      * exact Z_compare_antisym.
      * exact Z_compare_lt_trans.
    + intros x. rewrite IHi. destruct (Z.eqb_spec c space) as [E|E].
      * split; [intros [H|[H1 H2]]; auto|intros [H|[[H|H] H2]]; auto]. congruence.
      * rewrite set_insert_In by exact Z.compare_eq_iff.
        split; [intros [[H|H]|[H1 H2]]|intros [H|[[H|H] H2]]]; subst; auto.
Qed.

Lemma GatherLabels_In s x : In x (GatherLabels s) <-> In x s /\ x <> space.
Proof.
  unfold GatherLabels. destruct (gather_step_spec s []) as [_ H].
  rewrite H. simpl. tauto.
Qed.

Lemma GatherLabels_label_set s : label_set (GatherLabels s).
Proof.
  split.
  - apply sorted_set_increasing. apply (gather_step_spec s []). constructor.
  - intros H. apply GatherLabels_In in H. now destruct H.
Qed.

Lemma GatherLabels_uses s : uses (GatherLabels s) s.
Proof.
  intros x Hx. destruct (Z.eq_dec x space); [now left|right].
  now apply GatherLabels_In.
Qed.

(** ** The puzzle graph *)

Lemma edge_good L a b : label_set L -> good L a -> edge L a b -> good L b.
Proof.
  intros HL (Hlen & Hu & _) (label & d & Hl & Hf & Hn).
  destruct (Normalize_canonical L _ b HL (uses_slid L a label d Hlen Hu Hl Hf) Hn)
    as (Hc & Hu' & Hlen').
  rewrite slid_length in Hlen'. repeat split; auto. congruence.
Qed.

Lemma slide_total L a label d :
  label_set L -> good L a -> In label L -> feasible a label d = true ->
  exists b, Normalize (slid a label d) L = Done b.
Proof.
  intros HL (Hlen & Hu & _) Hl Hf. apply Normalize_total; auto.
  now apply uses_slid.
Qed.

(** The block that was moved can be moved back, and the normal form of the
    result is the state the move started from. *)
Lemma edge_back L a b label d :
  label_set L -> good L a -> In label L -> feasible a label d = true ->
  Normalize (slid a label d) L = Done b ->
  exists label',
    In label' L /\
    (forall j, j < 20 -> (get b j = label' <-> get (slid a label d) j = label)) /\
    feasible b label' (opposite d) = true /\
    Normalize (slid b label' (opposite d)) L = Done a.
Proof.
  intros HL (Hlen & Hu & Hc) Hl Hf Hn.
  assert (Hsp : label <> space) by (intros ->; now apply (proj2 HL)).
  pose proof (uses_slid L a label d Hlen Hu Hl Hf) as Hu'.
  destruct (Normalize_shape L _ HL Hu') as (b' & g & Hn' & -> & Hg).
  rewrite Hn in Hn'. injection Hn' as ->.
  destruct Hg as (Hg1 & Hg2 & Hg3).
  assert (Hgs : g space = space) by (apply Hg1; apply HL).
  assert (Hlen' : length (slid a label d) = 20) by now rewrite slid_length.
  destruct (slide_back a label d Hlen Hsp Hf) as [Hb1 Hb2].
  exists (g label). split; [now apply Hg2|]. split; [|split].
  - intros j Hj. rewrite get_map by lia. split; [apply Hg3|congruence].
  - now apply feasible_map.
  - rewrite slid_map by assumption. rewrite Hb2.
    rewrite Normalize_relabel; auto.
    intros x Hx Hne. apply Hg2. destruct (Hu x Hx); [congruence|assumption].
Qed.

Lemma edge_sym L a b : label_set L -> good L a -> edge L a b -> edge L b a.
Proof.
  intros HL Ha (label & d & Hl & Hf & Hn).
  destruct (edge_back L a b label d HL Ha Hl Hf Hn) as (label' & H1 & _ & H2 & H3).
  now exists label', (opposite d).
Qed.

(** ** Sets and maps of states *)

Ltac by_State_compare lem :=
  apply lem;
  first [exact State_compare_eq | exact State_compare_antisym | exact State_compare_trans].

Lemma states_insert_In x y (s : list State) :
  In x (fst (set_insert State_compare y s)) <-> x = y \/ In x s.
Proof. by_State_compare set_insert_In. Qed.

Lemma states_insert_sorted x (s : list State) :
  sorted_set State_compare s -> sorted_set State_compare (fst (set_insert State_compare x s)).
Proof. by_State_compare set_insert_sorted. Qed.

Lemma states_NoDup (s : list State) : sorted_set State_compare s -> NoDup s.
Proof. by_State_compare sorted_set_NoDup. Qed.

Lemma find_In {V} k (v : V) m : map_find State_compare k m = Some v -> In (k, v) m.
Proof. by_State_compare map_find_In. Qed.

Lemma find_None {V} k (m : list (State * V)) :
  map_find State_compare k m = None <-> ~ In k (keys m).
Proof. by_State_compare map_find_None. Qed.

Lemma find_keys {V} k (m : list (State * V)) :
  In k (keys m) <-> exists v, map_find State_compare k m = Some v.
Proof. by_State_compare map_find_keys. Qed.

Lemma insert_keys {V} x k (v : V) m :
  In x (keys (fst (map_insert State_compare k v m))) <-> x = k \/ In x (keys m).
Proof. by_State_compare map_insert_keys. Qed.

Lemma insert_new {V} k (v : V) m :
  ~ In k (keys m) ->
  snd (map_insert State_compare k v m) = true /\
  Permutation (keys (fst (map_insert State_compare k v m))) (k :: keys m) /\
  forall x, map_find State_compare x (fst (map_insert State_compare k v m)) =
            match State_compare x k with
            | Eq => Some v
            | _ => map_find State_compare x m
            end.
Proof. by_State_compare map_insert_new. Qed.

Lemma insert_present {V} k (v : V) m :
  sorted_map State_compare m -> In k (keys m) ->
  map_insert State_compare k v m = (m, false).
Proof. by_State_compare map_insert_present. Qed.

Lemma insert_sorted {V} k (v : V) m :
  sorted_map State_compare m ->
  sorted_map State_compare (fst (map_insert State_compare k v m)).
Proof. by_State_compare map_insert_sorted. Qed.

Lemma adjust_find {V} (f : V -> V) k x m :
  map_find State_compare x (map_adjust State_compare f k m) =
  match State_compare x k with
  | Eq => option_map f (map_find State_compare k m)
  | _ => map_find State_compare x m
  end.
Proof. by_State_compare map_adjust_find. Qed.

Lemma State_compare_ne x y : x <> y -> State_compare x y <> Eq.
Proof. intros H E. apply State_compare_eq in E. contradiction. Qed.

Lemma find_insert_same {V} k (v : V) m :
  ~ In k (keys m) ->
  map_find State_compare k (fst (map_insert State_compare k v m)) = Some v.
Proof.
  intros H. destruct (insert_new k v m H) as (_ & _ & Hf).
  now rewrite Hf, State_compare_refl.
Qed.

Lemma find_insert_other {V} k (v : V) m x :
  ~ In k (keys m) -> x <> k ->
  map_find State_compare x (fst (map_insert State_compare k v m)) =
  map_find State_compare x m.
Proof.
  intros H Hx. destruct (insert_new k v m H) as (_ & _ & Hf).
  rewrite Hf. pose proof (State_compare_ne x k Hx).
  now destruct (State_compare x k).
Qed.

Lemma adjust_find_same {V} (f : V -> V) k m :
  map_find State_compare k (map_adjust State_compare f k m) =
  option_map f (map_find State_compare k m).
Proof. now rewrite adjust_find, State_compare_refl. Qed.

Lemma adjust_find_other {V} (f : V -> V) k m x :
  x <> k ->
  map_find State_compare x (map_adjust State_compare f k m) =
  map_find State_compare x m.
Proof.
  intros Hx. rewrite adjust_find. pose proof (State_compare_ne x k Hx).
  now destruct (State_compare x k).
Qed.

(** ** AddNeighbors: one round of the builder *)

Lemma foldM_invariant {A X : Type} (body : A -> X -> outcome A)
      (I : list X -> A -> Prop) (xs : list X) :
  (forall pre x a, In x xs -> I pre a ->
                   exists a', body a x = Done a' /\ I (pre ++ [x]) a') ->
  forall pre a, I pre a ->
  exists a', foldM body xs a = Done a' /\ I (pre ++ xs) a'.
Proof.
  induction xs as [|x xs IH]; intros Hbody pre a Ha; simpl.
  - exists a. now rewrite app_nil_r.
  - destruct (Hbody pre x a (or_introl eq_refl) Ha) as (a1 & -> & Ha1). simpl.
    destruct (IH (fun pre x a Hx => Hbody pre x a (or_intror Hx)) (pre ++ [x]) a1 Ha1)
      as (a2 & Hrun & Ha2).
    exists a2. split; [exact Hrun|]. now rewrite <- app_assoc in Ha2.
Qed.

Lemma produced_app L current ps p w :
  produced L current (ps ++ [p]) w <->
  produced L current ps w \/
  (feasible current (fst p) (snd p) = true /\
   Normalize (slid current (fst p) (snd p)) L = Done w).
Proof.
  unfold produced. split.
  - intros (q & Hq & H). apply in_app_iff in Hq. destruct Hq as [Hq|[<-|[]]].
    + left. now exists q.
    + now right.
  - intros [(q & Hq & H)|H].
    + exists q. split; [apply in_app_iff; now left|exact H].
    + exists p. split; [apply in_app_iff; right; now left|exact H].
Qed.

Lemma try_direction_expanding L current g rest ps acc label d :
  label_set L -> good L current -> In label L ->
  expanding L current g rest ps acc ->
  exists acc',
    try_direction L current label (indices_of current label) acc d = Done acc' /\
    expanding L current g rest (ps ++ [(label, d)]) acc'.
Proof.
  intros HL Hgood Hl [K1 K2 K3 K4 (ns & K5 & K5') K6 K7].
  destruct acc as [g' todo]. simpl in *.
  unfold try_direction. fold (feasible current label d).
  destruct (feasible current label d) eqn:Hf.
  - destruct (slide_total L current label d HL Hgood Hl Hf) as (b & Hb).
    fold (slid current label d). rewrite Hb. simpl.
    set (g'' := map_adjust State_compare
                  (fun nbrs => fst (set_insert State_compare b nbrs)) current g').
    assert (Hkeys : keys g'' = keys g') by apply map_adjust_keys.
    assert (Hprod : forall w, produced L current (ps ++ [(label, d)]) w <->
                              produced L current ps w \/ w = b).
    { intros w. rewrite produced_app. simpl. rewrite Hf, Hb.
      split; (intros [H|H]; [now left|right]).
      - destruct H as [_ H]. congruence.
      - subst. auto. }
    assert (Hshared : forall todo',
               sorted_set State_compare todo' ->
               (forall w, In w todo' <->
                          In w rest \/
                          (produced L current (ps ++ [(label, d)]) w /\
                           w <> current /\ ~ In w (keys g))) ->
               expanding L current g rest (ps ++ [(label, d)]) (g'', todo')).
    { intros todo' Hs Ht. constructor; simpl; rewrite ?Hkeys; auto.
      - unfold sorted_map. now rewrite Hkeys.
      - intros v Hv. unfold g''. rewrite adjust_find_other by assumption. auto.
      - exists (fst (set_insert State_compare b ns)). split.
        + unfold g''. now rewrite adjust_find_same, K5.
        + intros w. rewrite states_insert_In, Hprod, K5'. tauto. }
    destruct (map_find State_compare b g'') eqn:Hfind.
    + exists (g'', todo). split; [reflexivity|]. apply Hshared; auto.
      intros w. rewrite K7, Hprod.
      assert (Hb' : In b (keys g'')) by (apply find_keys; eauto).
      rewrite Hkeys in Hb'. apply K1 in Hb'.
      split; [tauto|]. intros [H|([H| ->] & H1 & H2)]; tauto.
    + exists (g'', fst (set_insert State_compare b todo)). split; [reflexivity|].
      apply Hshared; [now apply states_insert_sorted|].
      intros w. rewrite states_insert_In, K7, Hprod.
      apply find_None in Hfind. rewrite Hkeys in Hfind.
      assert (Hb' : b <> current /\ ~ In b (keys g)).
      { split; intros H; apply Hfind, K1; auto. }
      split; [intros [->|H]; tauto|tauto].
  - exists (g', todo). split; [reflexivity|].
    assert (Hprod : forall w, produced L current (ps ++ [(label, d)]) w <->
                              produced L current ps w).
    { intros w. rewrite produced_app. simpl. rewrite Hf.
      split; [intros [H|[H _]]; [exact H|discriminate]|auto]. }
    constructor; simpl; auto.
    + exists ns. split; [exact K5|]. intros w. now rewrite Hprod.
    + intros w. now rewrite Hprod.
Qed.

Lemma try_label_expanding L current g rest ls acc label :
  label_set L -> good L current -> In label L ->
  expanding L current g rest (pairs_of ls) acc ->
  exists acc',
    try_label L current acc label = Done acc' /\
    expanding L current g rest (pairs_of (ls ++ [label])) acc'.
Proof.
  intros HL Hgood Hl Hacc. unfold try_label.
  destruct (foldM_invariant
              (try_direction L current label (indices_of current label))
              (fun dd => expanding L current g rest (pairs_of ls ++ map (pair label) dd))
              directions) with (pre := @nil Direction) (a := acc)
    as (acc' & Hrun & Hacc').
  - intros pre d a _ Ha. rewrite map_app, app_assoc. simpl.
    now apply try_direction_expanding.
  - simpl. now rewrite app_nil_r.
  - exists acc'. split; [exact Hrun|].
    unfold pairs_of in *. rewrite flat_map_app. simpl in *. exact Hacc'.
Qed.

Lemma In_pairs_of ls label d : In (label, d) (pairs_of ls) <-> In label ls.
Proof.
  unfold pairs_of. rewrite in_flat_map. split.
  - intros (x & Hx & H). apply in_map_iff in H. destruct H as (d' & [= -> _] & _). exact Hx.
  - intros H. exists label. split; [exact H|]. apply in_map.
    destruct d; simpl; auto.
Qed.

Lemma produced_all L current w :
  produced L current (pairs_of L) w <-> edge L current w.
Proof.
  unfold produced, edge. split.
  - intros ([label d] & Hp & Hf & Hn). apply In_pairs_of in Hp. now exists label, d.
  - intros (label & d & Hl & Hf & Hn). exists (label, d).
    split; [now apply In_pairs_of|auto].
Qed.

(** One call of [AddNeighbors] on a non-empty work-set whose first state is
    not yet a vertex. *)
Lemma AddNeighbors_expanding L g current rest :
  label_set L -> good L current ->
  sorted_map State_compare g -> sorted_set State_compare (current :: rest) ->
  ~ In current (keys g) ->
  exists acc,
    AddNeighbors g (current :: rest) L = Done acc /\
    expanding L current g rest (pairs_of L) acc.
Proof.
  intros HL Hgood Hg Hs Hnew. unfold AddNeighbors.
  destruct (insert_new current (@nil State) g Hnew) as (Hfresh & Hperm & Hfind).
  pose proof (insert_sorted current (@nil State) g Hg) as Hsorted.
  pose proof (fun x => insert_keys x current (@nil State) g) as Hkeys.
  destruct (map_insert State_compare current [] g) as [g1 fresh]. simpl in *.
  subst fresh.
  destruct (foldM_invariant (try_label L current)
              (fun ls => expanding L current g rest (pairs_of ls)) L)
    with (pre := @nil char) (a := (g1, rest)) as (acc & Hrun & Hacc).
  - intros pre label a Hl Ha. now apply try_label_expanding.
  - constructor; simpl; auto.
    + intros v Hv. rewrite Hfind. pose proof (State_compare_ne v current Hv).
      now destruct (State_compare v current).
    + exists []. split.
      * now rewrite Hfind, State_compare_refl.
      * intros w. split; [intros []|intros (p & [] & _)].
    + now apply sorted_set_tail in Hs.
    + intros w. split; [now left|intros [H|((p & [] & _) & _)]; exact H].
  - exists acc. split; [exact Hrun|exact Hacc].
Qed.

(** ** GenerateGraph: the invariant of the work-set loop *)

Lemma builder_inv_start L init :
  good L init -> builder_inv L init [] [init].
Proof.
  intros Hgood. constructor; simpl.
  - intros v [[]|[<-|[]]]. split; [exact Hgood|constructor].
  - intros v [].
  - constructor.
  - repeat constructor.
  - intros v ns [=].
  - intros v ns w [=].
  - right. now left.
Qed.

Lemma AddNeighbors_inv L init g current rest :
  label_set L -> builder_inv L init g (current :: rest) ->
  exists g' todo',
    AddNeighbors g (current :: rest) L = Done (g', todo') /\
    builder_inv L init g' todo' /\
    Permutation (keys g') (current :: keys g).
Proof.
  intros HL [I1 I2 I3 I4 I5 I6 I7].
  destruct (I1 current) as [Hgood Hreach]; [right; now left|].
  assert (Hnew : ~ In current (keys g)).
  { intros H. apply (I2 _ H). now left. }
  destruct (AddNeighbors_expanding L g current rest HL Hgood I3 I4 Hnew)
    as ([g' todo'] & Hrun & [K1 K2 K3 K4 (ns0 & K5 & K5') K6 K7]).
  simpl in *. exists g', todo'. split; [exact Hrun|]. split; [|exact K2].
  assert (Hrest : ~ In current rest).
  { apply states_NoDup in I4. now inversion I4. }
  constructor.
  - intros v [Hv|Hv].
    + apply K1 in Hv. destruct Hv as [->|Hv]; auto.
    + apply K7 in Hv. destruct Hv as [Hv|(Hv & _)].
      * apply I1. right. now right.
      * apply produced_all in Hv. split.
        -- now apply edge_good with (a := current).
        -- now apply reach_step with (a := current).
  - intros v Hv Hin. apply K1 in Hv. apply K7 in Hin.
    destruct Hv as [->|Hv], Hin as [Hin|(_ & H1 & H2)]; auto.
    apply (I2 _ Hv). now right.
  - exact K3.
  - exact K6.
  - intros v ns Hfind w. destruct (State_eq_dec v current) as [->|Hne].
    + rewrite K5 in Hfind. injection Hfind as <-.
      now rewrite K5', produced_all.
    + rewrite K4 in Hfind by assumption. now apply I5.
  - intros v ns w Hfind Hw.
    destruct (in_dec State_eq_dec w (keys g')) as [Hk|Hk]; [now left|right].
    apply K7. destruct (State_eq_dec v current) as [->|Hne].
    + rewrite K5 in Hfind. injection Hfind as <-. apply K5' in Hw.
      right. split; [exact Hw|]. split; intros H; apply Hk, K1; auto.
    + rewrite K4 in Hfind by assumption.
      destruct (I6 v ns w Hfind Hw) as [H|[<-|H]].
      * exfalso. apply Hk, K1. auto.
      * exfalso. apply Hk, K1. auto.
      * now left.
  - destruct I7 as [H|[<-|H]].
    + left. apply K1. auto.
    + left. apply K1. auto.
    + right. apply K7. auto.
Qed.

Lemma GenerateGraph_loop_inv L init :
  label_set L ->
  forall fuel g todo g',
    builder_inv L init g todo ->
    GenerateGraph_loop fuel L g todo = Done g' ->
    builder_inv L init g' [].
Proof.
  intros HL. induction fuel as [|fuel IH]; intros g todo g' Hinv Hrun.
  - destruct todo; simpl in Hrun; [|discriminate]. now injection Hrun as <-.
  - destruct todo as [|current rest]; simpl in Hrun.
    + now injection Hrun as <-.
    + destruct (AddNeighbors_inv L init g current rest HL Hinv)
        as (g1 & todo1 & Hstep & Hinv1 & _).
      change (bind (AddNeighbors g (current :: rest) L)
                   (fun st => GenerateGraph_loop fuel L (fst st) (snd st)) = Done g')
        in Hrun.
      rewrite Hstep in Hrun. simpl in Hrun. eapply IH; eauto.
Qed.

(** *** Termination: there are finitely many states over a label set *)

Lemma all_states_In n alphabet : forall s,
  length s = n -> (forall x, In x s -> In x alphabet) -> In s (all_states n alphabet).
Proof.
  induction n as [|n IH]; intros [|x s] Hlen Hin; simpl in *; try discriminate.
  - now left.
  - apply in_flat_map. exists x. split; [apply Hin; now left|].
    apply in_map. apply IH; [lia|]. intros y Hy. apply Hin. now right.
Qed.

Lemma flat_map_constant_length {A B : Type} (f : A -> list B) c l :
  (forall x, length (f x) = c) -> length (flat_map f l) = length l * c.
Proof.
  intros H. induction l as [|x l IH]; simpl; auto.
  now rewrite length_app, H, IH.
Qed.

Lemma all_states_length n alphabet :
  length (all_states n alphabet) = length alphabet ^ n.
Proof.
  induction n as [|n IH]; simpl; auto.
  rewrite flat_map_constant_length with (c := length alphabet ^ n).
  - reflexivity.
  - intros x. now rewrite length_map.
Qed.

Lemma good_states_bounded L (l : list State) :
  NoDup l -> (forall v, In v l -> good L v) -> length l <= state_bound L.
Proof.
  intros Hnd Hgood. unfold state_bound.
  change (S (length L)) with (length (space :: L)).
  rewrite <- all_states_length. apply NoDup_incl_length; [exact Hnd|].
  intros v Hv. destruct (Hgood v Hv) as (Hlen & Hu & _).
  apply all_states_In; [exact Hlen|].
  intros x Hx. destruct (Hu x Hx) as [->|H]; [now left|now right].
Qed.

Lemma builder_inv_NoDup L init g todo :
  builder_inv L init g todo -> NoDup (keys g).
Proof. intros H. apply states_NoDup. apply H. Qed.

Lemma GenerateGraph_loop_terminates L init :
  label_set L ->
  forall fuel g todo,
    builder_inv L init g todo -> state_bound L <= length g + fuel ->
    exists g', GenerateGraph_loop fuel L g todo = Done g'.
Proof.
  intros HL. induction fuel as [|fuel IH]; intros g todo Hinv Hfuel;
    (destruct todo as [|current rest]; [now exists g|]).
  - exfalso.
    assert (Hb : length (current :: keys g) <= state_bound L).
    { apply good_states_bounded.
      - constructor; [|now apply builder_inv_NoDup in Hinv].
        intros H. apply (inv_disjoint _ _ _ _ Hinv _ H). now left.
      - intros v [<-|Hv]; apply (inv_good _ _ _ _ Hinv); auto.
        right. now left. }
    simpl in Hb. unfold keys in Hb. rewrite length_map in Hb. lia.
  - destruct (AddNeighbors_inv L init g current rest HL Hinv)
      as (g1 & todo1 & Hstep & Hinv1 & Hperm).
    change (exists g', bind (AddNeighbors g (current :: rest) L)
                   (fun st => GenerateGraph_loop fuel L (fst st) (snd st)) = Done g').
    rewrite Hstep. simpl. apply IH; [exact Hinv1|].
    apply Permutation_length in Hperm. simpl in Hperm.
    unfold keys in Hperm. rewrite !length_map in Hperm. lia.
Qed.

(** *** GenerateGraph *)

Lemma GenerateGraph_start initial :
  length initial = 20 ->
  exists init,
    Normalize initial (GatherLabels initial) = Done init /\
    good (GatherLabels initial) init.
Proof.
  intros Hlen.
  destruct (Normalize_total _ initial (GatherLabels_label_set initial)
                            (GatherLabels_uses initial)) as (init & Hn).
  exists init. split; [exact Hn|].
  destruct (Normalize_canonical _ _ _ (GatherLabels_label_set initial)
                                (GatherLabels_uses initial) Hn) as (H1 & H2 & H3).
  repeat split; auto. congruence.
Qed.

Theorem GenerateGraph_inv fuel initial g :
  length initial = 20 -> GenerateGraph fuel initial = Done g ->
  exists init,
    Normalize initial (GatherLabels initial) = Done init /\
    builder_inv (GatherLabels initial) init g [].
Proof.
  intros Hlen Hrun. destruct (GenerateGraph_start initial Hlen) as (init & Hn & Hgood).
  exists init. split; [exact Hn|].
  unfold GenerateGraph in Hrun. rewrite Hn in Hrun. simpl in Hrun.
  eapply GenerateGraph_loop_inv; eauto.
  - apply GatherLabels_label_set.
  - now apply builder_inv_start.
Qed.

Theorem GenerateGraph_terminates fuel initial :
  length initial = 20 -> state_bound (GatherLabels initial) <= fuel ->
  exists g, GenerateGraph fuel initial = Done g.
Proof.
  intros Hlen Hfuel. destruct (GenerateGraph_start initial Hlen) as (init & Hn & Hgood).
  unfold GenerateGraph. rewrite Hn. simpl.
  apply GenerateGraph_loop_terminates with (init := init).
  - apply GatherLabels_label_set.
  - now apply builder_inv_start.
  - simpl. exact Hfuel.
Qed.

Lemma GenerateGraph_loop_outcome L init :
  label_set L ->
  forall fuel g todo,
    builder_inv L init g todo ->
    GenerateGraph_loop fuel L g todo = OutOfFuel \/
    exists g', GenerateGraph_loop fuel L g todo = Done g'.
Proof.
  intros HL. induction fuel as [|fuel IH]; intros g todo Hinv;
    (destruct todo as [|current rest]; [right; now exists g|]).
  - now left.
  - destruct (AddNeighbors_inv L init g current rest HL Hinv)
      as (g1 & todo1 & Hstep & Hinv1 & _).
    change (GenerateGraph_loop (S fuel) L g (current :: rest))
      with (bind (AddNeighbors g (current :: rest) L)
                 (fun st => GenerateGraph_loop fuel L (fst st) (snd st))).
    rewrite Hstep. simpl. now apply IH.
Qed.

(** [GenerateGraph] neither fails an assertion nor dereferences an end
    iterator. *)
Lemma GenerateGraph_outcome fuel initial :
  length initial = 20 ->
  GenerateGraph fuel initial = OutOfFuel \/
  exists g, GenerateGraph fuel initial = Done g.
Proof.
  intros Hlen. destruct (GenerateGraph_start initial Hlen) as (init & Hn & Hgood).
  unfold GenerateGraph. rewrite Hn. simpl.
  apply GenerateGraph_loop_outcome with (init := init).
  - apply GatherLabels_label_set.
  - now apply builder_inv_start.
Qed.

(** ** Solve: breadth-first search from the solved states *)

Lemma set_level_same lev w n : set_level lev w n w = n.
Proof. unfold set_level. now rewrite State_compare_refl. Qed.

Lemma set_level_other lev w n x : x <> w -> set_level lev w n x = lev x.
Proof.
  intros H. unfold set_level. pose proof (State_compare_ne x w H).
  now destruct (State_compare x w).
Qed.

Lemma StronglySorted_snoc {A} (R : A -> A -> Prop) q w :
  StronglySorted R q -> (forall v, In v q -> R v w) -> StronglySorted R (q ++ [w]).
Proof.
  induction 1 as [|x q Hq IH Hx]; intros Hw; simpl.
  - repeat constructor.
  - constructor.
    + apply IH. intros v Hv. apply Hw. now right.
    + rewrite Forall_forall in *. intros y Hy. apply in_app_iff in Hy.
      destruct Hy as [Hy|[<-|[]]]; [now apply Hx|]. apply Hw. now left.
Qed.

Lemma StronglySorted_change {A} (R R' : A -> A -> Prop) q :
  (forall a b, In a q -> In b q -> R a b -> R' a b) ->
  StronglySorted R q -> StronglySorted R' q.
Proof.
  intros H Hs. induction Hs as [|x q Hq IH Hx]; constructor.
  - apply IH. intros a b Ha Hb. apply H; now right.
  - rewrite Forall_forall in *. intros y Hy. apply H; [now left|now right|auto].
Qed.

Lemma length_keys {V} (m : list (State * V)) : length (keys m) = length m.
Proof. apply length_map. Qed.

Lemma sorted_map_NoDup {V} (m : list (State * V)) :
  sorted_map State_compare m -> NoDup (keys m).
Proof. apply states_NoDup. Qed.

Lemma bfs_keys_in_graph g fuel sol queue lev v :
  bfs_inv g fuel sol queue lev -> In v (keys sol) -> In v (keys g).
Proof.
  intros H Hv. apply find_keys in Hv. destruct Hv as (p & Hp).
  apply (bfs_forest _ _ _ _ _ H) in Hp. apply Hp.
Qed.

Lemma bfs_size g fuel sol queue lev :
  bfs_inv g fuel sol queue lev -> length sol <= length g.
Proof.
  intros H. rewrite <- !length_keys. apply NoDup_incl_length.
  - apply sorted_map_NoDup, H.
  - intros v Hv. eapply bfs_keys_in_graph; eauto.
Qed.

Lemma visit_inv g fuel sol h t lev w :
  closed_graph g -> bfs_inv g fuel sol (h :: t) lev -> adj g h w ->
  exists sol' t' lev',
    visit h (sol, h :: t) w = (sol', h :: t') /\
    bfs_inv g fuel sol' (h :: t') lev' /\
    In w (keys sol') /\
    (forall v, In v (keys sol) -> In v (keys sol')).
Proof.
  intros Hclosed Hinv Hadj. unfold visit.
  destruct (in_dec State_eq_dec w (keys sol)) as [Hold|Hnew].
  - rewrite insert_present by (auto; apply Hinv).
    exists sol, t, lev. auto.
  - destruct (insert_new w h sol Hnew) as (Hfresh & Hperm & Hfind).
    pose proof (insert_sorted w h sol (bfs_sorted _ _ _ _ _ Hinv)) as Hsorted.
    pose proof (fun x => insert_keys x w h sol) as Hkeys.
    destruct (map_insert State_compare w h sol) as [sol' fresh]. simpl in *.
    subst fresh.
    assert (Hh : In h (keys sol)) by (apply (bfs_queue _ _ _ _ _ Hinv); now left).
    assert (Hhw : h <> w) by congruence.
    assert (Hfind_w : map_find State_compare w sol' = Some h).
    { now rewrite Hfind, State_compare_refl. }
    assert (Hfind_o : forall x, x <> w ->
               map_find State_compare x sol' = map_find State_compare x sol).
    { intros x Hx. rewrite Hfind. pose proof (State_compare_ne x w Hx).
      now destruct (State_compare x w). }
    set (lev' := set_level lev w (S (lev h))).
    assert (Hlev : forall x, In x (keys sol) -> lev' x = lev x).
    { intros x Hx. apply set_level_other. congruence. }
    assert (Hlevw : lev' w = S (lev h)) by apply set_level_same.
    exists sol', (t ++ [w]), lev'. split; [reflexivity|]. split; [|split].
    + constructor.
      * exact Hsorted.
      * intros v p Hv. destruct (State_eq_dec v w) as [->|Hne].
        -- rewrite Hfind_w in Hv. injection Hv as <-.
           split; [now apply Hclosed with (v := h)|]. right.
           split; [|split; [exact Hadj|split]].
           ++ destruct (IsSolved w) eqn:Hs; [|reflexivity]. exfalso. apply Hnew.
              apply find_keys. exists w. apply (bfs_goals _ _ _ _ _ Hinv); auto.
              now apply Hclosed with (v := h).
           ++ apply Hkeys. now right.
           ++ now rewrite Hlevw, Hlev.
        -- rewrite Hfind_o in Hv by assumption.
           assert (Hvk : In v (keys sol)) by (apply find_keys; eauto).
           destruct (bfs_forest _ _ _ _ _ Hinv v p Hv) as [Hg Hcase].
           split; [exact Hg|]. rewrite Hlev by assumption.
           destruct Hcase as [H1|(H1 & H2 & H3 & H4)]; [now left|right].
           repeat split; auto.
           ++ apply Hkeys. now right.
           ++ now rewrite Hlev.
      * intros v Hv Hs. rewrite Hfind_o; [now apply (bfs_goals _ _ _ _ _ Hinv)|].
        intros ->. apply Hnew. apply find_keys. exists w.
        now apply (bfs_goals _ _ _ _ _ Hinv).
      * intros v Hv. apply Hkeys. change (In v ((h :: t) ++ [w])) in Hv.
        apply in_app_iff in Hv. destruct Hv as [Hv|[<-|[]]]; [right|now left].
        now apply (bfs_queue _ _ _ _ _ Hinv).
      * change (StronglySorted (fun a b => lev' a <= lev' b) ((h :: t) ++ [w])).
        apply StronglySorted_snoc.
        -- apply StronglySorted_change with (R := fun a b => lev a <= lev b);
             [|apply Hinv].
           intros a b Ha Hb. rewrite !Hlev by now apply (bfs_queue _ _ _ _ _ Hinv).
           auto.
        -- intros v Hv. apply (bfs_queue _ _ _ _ _ Hinv) in Hv.
           rewrite Hlevw, Hlev by assumption.
           now apply (bfs_spread _ _ _ _ _ Hinv h t v).
      * intros h0 t0 v [= <- <-] Hv. rewrite (Hlev h) by assumption.
        apply Hkeys in Hv. destruct Hv as [->|Hv].
        -- rewrite Hlevw. split; [lia|]. intros Hn. exfalso. apply Hn.
           right. apply in_app_iff. right. now left.
        -- rewrite Hlev by assumption.
           destruct (bfs_spread _ _ _ _ _ Hinv h t v eq_refl Hv) as [H1 H2].
           split; [exact H1|]. intros Hn. apply H2. intros Hin. apply Hn.
           change (In v ((h :: t) ++ [w])). apply in_app_iff. now left.
      * intros v u Hv Hq Hvu. apply Hkeys in Hv. destruct Hv as [->|Hv].
        { exfalso. apply Hq. right. apply in_app_iff. right. now left. }
        assert (Hq' : ~ In v (h :: t)).
        { intros Hin. apply Hq. change (In v ((h :: t) ++ [w])).
          apply in_app_iff. now left. }
        destruct (bfs_done _ _ _ _ _ Hinv v u Hv Hq' Hvu) as [H1 H2].
        split; [apply Hkeys; now right|]. now rewrite !Hlev.
      * pose proof (bfs_fuel _ _ _ _ _ Hinv) as Hf.
        apply Permutation_length in Hperm. cbn [length] in Hperm.
        rewrite !length_keys in Hperm.
        cbn [length] in *. rewrite length_app. cbn [length]. lia.
    + apply Hkeys. now left.
    + intros v Hv. apply Hkeys. now right.
Qed.

Lemma visit_all g fuel h : closed_graph g ->
  forall nbrs sol t lev,
    (forall w, In w nbrs -> adj g h w) ->
    bfs_inv g fuel sol (h :: t) lev ->
    exists sol' t' lev',
      fold_left (visit h) nbrs (sol, h :: t) = (sol', h :: t') /\
      bfs_inv g fuel sol' (h :: t') lev' /\
      (forall w, In w nbrs -> In w (keys sol')) /\
      (forall v, In v (keys sol) -> In v (keys sol')).
Proof.
  intros Hclosed. induction nbrs as [|w nbrs IH]; intros sol t lev Hadj Hinv.
  - exists sol, t, lev. simpl. split; [reflexivity|]. split; [exact Hinv|].
    split; [intros w []|auto].
  - destruct (visit_inv g fuel sol h t lev w Hclosed Hinv (Hadj w (or_introl eq_refl)))
      as (sol1 & t1 & lev1 & Hv & Hinv1 & Hw & Hmono).
    destruct (IH sol1 t1 lev1 (fun x Hx => Hadj x (or_intror Hx)) Hinv1)
      as (sol2 & t2 & lev2 & Hrun & Hinv2 & Hall & Hmono2).
    exists sol2, t2, lev2. cbn [fold_left]. rewrite Hv. split; [exact Hrun|].
    split; [exact Hinv2|]. split; [|auto].
    intros x [<-|Hx]; auto.
Qed.

Lemma bfs_pop g fuel sol h t lev :
  bfs_inv g (S fuel) sol (h :: t) lev ->
  (forall w, adj g h w -> In w (keys sol)) ->
  bfs_inv g fuel sol t lev.
Proof.
  intros Hinv Hall.
  pose proof (bfs_levels _ _ _ _ _ Hinv) as Hsorted.
  inversion Hsorted as [|? ? Hsorted_t Hhead]; subst.
  rewrite Forall_forall in Hhead.
  constructor; try apply Hinv.
  - intros v Hv. apply (bfs_queue _ _ _ _ _ Hinv). now right.
  - exact Hsorted_t.
  - intros h' t' v -> Hv.
    assert (Hh' : lev h <= lev h') by (apply Hhead; now left).
    destruct (bfs_spread _ _ _ _ _ Hinv h (h' :: t') v eq_refl Hv) as [H1 H2].
    split; [lia|]. intros Hn.
    destruct (State_eq_dec v h) as [->|Hne]; [exact Hh'|].
    assert (lev v <= lev h); [|lia]. apply H2. intros [E|Hin]; auto.
  - intros v w Hv Hq Hvw. destruct (State_eq_dec v h) as [->|Hne].
    + assert (Hw : In w (keys sol)) by auto. split; [exact Hw|].
      now apply (bfs_spread _ _ _ _ _ Hinv h t w).
    + apply (bfs_done _ _ _ _ _ Hinv); auto.
      intros [E|Hin]; auto.
  - pose proof (bfs_fuel _ _ _ _ _ Hinv) as Hf. simpl in Hf. lia.
Qed.

Lemma Solve_loop_enough_fuel g : closed_graph g ->
  forall fuel sol queue lev,
    bfs_inv g fuel sol queue lev ->
    exists sol' lev' fuel',
      Solve_loop fuel g sol queue = Done sol' /\ bfs_inv g fuel' sol' [] lev'.
Proof.
  intros Hclosed. induction fuel as [|fuel IH]; intros sol queue lev Hinv.
  - destruct queue as [|h t].
    + exists sol, lev, 0. split; [reflexivity|exact Hinv].
    + exfalso. pose proof (bfs_fuel _ _ _ _ _ Hinv) as Hf.
      pose proof (bfs_size _ _ _ _ _ Hinv). simpl in Hf. lia.
  - destruct queue as [|h t].
    + exists sol, lev, (S fuel). split; [reflexivity|exact Hinv].
    + assert (Hh : In h (keys g)).
      { eapply bfs_keys_in_graph; eauto. apply (bfs_queue _ _ _ _ _ Hinv). now left. }
      apply find_keys in Hh. destruct Hh as (nbrs & Hnbrs).
      simpl. rewrite Hnbrs.
      destruct (visit_all g (S fuel) h Hclosed nbrs sol t lev) as
        (sol1 & t1 & lev1 & Hrun & Hinv1 & Hall & _); auto.
      { intros w Hw. now exists nbrs. }
      rewrite Hrun. simpl. apply IH with (lev := lev1).
      apply bfs_pop with (h := h); auto.
      intros w (ns & Hns & Hw). rewrite Hnbrs in Hns. injection Hns as <-. auto.
Qed.

(** *** The seeding loop *)

Lemma foldM_prefix_invariant {A X : Type} (body : A -> X -> outcome A)
      (I : list X -> A -> Prop) (all : list X) :
  (forall pre x post a, all = pre ++ x :: post -> I pre a ->
                        exists a', body a x = Done a' /\ I (pre ++ [x]) a') ->
  forall xs pre a, all = pre ++ xs -> I pre a ->
  exists a', foldM body xs a = Done a' /\ I all a'.
Proof.
  intros Hbody. induction xs as [|x xs IH]; intros pre a Hall Ha; simpl.
  - exists a. rewrite app_nil_r in Hall. now subst.
  - destruct (Hbody pre x xs a Hall Ha) as (a1 & -> & Ha1). simpl.
    apply IH with (pre := pre ++ [x]); [|exact Ha1].
    now rewrite <- app_assoc.
Qed.

Lemma keys_app {V} (a b : list (State * V)) : keys (a ++ b) = keys a ++ keys b.
Proof. apply map_app. Qed.

Lemma seed_step g pre x post acc :
  NoDup (keys g) -> g = pre ++ x :: post -> seeded pre acc ->
  exists acc', seed acc x = Done acc' /\ seeded (pre ++ [x]) acc'.
Proof.
  intros Hnd Hg [S1 S2 S3 S4 S5]. destruct acc as [sol queue], x as [k ns].
  simpl in *. unfold seed. simpl.
  assert (Hk : ~ In k (keys pre)).
  { subst g. rewrite keys_app in Hnd. simpl in Hnd.
    apply NoDup_remove_2 in Hnd. intros H. apply Hnd. apply in_app_iff. now left. }
  assert (Hpre : keys (pre ++ [(k, ns)]) = keys pre ++ [k]) by apply keys_app.
  destruct (IsSolved k) eqn:Hs.
  - assert (Hnew : ~ In k (keys sol)).
    { intros H. apply find_keys in H. destruct H as (p & Hp).
      apply S2 in Hp. tauto. }
    destruct (insert_new k k sol Hnew) as (Hfresh & Hperm & Hfind).
    pose proof (insert_sorted k k sol S1) as Hsorted.
    pose proof (fun x => insert_keys x k k sol) as Hkeys.
    destruct (map_insert State_compare k k sol) as [sol' fresh]. simpl in *.
    subst fresh. exists (sol', queue ++ [k]). split; [reflexivity|].
    constructor; simpl; rewrite ?Hpre.
    + exact Hsorted.
    + intros v p. rewrite Hfind. destruct (State_compare v k) eqn:E.
      * apply State_compare_eq in E. subst v. intros [= <-].
        repeat split; auto. apply in_app_iff. right. now left.
      * intros H. apply S2 in H. rewrite in_app_iff. tauto.
      * intros H. apply S2 in H. rewrite in_app_iff. tauto.
    + intros v Hv Hsv. rewrite Hfind. destruct (State_compare v k) eqn:E.
      * apply State_compare_eq in E. now subst.
      * apply S3; auto. apply in_app_iff in Hv. destruct Hv as [Hv|[<-|[]]]; auto.
        rewrite State_compare_refl in E. discriminate.
      * apply S3; auto. apply in_app_iff in Hv. destruct Hv as [Hv|[<-|[]]]; auto.
        rewrite State_compare_refl in E. discriminate.
    + intros v. rewrite in_app_iff, Hkeys, S4. simpl. intuition.
    + apply Permutation_length in Hperm. cbn [length] in Hperm.
      rewrite !length_keys in Hperm. rewrite length_app. simpl. lia.
  - exists (sol, queue). split; [reflexivity|].
    constructor; simpl; rewrite ?Hpre; auto.
    + intros v p H. apply S2 in H. rewrite in_app_iff. tauto.
    + intros v Hv Hsv. apply S3; auto.
      apply in_app_iff in Hv. destruct Hv as [Hv|[<-|[]]]; auto. congruence.
Qed.

Lemma seeded_start : seeded [] ([], []).
Proof.
  constructor; simpl.
  - constructor.
  - intros v p [=].
  - intros v [].
  - tauto.
  - reflexivity.
Qed.

Lemma StronglySorted_total {A} (R : A -> A -> Prop) q :
  (forall a b, R a b) -> StronglySorted R q.
Proof.
  intros H. induction q; constructor; auto. apply Forall_forall. auto.
Qed.

Lemma seeded_bfs g sol queue :
  seeded g (sol, queue) -> bfs_inv g (length g) sol queue (fun _ => 0).
Proof.
  intros [S1 S2 S3 S4 S5]. simpl in *. constructor; auto.
  - intros v p H. apply S2 in H. destruct H as (-> & H1 & H2).
    split; [exact H2|]. left. auto.
  - intros v Hv. now apply S4.
  - apply StronglySorted_total. auto.
  - intros v w Hv Hq. exfalso. apply Hq. now apply S4.
  - lia.
Qed.

(** *** What [Solve] returns *)

Theorem Solve_spec g :
  sorted_map State_compare g -> closed_graph g ->
  Solve g = AssertFailed \/
  exists sol lev, Solve g = Done sol /\ solved_by g sol lev.
Proof.
  intros Hsorted Hclosed. unfold Solve.
  destruct (foldM_prefix_invariant seed seeded g) with (xs := g) (pre := @nil (State * list State)) (a := (@nil (State * State), @nil State))
    as ([sol0 queue0] & Hseed & Hseeded).
  - intros pre x post a Hg Ha. eapply seed_step; eauto. now apply sorted_map_NoDup.
  - reflexivity.
  - exact seeded_start.
  - rewrite Hseed. simpl.
    destruct (Solve_loop_enough_fuel g Hclosed (length g) sol0 queue0 (fun _ => 0))
      as (sol & lev & fuel' & Hrun & Hinv); [now apply seeded_bfs|].
    rewrite Hrun. simpl.
    destruct (Nat.eqb_spec (length sol) (length g)) as [Hlen|Hlen]; [right|now left].
    exists sol, lev. split; [reflexivity|].
    assert (Hkeys : forall v, In v (keys sol) <-> In v (keys g)).
    { intros v. split; [eapply bfs_keys_in_graph; eauto|].
      revert v. apply NoDup_length_incl.
      - apply sorted_map_NoDup, Hinv.
      - rewrite !length_keys. lia.
      - intros v. eapply bfs_keys_in_graph; eauto. }
    constructor; auto; try apply Hinv.
    intros v w Hv Hvw. apply (bfs_done _ _ _ _ _ Hinv v w); auto.
    now apply Hkeys.
Qed.

Lemma Solve_Done g sol :
  sorted_map State_compare g -> closed_graph g -> Solve g = Done sol ->
  exists lev, solved_by g sol lev.
Proof.
  intros Hs Hc Hrun. destruct (Solve_spec g Hs Hc) as [H|(sol' & lev & H & Hsol)].
  - congruence.
  - exists lev. congruence.
Qed.

(** *** Following the map *)

Section Solved.
Variables (g : Graph) (sol : Solution) (lev : State -> nat).
Hypothesis Hclosed : closed_graph g.
Hypothesis Hsym : symmetric_graph g.
Hypothesis Hsol : solved_by g sol lev.

Lemma solved_entry v :
  In v (keys g) ->
  exists p, map_find State_compare v sol = Some p /\ entry_ok g sol lev v p.
Proof.
  intros Hv. apply (sol_keys _ _ _ Hsol) in Hv. apply find_keys in Hv.
  destruct Hv as (p & Hp). exists p. split; [exact Hp|].
  now apply (sol_forest _ _ _ Hsol).
Qed.

Lemma solved_goal_level v :
  In v (keys g) -> IsSolved v = true -> lev v = 0.
Proof.
  intros Hv Hs. pose proof (sol_goals _ _ _ Hsol v Hv Hs) as Hf.
  apply (sol_forest _ _ _ Hsol) in Hf.
  destruct Hf as [_ [(_ & _ & H)|(H & _)]]; congruence.
Qed.

Lemma follow_level n : forall v,
  In v (keys g) -> lev v = n ->
  exists goal,
    follow sol n v = Some goal /\ IsSolved goal = true /\
    map_find State_compare goal sol = Some goal /\ walk g v goal n /\
    forall k, k < n -> exists u, follow sol k v = Some u /\ IsSolved u = false.
Proof.
  induction n as [|n IH]; intros v Hv Hn;
    destruct (solved_entry v Hv) as (p & Hp & _ & [(<- & Hs & Hl)|(Hs & Hadj & Hpk & Hl)]);
    try lia.
  - exists v. simpl. repeat split; auto; [constructor|]. intros k Hk. lia.
  - assert (Hpg : In p (keys g)) by now apply (sol_keys _ _ _ Hsol).
    destruct (IH p Hpg) as (goal & Hf & Hgs & Hgm & Hw & Hbefore); [lia|].
    exists goal. simpl. rewrite Hp. repeat split; auto.
    + apply walk_step with (u := p); auto.
    + intros [|k] Hk.
      * exists v. now split.
      * simpl. rewrite Hp. apply Hbefore. lia.
Qed.

Lemma walk_in_graph v w n : walk g v w n -> In v (keys g) -> In w (keys g).
Proof.
  induction 1 as [|v u w n Hvu Hw IH]; auto. intros Hv. apply IH.
  now apply Hclosed with (v := v).
Qed.

Lemma level_lower_bound v goal m :
  walk g v goal m -> In v (keys g) -> IsSolved goal = true -> lev v <= m.
Proof.
  induction 1 as [v|v u w n Hvu Hw IH]; intros Hv Hs.
  - rewrite solved_goal_level; auto.
  - assert (Hu : In u (keys g)) by now apply Hclosed with (v := v).
    specialize (IH Hu Hs).
    pose proof (sol_levels _ _ _ Hsol u v Hu (Hsym _ _ Hvu)). lia.
Qed.

Lemma level_is_distance v : In v (keys g) -> distance_to_goal g v (lev v).
Proof.
  intros Hv. split.
  - destruct (follow_level (lev v) v Hv eq_refl) as (goal & _ & Hs & _ & Hw & _).
    now exists goal.
  - intros m goal Hs Hw. now apply level_lower_bound with (goal := goal).
Qed.

Lemma solved_next v :
  In v (keys g) -> IsSolved v = false ->
  exists p, map_find State_compare v sol = Some p /\ adj g v p /\ p <> v.
Proof.
  intros Hv Hs.
  destruct (solved_entry v Hv) as (p & Hp & _ & [(_ & Hs' & _)|(_ & Hadj & _ & Hl)]);
    [congruence|].
  exists p. repeat split; auto. intros ->. lia.
Qed.

Lemma solved_self v :
  map_find State_compare v sol = Some v -> IsSolved v = true.
Proof.
  intros Hf. apply (sol_forest _ _ _ Hsol) in Hf.
  destruct Hf as [_ [(_ & H & _)|(_ & _ & _ & H)]]; [exact H|lia].
Qed.

End Solved.

(** ** The graph that GenerateGraph returns *)

Lemma builder_run_loop fuel L : forall g todo g',
  GenerateGraph_loop fuel L g todo = Done g' <->
  builder_run fuel L g todo = Done (g', []).
Proof.
  induction fuel as [|fuel IH]; intros g todo g'.
  - destruct todo; simpl; split; intros [=]; subst; reflexivity.
  - destruct todo as [|current rest].
    + simpl. split; intros [=]; subst; reflexivity.
    + change (GenerateGraph_loop (S fuel) L g (current :: rest))
        with (bind (AddNeighbors g (current :: rest) L)
                   (fun st => GenerateGraph_loop fuel L (fst st) (snd st))).
      change (builder_run (S fuel) L g (current :: rest))
        with (bind (AddNeighbors g (current :: rest) L)
                   (fun st => builder_run fuel L (fst st) (snd st))).
      destruct (AddNeighbors g (current :: rest) L) as [[g1 todo1]| | |]; simpl;
        [apply IH| | |]; split; discriminate.
Qed.

Lemma builder_run_inv L init : label_set L ->
  forall n g todo,
    builder_inv L init g todo ->
    exists g' todo',
      builder_run n L g todo = Done (g', todo') /\ builder_inv L init g' todo'.
Proof.
  intros HL. induction n as [|n IH]; intros g todo Hinv.
  - exists g, todo. now destruct todo.
  - destruct todo as [|current rest]; [now exists g, []|].
    destruct (AddNeighbors_inv L init g current rest HL Hinv)
      as (g1 & todo1 & Hstep & Hinv1 & _).
    change (builder_run (S n) L g (current :: rest))
      with (bind (AddNeighbors g (current :: rest) L)
                 (fun st => builder_run n L (fst st) (snd st))).
    rewrite Hstep. simpl. now apply IH.
Qed.

Lemma GenerateGraph_rounds_inv n initial :
  length initial = 20 ->
  exists init g todo,
    Normalize initial (GatherLabels initial) = Done init /\
    GenerateGraph_rounds n initial = Done (g, todo) /\
    builder_inv (GatherLabels initial) init g todo.
Proof.
  intros Hlen. destruct (GenerateGraph_start initial Hlen) as (init & Hn & Hgood).
  destruct (builder_run_inv (GatherLabels initial) init
              (GatherLabels_label_set initial) n [] [init]
              (builder_inv_start _ _ Hgood)) as (g & todo & Hrun & Hinv).
  exists init, g, todo. split; [exact Hn|]. split; [|exact Hinv].
  unfold GenerateGraph_rounds. rewrite Hn. exact Hrun.
Qed.

Lemma builder_closed L init g : builder_inv L init g [] -> closed_graph g.
Proof.
  intros Hinv v w (ns & Hns & Hw).
  destruct (inv_closed _ _ _ _ Hinv v ns w Hns Hw) as [H|[]]. exact H.
Qed.

Lemma builder_adj L init g todo v w :
  builder_inv L init g todo -> (adj g v w <-> In v (keys g) /\ edge L v w).
Proof.
  intros Hinv. split.
  - intros (ns & Hns & Hw). split; [apply find_keys; eauto|].
    now apply (inv_edges _ _ _ _ Hinv v ns Hns).
  - intros [Hv He]. apply find_keys in Hv. destruct Hv as (ns & Hns).
    exists ns. split; [exact Hns|]. now apply (inv_edges _ _ _ _ Hinv v ns Hns).
Qed.

Lemma builder_symmetric L init g :
  label_set L -> builder_inv L init g [] -> symmetric_graph g.
Proof.
  intros HL Hinv v w Hvw.
  pose proof (builder_closed _ _ _ Hinv v w Hvw) as Hw.
  apply (builder_adj _ _ _ _ v w Hinv) in Hvw. destruct Hvw as [Hv He].
  apply (builder_adj _ _ _ _ w v Hinv). split; [exact Hw|].
  apply edge_sym; auto. apply (inv_good _ _ _ _ Hinv). now left.
Qed.

Lemma builder_vertices L init g v :
  builder_inv L init g [] -> (In v (keys g) <-> reachable L init v).
Proof.
  intros Hinv. split.
  - intros Hv. apply (inv_good _ _ _ _ Hinv). now left.
  - induction 1 as [|a b Ha IH Hab].
    + destruct (inv_init _ _ _ _ Hinv) as [H|[]]. exact H.
    + apply (builder_closed _ _ _ Hinv a b).
      now apply (builder_adj _ _ _ _ a b Hinv).
Qed.

(** ** Print *)

Lemma Print_loop_total g sol lev : solved_by g sol lev ->
  forall n cur nxt,
    map_find State_compare cur sol = Some nxt -> lev cur <= n ->
    exists path, Print_loop n sol cur nxt = Done path.
Proof.
  intros Hsol. induction n as [|n IH]; intros cur nxt Hcur Hn;
    destruct (sol_forest _ _ _ Hsol cur nxt Hcur)
      as [_ [(<- & _ & _)|(_ & _ & Hk & Hl)]]; try lia.
  - exists []. simpl. now rewrite State_compare_refl.
  - exists []. simpl. now rewrite State_compare_refl.
  - apply find_keys in Hk. destruct Hk as (nxt' & Hnxt).
    destruct (IH nxt nxt' Hnxt) as (path & Hpath); [lia|].
    simpl. rewrite Hnxt, Hpath. simpl.
    destruct (State_compare cur nxt); eauto.
Qed.

Lemma Print_loop_safe g sol lev : solved_by g sol lev ->
  forall n cur nxt,
    map_find State_compare cur sol = Some nxt ->
    Print_loop n sol cur nxt = OutOfFuel \/
    exists path, Print_loop n sol cur nxt = Done path.
Proof.
  intros Hsol. induction n as [|n IH]; intros cur nxt Hcur;
    destruct (sol_forest _ _ _ Hsol cur nxt Hcur)
      as [_ [(<- & _ & _)|(_ & _ & Hk & _)]].
  - right. exists []. simpl. now rewrite State_compare_refl.
  - apply find_keys in Hk. destruct Hk as (nxt' & Hnxt).
    simpl. rewrite Hnxt. destruct (State_compare cur nxt); eauto.
  - right. exists []. simpl. now rewrite State_compare_refl.
  - apply find_keys in Hk. destruct Hk as (nxt' & Hnxt).
    simpl. rewrite Hnxt.
    destruct (IH nxt nxt' Hnxt) as [Hout|(path & Hpath)].
    + rewrite Hout. simpl. destruct (State_compare cur nxt); eauto.
    + rewrite Hpath. simpl. destruct (State_compare cur nxt); eauto.
Qed.

(** ** The model on small boards *)

Example Normalize_mixed_board :
  Normalize mixed_board mixed_labels =
  Done [65; 65; 32; 66;
        67; 32; 32; 66;
        32; 32; 32; 32;
        32; 32; 32; 32;
        32; 32; 32; 32]%Z.
Proof. reflexivity. Qed.

Example square_graph_size : length square_graph = 12.
Proof. reflexivity. Qed.

(** The 2x2 block reaches the target cells in four moves. *)
Example main_run_square :
  exists path, main_run 12 square_board = Done path /\ length path = 5.
Proof. eexists. split; vm_compute; reflexivity. Qed.

(** No state of the bar is solved: the last assertion of [Solve] fires. *)
Example main_run_bar : main_run 5 bar_board = AssertFailed.
Proof. vm_compute. reflexivity. Qed.

(** [main] on a board that is not canonical looks up a state that is not a
    key of the map. *)
Example main_run_two_blocks : main_run 192 two_blocks = Undefined.
Proof. vm_compute. reflexivity. Qed.

(** ** Graphs and maps of a whole run *)

(** Membership of a concrete list, by search. *)
Ltac in_list := solve [repeat (first [left; reflexivity | right])].

Lemma GenerateGraph_solved fuel initial g sol :
  length initial = 20 -> GenerateGraph fuel initial = Done g ->
  Solve g = Done sol ->
  closed_graph g /\ symmetric_graph g /\ exists lev, solved_by g sol lev.
Proof.
  intros Hlen Hrun Hsolve.
  destruct (GenerateGraph_inv fuel initial g Hlen Hrun) as (init & _ & Hinv).
  pose proof (builder_closed _ _ _ Hinv) as Hclosed.
  split; [exact Hclosed|]. split.
  - eapply builder_symmetric; eauto. apply GatherLabels_label_set.
  - apply Solve_Done; auto. apply Hinv.
Qed.

Lemma initial_in_graph fuel initial g :
  length initial = 20 -> GenerateGraph fuel initial = Done g ->
  (In initial (keys g) <->
   Normalize initial (GatherLabels initial) = Done initial).
Proof.
  intros Hlen Hrun.
  destruct (GenerateGraph_inv fuel initial g Hlen Hrun) as (init & Hn & Hinv).
  split.
  - intros H. apply (inv_good _ _ _ _ Hinv). now left.
  - intros H. rewrite H in Hn. injection Hn as <-.
    destruct (inv_init _ _ _ _ Hinv) as [H'|[]]. exact H'.
Qed.

(** ** Connected graphs and the last assertion of Solve *)

Lemma walk_snoc g a b c n : walk g a b n -> adj g b c -> walk g a c (S n).
Proof.
  induction 1 as [v|v u w n Hvu Hw IH]; intros Hbc.
  - apply walk_step with (u := c); [exact Hbc|constructor].
  - apply walk_step with (u := u); auto.
Qed.

Lemma walk_app g a b c n m : walk g a b n -> walk g b c m -> walk g a c (n + m).
Proof.
  induction 1 as [v|v u w n Hvu Hw IH]; intros Hbc; simpl; auto.
  apply walk_step with (u := u); auto.
Qed.

Lemma walk_back g a b n : symmetric_graph g -> walk g a b n -> walk g b a n.
Proof.
  intros Hsym. induction 1 as [v|v u w n Hvu Hw IH]; [constructor|].
  apply walk_snoc with (b := u); auto.
Qed.

Lemma reachable_walk L init g v :
  builder_inv L init g [] -> reachable L init v -> exists n, walk g init v n.
Proof.
  intros Hinv. induction 1 as [|a b Hr [n IH] He].
  - exists 0. constructor.
  - exists (S n). apply walk_snoc with (b := a); auto.
    apply (builder_adj L init g [] a b Hinv). split; [|exact He].
    now apply (builder_vertices L init g a Hinv).
Qed.

(** Any two vertices of a graph that the builder returns are joined by a
    walk. *)
Lemma builder_connected L init g u v :
  label_set L -> builder_inv L init g [] ->
  In u (keys g) -> In v (keys g) -> exists n, walk g u v n.
Proof.
  intros HL Hinv Hu Hv.
  apply (builder_vertices L init g u Hinv) in Hu.
  apply (builder_vertices L init g v Hinv) in Hv.
  destruct (reachable_walk L init g u Hinv Hu) as (n & Hn).
  destruct (reachable_walk L init g v Hinv Hv) as (m & Hm).
  exists (n + m). apply walk_app with (b := init); auto.
  apply walk_back; auto. now apply (builder_symmetric L init).
Qed.

(** The state in which the [while] loop of [Solve] ends, and the test that
    follows it. *)
Lemma Solve_outcome g :
  sorted_map State_compare g -> closed_graph g ->
  exists sol lev fuel,
    bfs_inv g fuel sol [] lev /\
    Solve g = if length sol =? length g then Done sol else AssertFailed.
Proof.
  intros Hsorted Hclosed. unfold Solve.
  destruct (foldM_prefix_invariant seed seeded g) with
    (xs := g) (pre := @nil (State * list State))
    (a := (@nil (State * State), @nil State))
    as ([sol0 queue0] & Hseed & Hseeded).
  - intros pre x post a Hg Ha. eapply seed_step; eauto. now apply sorted_map_NoDup.
  - reflexivity.
  - exact seeded_start.
  - rewrite Hseed. simpl.
    destruct (Solve_loop_enough_fuel g Hclosed (length g) sol0 queue0 (fun _ => 0))
      as (sol & lev & fuel' & Hrun & Hinv); [now apply seeded_bfs|].
    rewrite Hrun. simpl. now exists sol, lev, fuel'.
Qed.

(** The map is complete as soon as one vertex is solved. *)
Lemma Solve_solvable L init g :
  label_set L -> builder_inv L init g [] ->
  (exists v, In v (keys g) /\ IsSolved v = true) ->
  exists sol, Solve g = Done sol.
Proof.
  intros HL Hinv (goal & Hgoal & Hs).
  pose proof (builder_closed _ _ _ Hinv) as Hclosed.
  destruct (Solve_outcome g (inv_graph_sorted _ _ _ _ Hinv) Hclosed)
    as (sol & lev & fuel & Hbfs & Hrun).
  assert (Hwalk : forall u v n, walk g u v n -> In u (keys sol) -> In v (keys sol)).
  { induction 1 as [v|v u w n Hvu Hw IH]; auto. intros Hv. apply IH.
    apply (bfs_done _ _ _ _ _ Hbfs v u); auto. }
  assert (Hall : incl (keys g) (keys sol)).
  { intros v Hv.
    destruct (builder_connected L init g goal v HL Hinv Hgoal Hv) as (n & Hn).
    apply (Hwalk goal v n Hn). apply find_keys. exists goal.
    now apply (bfs_goals _ _ _ _ _ Hbfs). }
  assert (Hlen : length sol = length g).
  { apply Nat.le_antisymm.
    - now apply (bfs_size g fuel sol [] lev).
    - rewrite <- !length_keys. apply NoDup_incl_length; auto.
      apply sorted_map_NoDup. apply Hinv. }
  exists sol. rewrite Hrun. now rewrite (proj2 (Nat.eqb_eq _ _) Hlen).
Qed.

(** Without a solved vertex the last assertion fires. *)
Lemma Solve_unsolvable L init g :
  label_set L -> builder_inv L init g [] ->
  (forall v, In v (keys g) -> IsSolved v = false) ->
  Solve g = AssertFailed.
Proof.
  intros HL Hinv Hnone.
  pose proof (builder_closed _ _ _ Hinv) as Hclosed.
  pose proof (builder_symmetric _ _ _ HL Hinv) as Hsym.
  destruct (Solve_spec g (inv_graph_sorted _ _ _ _ Hinv) Hclosed)
    as [H|(sol & lev & Hdone & Hsol)]; [exact H|exfalso].
  assert (Hinit : In init (keys g)).
  { destruct (inv_init _ _ _ _ Hinv) as [H|[]]. exact H. }
  destruct (follow_level g sol lev Hsym Hsol (lev init) init Hinit eq_refl)
    as (goal & _ & Hs & _ & Hw & _).
  rewrite (Hnone goal) in Hs; [discriminate|].
  now apply (walk_in_graph g Hclosed init goal (lev init)).
Qed.

(** * The claims *)

(** ** C1: confluence of Normalize *)

(** C1.  For a label set [L] (as [GatherLabels] builds it) that contains the
    labels of the arrangement [s], and a permutation [pi] of the block labels
    of [s]: [Normalize] returns, and it returns the same arrangement on [s]
    and on [s] relabelled by [pi]. *)
Theorem Normalize_confluence (L : Labels) (s : State) (pi : char -> char) :
  label_set L -> uses L s -> label_permutation pi s ->
  exists r, Normalize s L = Done r /\ Normalize (relabel pi s) L = Done r.
Proof.
  intros HL Hu [Hclosed Hinj].
  destruct (Normalize_total L s HL Hu) as (r & Hr).
  exists r. split; [exact Hr|]. rewrite <- Hr.
  unfold relabel. apply Normalize_relabel; auto.
  - intros x Hx Hne. cbv beta.
    destruct (Z.eqb_spec x space) as [|_]; [contradiction|].
    destruct (Hclosed x (conj Hx Hne)) as [Hin Hne'].
    destruct (Hu _ Hin); [contradiction|assumption].
  - intros x y Hx Hy. cbv beta.
    destruct (Z.eqb_spec x space) as [Ex|Ex], (Z.eqb_spec y space) as [Ey|Ey].
    + congruence.
    + intros E. exfalso. destruct (Hclosed y (conj Hy Ey)) as [_ H]. congruence.
    + intros E. exfalso. destruct (Hclosed x (conj Hx Ex)) as [_ H]. congruence.
    + apply Hinj; now split.
Qed.

Lemma Normalize_confluence_witness :
  exists r, Normalize mixed_board mixed_labels = Done r /\
            Normalize (relabel cycle_labels mixed_board) mixed_labels = Done r.
Proof.
  apply Normalize_confluence.
  - split.
    + repeat constructor; reflexivity.
    + simpl. intros [H|[H|[H|[]]]]; discriminate H.
  - intros x Hx. simpl in Hx.
    repeat (destruct Hx as [<-|Hx]; [first [left; reflexivity | right; in_list]|]).
    contradiction.
  - split.
    + intros x [Hx Hne]. simpl in Hx.
      repeat (destruct Hx as [<-|Hx];
              [first [exfalso; apply Hne; reflexivity
                     | split; [in_list | discriminate]]|]).
      contradiction.
    + intros x y _ _. unfold cycle_labels.
      destruct (Z.eqb_spec x 65), (Z.eqb_spec x 66), (Z.eqb_spec x 67),
        (Z.eqb_spec y 65), (Z.eqb_spec y 66), (Z.eqb_spec y 67); lia.
Defined.

(** ** C2: the map leads to a solved state along a shortest path *)

(** C2.  For a graph that [GenerateGraph] returns and the map that [Solve]
    returns for it, from every vertex [V]: some number [n] of applications
    of the map reaches a solved vertex, which is mapped to itself; no fewer
    applications reach a solved vertex; [n] is the least number of edges of
    a walk in the graph from [V] to a solved state; and [n] is zero when [V]
    is solved. *)
Theorem next_step_correct (fuel : nat) (initial : State) (g : Graph)
        (sol : Solution) (V : State) :
  length initial = 20 -> GenerateGraph fuel initial = Done g ->
  Solve g = Done sol -> In V (keys g) ->
  exists n goal,
    follow sol n V = Some goal /\
    IsSolved goal = true /\
    map_find State_compare goal sol = Some goal /\
    (forall k, k < n -> exists u, follow sol k V = Some u /\ IsSolved u = false) /\
    distance_to_goal g V n /\
    (IsSolved V = true -> n = 0).
Proof.
  intros Hlen Hrun Hsolve HV.
  destruct (GenerateGraph_solved fuel initial g sol Hlen Hrun Hsolve)
    as (Hclosed & Hsym & lev & Hsol).
  destruct (follow_level g sol lev Hsym Hsol (lev V) V HV eq_refl)
    as (goal & Hf & Hs & Hself & _ & Hbefore).
  exists (lev V), goal. repeat split; auto.
  - destruct (level_is_distance g sol lev Hclosed Hsym Hsol V HV) as [H _]. exact H.
  - apply (level_is_distance g sol lev Hclosed Hsym Hsol V HV).
  - intros HVs. eapply solved_goal_level; eauto.
Qed.

Lemma next_step_correct_witness :
  exists n goal,
    follow square_solution n square_board = Some goal /\
    IsSolved goal = true /\
    map_find State_compare goal square_solution = Some goal /\
    (forall k, k < n ->
       exists u, follow square_solution k square_board = Some u /\
                 IsSolved u = false) /\
    distance_to_goal square_graph square_board n /\
    (IsSolved square_board = true -> n = 0).
Proof.
  apply (next_step_correct 12 square_board square_graph square_solution);
    try reflexivity.
  vm_compute. in_list.
Defined.

(** ** C3: the move relation *)



(** ** C4: the graph is closed under the move relation *)



(** ** C5: moves can be taken back and edges are symmetric *)

(** C5.  If the canonical arrangement [B] is the normal form of a feasible
    slide of the block [label] of the canonical arrangement [A] in direction
    [d], then the block of [B] on the cells the slide moved [label] onto can
    slide in the opposite direction, and the normal form of that slide is
    [A]; and in a graph that [GenerateGraph] returns, [B] is in the neighbor
    set of [A] exactly when [A] is in the neighbor set of [B]. *)
Theorem move_reversibility :
  (forall L A B label d,
     label_set L -> good L A -> In label L ->
     feasible A label d = true -> Normalize (slid A label d) L = Done B ->
     exists label',
       In label' L /\
       (forall j, j < 20 -> (get B j = label' <-> get (slid A label d) j = label)) /\
       feasible B label' (opposite d) = true /\
       Normalize (slid B label' (opposite d)) L = Done A) /\
  (forall fuel initial g A B,
     length initial = 20 -> GenerateGraph fuel initial = Done g ->
     (adj g A B <-> adj g B A)).
Proof.
  split.
  - intros L A B label d. apply edge_back.
  - intros fuel initial g A B Hlen Hrun.
    destruct (GenerateGraph_inv fuel initial g Hlen Hrun) as (init & _ & Hinv).
    pose proof (builder_symmetric _ _ _ (GatherLabels_label_set initial) Hinv) as Hs.
    split; apply Hs.
Qed.

Lemma move_reversibility_witness :
  (exists label',
     In label' [65%Z] /\
     (forall j, j < 20 ->
        (get square_right j = label' <->
         get (slid square_board 65%Z RIGHT) j = 65%Z)) /\
     feasible square_right label' LEFT = true /\
     Normalize (slid square_right label' LEFT) [65%Z] = Done square_board) /\
  (adj square_graph square_board square_right <->
   adj square_graph square_right square_board).
Proof.
  destruct move_reversibility as [Hback Hsym]. split.
  - apply (Hback [65%Z] square_board square_right 65%Z RIGHT); try reflexivity.
    + split; [repeat constructor|].
      simpl. intros [H|[]]. discriminate H.
    + split; [reflexivity|]. split; [|reflexivity].
      intros x Hx. simpl in Hx.
      repeat (destruct Hx as [<-|Hx]; [first [left; reflexivity | right; in_list]|]).
      contradiction.
    + now left.
  - apply (Hsym 12 square_board square_graph); reflexivity.
Defined.

(** ** C6: the solution map is complete *)

(** C6.  For a graph that [GenerateGraph] returns: the last assertion of
    [Solve] (the size of the map is the number of vertices) fires exactly
    when no vertex is solved; when some vertex is solved [Solve] returns a
    map; and a map that [Solve] returns has one entry per vertex (its size
    is the number of vertices and its keys are exactly the vertices), in
    which every solved vertex is mapped to itself, every other vertex is
    mapped to one of its own neighbors, different from itself, and only
    solved vertices are mapped to themselves. *)
Theorem map_complete (fuel : nat) (initial : State) (g : Graph) :
  length initial = 20 -> GenerateGraph fuel initial = Done g ->
  (Solve g = AssertFailed <-> forall v, In v (keys g) -> IsSolved v = false) /\
  ((exists v, In v (keys g) /\ IsSolved v = true) ->
   exists sol, Solve g = Done sol) /\
  (forall sol,
    Solve g = Done sol ->
    length sol = length g /\
    NoDup (keys sol) /\
    (forall v, In v (keys sol) <-> In v (keys g)) /\
    (forall v, In v (keys g) -> IsSolved v = true ->
               map_find State_compare v sol = Some v) /\
    (forall v, In v (keys g) -> IsSolved v = false ->
               exists p, map_find State_compare v sol = Some p /\
                         adj g v p /\ p <> v) /\
    (forall v, map_find State_compare v sol = Some v -> IsSolved v = true)).
Proof.
  intros Hlen Hrun.
  destruct (GenerateGraph_inv fuel initial g Hlen Hrun) as (init & _ & Hinv).
  pose proof (GatherLabels_label_set initial) as HL.
  split; [|split].
  - split; [|now apply (Solve_unsolvable _ init g HL Hinv)].
    intros Hfail v Hv. destruct (IsSolved v) eqn:Hs; [exfalso|reflexivity].
    destruct (Solve_solvable _ init g HL Hinv) as (sol & Hsol);
      [now exists v|congruence].
  - now apply (Solve_solvable _ init g HL Hinv).
  - intros sol Hsolve.
    destruct (GenerateGraph_solved fuel initial g sol Hlen Hrun Hsolve)
      as (Hclosed & Hsym & lev & Hsol).
    split; [apply Hsol|].
    split; [apply sorted_map_NoDup, Hsol|]. split; [apply Hsol|].
    split; [apply Hsol|]. split.
    + intros v Hv Hs. eapply solved_next; eauto.
    + intros v Hv. eapply solved_self; eauto.
Qed.

(** On the graph of the 2x2 block, which has a solved vertex, [Solve]
    returns, and what it returns is a map as above. *)
Lemma map_complete_witness :
  exists sol,
    Solve square_graph = Done sol /\
    length sol = length square_graph /\
    NoDup (keys sol) /\
    (forall v, In v (keys sol) <-> In v (keys square_graph)) /\
    (forall v, In v (keys square_graph) -> IsSolved v = true ->
               map_find State_compare v sol = Some v) /\
    (forall v, In v (keys square_graph) -> IsSolved v = false ->
               exists p, map_find State_compare v sol = Some p /\
                         adj square_graph v p /\ p <> v) /\
    (forall v, map_find State_compare v sol = Some v -> IsSolved v = true).
Proof.
  destruct (map_complete 12 square_board square_graph eq_refl eq_refl)
    as (_ & Hdone & Hmap).
  destruct Hdone as (sol & Hsol).
  - exists square_solved. split; [vm_compute; in_list|reflexivity].
  - exists sol. split; [exact Hsol|]. now apply Hmap.
Defined.

(** ** C7: every stored arrangement is canonical *)

(** C7.  After any number of rounds of the work-set loop of [GenerateGraph],
    every arrangement in the work-set, every vertex and every member of a
    neighbor set is left unchanged by [Normalize] under the labels gathered
    from the initial arrangement; so is every vertex and neighbor of the
    graph returned.  ([AddNeighbors] does not call [Normalize] on the state
    it removes from the work-set.) *)
Theorem canonical_form_invariant (initial : State) :
  length initial = 20 ->
  let L := GatherLabels initial in
  (forall n g todo,
     GenerateGraph_rounds n initial = Done (g, todo) ->
     (forall v, In v todo -> Normalize v L = Done v) /\
     (forall v, In v (keys g) -> Normalize v L = Done v) /\
     (forall v nbrs w, map_find State_compare v g = Some nbrs -> In w nbrs ->
                       Normalize w L = Done w)) /\
  (forall fuel g,
     GenerateGraph fuel initial = Done g ->
     (forall v, In v (keys g) -> Normalize v L = Done v) /\
     (forall v nbrs w, map_find State_compare v g = Some nbrs -> In w nbrs ->
                       Normalize w L = Done w)).
Proof.
  intros Hlen L.
  assert (Hrounds : forall n g todo,
     GenerateGraph_rounds n initial = Done (g, todo) ->
     (forall v, In v todo -> Normalize v L = Done v) /\
     (forall v, In v (keys g) -> Normalize v L = Done v) /\
     (forall v nbrs w, map_find State_compare v g = Some nbrs -> In w nbrs ->
                       Normalize w L = Done w)).
  { intros n g todo Hrun.
    destruct (GenerateGraph_rounds_inv n initial Hlen)
      as (init & g' & todo' & _ & Hrun' & Hinv).
    rewrite Hrun in Hrun'. injection Hrun' as <- <-. fold L in Hinv.
    assert (Hcanon : forall v, In v (keys g) \/ In v todo -> Normalize v L = Done v).
    { intros v Hv. apply (inv_good _ _ _ _ Hinv) in Hv. apply Hv. }
    repeat split; auto.
    intros v nbrs w Hv Hw. apply Hcanon.
    now apply (inv_closed _ _ _ _ Hinv v nbrs w). }
  split; [exact Hrounds|].
  intros fuel g Hrun. unfold GenerateGraph in Hrun.
  destruct (Hrounds fuel g []) as (_ & H1 & H2); [|now split].
  unfold GenerateGraph_rounds.
  destruct (Normalize initial (GatherLabels initial)) as [init| | |];
    simpl in *; try discriminate.
  now apply builder_run_loop.
Qed.

Lemma canonical_form_invariant_witness :
  Normalize square_right (GatherLabels square_board) = Done square_right.
Proof.
  destruct (canonical_form_invariant square_board eq_refl) as [_ H].
  destruct (H 12 square_graph eq_refl) as [H1 _].
  apply H1. vm_compute. in_list.
Defined.

(** ** C8: Print on a state that is not in the map *)




(** ** C9: every state is expanded once *)

(** C9.  In every run of [GenerateGraph], after any number of rounds of the
    work-set loop: the run has not failed; the state that the next call of
    [AddNeighbors] removes from the work-set is not a vertex yet, so the
    insertion into the graph succeeds and the call completes, adding exactly
    that state to the vertices; and no vertex is in the work-set.  Hence
    [GenerateGraph] never ends in a failed assertion. *)
Theorem expansion_unique (initial : State) :
  length initial = 20 ->
  (forall n, exists g todo,
     GenerateGraph_rounds n initial = Done (g, todo) /\
     NoDup (keys g) /\
     (forall v, In v (keys g) -> ~ In v todo) /\
     match todo with
     | [] => True
     | current :: rest =>
         map_find State_compare current g = None /\
         snd (map_insert State_compare current [] g) = true /\
         exists g' todo',
           AddNeighbors g todo (GatherLabels initial) = Done (g', todo') /\
           Permutation (keys g') (current :: keys g)
     end) /\
  (forall fuel, GenerateGraph fuel initial <> AssertFailed).
Proof.
  intros Hlen.
  assert (HL : label_set (GatherLabels initial)) by apply GatherLabels_label_set.
  split.
  - intros n.
    destruct (GenerateGraph_rounds_inv n initial Hlen)
      as (init & g & todo & _ & Hrun & Hinv).
    exists g, todo. split; [exact Hrun|]. split; [|split].
    + eapply builder_inv_NoDup; eauto.
    + apply Hinv.
    + destruct todo as [|current rest]; [exact I|].
      assert (Hnew : ~ In current (keys g)).
      { intros H. apply (inv_disjoint _ _ _ _ Hinv _ H). now left. }
      split; [now apply find_None|].
      split; [now apply insert_new|].
      destruct (AddNeighbors_inv _ _ _ _ _ HL Hinv) as (g' & todo' & H1 & _ & H2).
      eauto.
  - intros fuel Hfail.
    destruct (GenerateGraph_outcome fuel initial Hlen) as [H|(g & H)];
      rewrite H in Hfail; discriminate Hfail.
Qed.

Lemma expansion_unique_witness :
  exists g todo,
    GenerateGraph_rounds 3 square_board = Done (g, todo) /\
    NoDup (keys g) /\
    (forall v, In v (keys g) -> ~ In v todo) /\
    match todo with
    | [] => True
    | current :: rest =>
        map_find State_compare current g = None /\
        snd (map_insert State_compare current [] g) = true /\
        exists g' todo',
          AddNeighbors g todo (GatherLabels square_board) = Done (g', todo') /\
          Permutation (keys g') (current :: keys g)
    end.
Proof.
  exact (proj1 (expansion_unique square_board eq_refl) 3).
Defined.

(** ** C10: the initial arrangement of main is canonical *)

(** C10.  The initial arrangement of [main] is left unchanged by [Normalize]
    under its own labels.  Therefore, when [GenerateGraph] and [Solve]
    return, it is a key of the map and [Print] follows the map from it to
    the end, and [main] never dereferences an end iterator; and for any
    initial arrangement, being a key of the map is the same as being left
    unchanged by [Normalize]. *)
Theorem main_initial_canonical :
  Normalize main_initial (GatherLabels main_initial) = Done main_initial /\
  (forall fuel g sol,
     GenerateGraph fuel main_initial = Done g -> Solve g = Done sol ->
     (exists nxt, map_find State_compare main_initial sol = Some nxt) /\
     (exists n path, Print n main_initial sol = Done path)) /\
  (forall fuel, main_run fuel main_initial <> Undefined) /\
  (forall fuel initial g sol,
     length initial = 20 ->
     GenerateGraph fuel initial = Done g -> Solve g = Done sol ->
     (In initial (keys sol) <->
      Normalize initial (GatherLabels initial) = Done initial)).
Proof.
  assert (Hgen : forall fuel initial g sol,
     length initial = 20 ->
     GenerateGraph fuel initial = Done g -> Solve g = Done sol ->
     (In initial (keys sol) <->
      Normalize initial (GatherLabels initial) = Done initial)).
  { intros fuel initial g sol Hlen Hrun Hsolve.
    destruct (GenerateGraph_solved fuel initial g sol Hlen Hrun Hsolve)
      as (_ & _ & lev & Hsol).
    rewrite (sol_keys _ _ _ Hsol). now apply initial_in_graph with (fuel := fuel). }
  assert (Hfix : Normalize main_initial (GatherLabels main_initial) = Done main_initial)
    by reflexivity.
  assert (Hkey : forall fuel g sol,
     GenerateGraph fuel main_initial = Done g -> Solve g = Done sol ->
     exists lev nxt, solved_by g sol lev /\
                     map_find State_compare main_initial sol = Some nxt).
  { intros fuel g sol Hrun Hsolve.
    destruct (GenerateGraph_solved fuel main_initial g sol eq_refl Hrun Hsolve)
      as (_ & _ & lev & Hsol).
    assert (Hin : In main_initial (keys sol)).
    { apply (Hgen fuel main_initial g sol eq_refl Hrun Hsolve). exact Hfix. }
    apply find_keys in Hin. destruct Hin as (nxt & Hnxt). eauto. }
  split; [exact Hfix|]. split; [|split; [|exact Hgen]].
  - intros fuel g sol Hrun Hsolve.
    destruct (Hkey fuel g sol Hrun Hsolve) as (lev & nxt & Hsol & Hnxt).
    split; [now exists nxt|].
    destruct (Print_loop_total g sol lev Hsol (lev main_initial) main_initial nxt Hnxt)
      as (path & Hpath); [lia|].
    exists (lev main_initial), (main_initial :: path).
    unfold Print. now rewrite Hnxt, Hpath.
  - intros fuel. unfold main_run.
    destruct (GenerateGraph_outcome fuel main_initial eq_refl) as [Hg|(g & Hg)];
      rewrite Hg; simpl; [discriminate|].
    destruct (Solve g) as [sol| | |] eqn:Hsolve; simpl; try discriminate.
    + destruct (Hkey fuel g sol Hg Hsolve) as (lev & nxt & Hsol & Hnxt).
      unfold Print. rewrite Hnxt.
      destruct (Print_loop_safe g sol lev Hsol fuel main_initial nxt Hnxt)
        as [H|(path & H)]; rewrite H; discriminate.
    + exfalso.
      destruct (GenerateGraph_inv fuel main_initial g eq_refl Hg) as (init & _ & Hinv).
      destruct (Solve_spec g (inv_graph_sorted _ _ _ _ Hinv)
                           (builder_closed _ _ _ Hinv))
        as [H|(sol & lev & H & _)]; congruence.
Qed.

(** A board whose labels are not in canonical order is not a key of its own
    map: [Print] would dereference the end iterator. *)
Lemma main_initial_canonical_witness :
  In square_board (keys square_solution) /\
  forall fuel g sol,
    GenerateGraph fuel two_blocks = Done g -> Solve g = Done sol ->
    ~ In two_blocks (keys sol).
Proof.
  destruct main_initial_canonical as (_ & _ & _ & H). split.
  - apply (H 12 square_board square_graph square_solution); reflexivity.
  - intros fuel g sol Hg Hs Hin.
    apply (H fuel two_blocks g sol eq_refl Hg Hs) in Hin. discriminate Hin.
Defined.

(** * Further properties of the code *)

(** ** Normalize *)

Lemma increasing_app_lt a b x y :
  increasing (a ++ b) -> In x a -> In y b -> (x < y)%Z.
Proof.
  induction a as [|z a IH]; simpl; intros Hinc Hx Hy; [contradiction|].
  destruct Hx as [->|Hx].
  - apply (increasing_head _ _ _ Hinc). apply in_app_iff. now right.
  - apply IH; auto. now apply increasing_tail in Hinc.
Qed.

Lemma increasing_app_r a b : increasing (a ++ b) -> increasing b.
Proof.
  induction a as [|z a IH]; simpl; auto. intros H. apply IH.
  now apply increasing_tail in H.
Qed.

(** A symbol of the label set that is smaller than the label under the
    cursor was seen before. *)
Lemma seen_before seen l ls y :
  increasing (seen ++ l :: ls) -> In y (seen ++ l :: ls) -> (y < l)%Z -> In y seen.
Proof.
  intros Hinc Hy Hlt. apply in_app_iff in Hy. destruct Hy as [Hy|Hy]; [exact Hy|].
  pose proof (In_ge _ _ _ (increasing_app_r _ _ Hinc) Hy). lia.
Qed.

Lemma cell_ok_of_labels seen l ls x :
  increasing (seen ++ l :: ls) ->
  x = space \/ In x (seen ++ l :: ls) -> cell_ok (l :: ls) x.
Proof.
  intros Hinc [->|Hx]; [now left|]. apply in_app_iff in Hx.
  destruct Hx as [Hx|Hx]; [|right; now left].
  right. right. intros y Hy. now apply increasing_app_lt with (a := seen) (b := l :: ls).
Qed.

Lemma Normalize_loop_prefix k l ls i s r :
  i + k = length s -> increasing (l :: ls) -> ~ In space (l :: ls) ->
  (forall j, i <= j < length s -> cell_ok (l :: ls) (get s j)) ->
  Normalize_loop s (l :: ls) i k = Done r ->
  length r = length s /\ forall j, j < i -> get r j = get s j.
Proof.
  intros Hk Hinc Hsp Hok Hrun.
  destruct (Normalize_loop_shape k l ls i s Hk Hinc Hsp Hok)
    as (r' & g & Hrun' & Hlen & Hpre & _).
  rewrite Hrun in Hrun'. injection Hrun' as <-. now split.
Qed.

Lemma Normalize_loop_in_order k : forall seen l ls i s r,
  i + k = length s ->
  increasing (seen ++ l :: ls) -> ~ In space (seen ++ l :: ls) ->
  (forall j, i <= j < length s ->
             get s j = space \/ In (get s j) (seen ++ l :: ls)) ->
  (forall y, In y seen -> exists i', i' < i /\ get s i' = y) ->
  Normalize_loop s (l :: ls) i k = Done r ->
  forall j, i <= j < length s -> get r j <> space ->
  forall y, In y (seen ++ l :: ls) -> (y < get r j)%Z ->
  exists i', i' < j /\ get r i' = y.
Proof.
  induction k as [|k IH]; intros seen l ls i s r Hk Hinc Hsp Hcells Hseen Hrun j Hj;
    [lia|].
  assert (Hinc' : increasing (l :: ls)) by now apply increasing_app_r in Hinc.
  assert (Hsp' : ~ In space (l :: ls)).
  { intros H. apply Hsp. apply in_app_iff. now right. }
  assert (Hok : forall j, i <= j < length s -> cell_ok (l :: ls) (get s j)).
  { intros j' Hj'. apply cell_ok_of_labels with (seen := seen); auto. }
  assert (Hi : i <= i < length s) by lia.
  assert (Hold : forall r', length r' = length s ->
             (forall j', j' < i -> get r' j' = get s j') ->
             forall y, In y seen -> exists i', i' < i /\ get r' i' = y).
  { intros r' Hlen Hpre y Hy. destruct (Hseen y Hy) as (i' & Hi' & E).
    exists i'. split; [exact Hi'|]. now rewrite Hpre. }
  assert (Hcase : get s i = space \/ (get s i < l)%Z \/
                  (get s i <> space /\ (l <= get s i)%Z)).
  { destruct (Z.eq_dec (get s i) space); [now left|].
    destruct (Z_lt_dec (get s i) l); [right; now left|right; right; split; auto; lia]. }
  destruct Hcase as [Hc|[Hc|[Hc1 Hc2]]].
  - (* empty cell *)
    rewrite Normalize_loop_seen in Hrun by now left.
    destruct (Normalize_loop_prefix k l ls (S i) s r) as [Hlen Hpre]; auto; [lia| |].
    { intros j' Hj'. apply Hok. lia. }
    destruct (Nat.eq_dec j i) as [->|Hne].
    + intros Hns. exfalso. apply Hns. rewrite Hpre by lia. exact Hc.
    + apply (IH seen l ls (S i) s r); auto; try lia.
      * intros j' Hj'. apply Hcells. lia.
      * intros y Hy. destruct (Hseen y Hy) as (i' & Hi' & E). exists i'. split; [lia|exact E].
  - (* a label seen before *)
    rewrite Normalize_loop_seen in Hrun by (right; exists l, ls; auto).
    destruct (Normalize_loop_prefix k l ls (S i) s r) as [Hlen Hpre]; auto; [lia| |].
    { intros j' Hj'. apply Hok. lia. }
    destruct (Nat.eq_dec j i) as [->|Hne].
    + intros _ y Hy Hlt. rewrite Hpre in Hlt by lia.
      assert (Hys : In y seen) by (apply seen_before with (l := l) (ls := ls); auto; lia).
      apply (Hold r); auto; intros j' Hj'; apply Hpre; lia.
    + apply (IH seen l ls (S i) s r); auto; try lia.
      * intros j' Hj'. apply Hcells. lia.
      * intros y Hy. destruct (Hseen y Hy) as (i' & Hi' & E). exists i'. split; [lia|exact E].
  - (* a label met for the first time *)
    rewrite Normalize_loop_unseen in Hrun by (auto; lia). cbv zeta in Hrun.
    set (c := get s i) in *.
    set (s1 := swap_labels c l s i (length s - i)) in *.
    assert (Hc : In c (l :: ls)) by (apply cell_ok_ge; auto; apply Hok; lia).
    assert (HcL : In c (seen ++ l :: ls)) by (apply in_app_iff; now right).
    assert (HlL : In l (seen ++ l :: ls)) by (apply in_app_iff; right; now left).
    assert (Hlen1 : length s1 = length s) by (apply swap_labels_length; lia).
    assert (Hpre1 : forall j', j' < i -> get s1 j' = get s j').
    { intros j' Hj'. apply swap_labels_before; lia. }
    assert (Hat1 : get s1 i = l).
    { unfold s1. rewrite swap_labels_from by lia. apply sw_hit. }
    assert (Hcells1 : forall j', S i <= j' < length s1 ->
               get s1 j' = space \/ In (get s1 j') (seen ++ l :: ls)).
    { intros j' Hj'. unfold s1. rewrite swap_labels_from by lia.
      unfold sw. destruct (Z.eqb_spec (get s j') c); [now right|].
      destruct (Z.eqb_spec (get s j') l); [now right|]. apply Hcells. lia. }
    assert (Hseen1 : forall y, In y (seen ++ [l]) ->
               exists i', i' < S i /\ get s1 i' = y).
    { intros y Hy. apply in_app_iff in Hy. destruct Hy as [Hy|[<-|[]]].
      - destruct (Hseen y Hy) as (i' & Hi' & E). exists i'. split; [lia|].
        now rewrite Hpre1.
      - exists i. split; [lia|exact Hat1]. }
    assert (Hhere : forall r', (forall j', j' < S i -> get r' j' = get s1 j') ->
               forall y, In y (seen ++ l :: ls) -> (y < l)%Z ->
               exists i', i' < i /\ get r' i' = y).
    { intros r' Hpre y Hy Hlt.
      assert (Hys : In y seen) by now apply seen_before with (l := l) (ls := ls).
      destruct (Hseen y Hys) as (i' & Hi' & E). exists i'. split; [exact Hi'|].
      rewrite Hpre by lia. now rewrite Hpre1. }
    destruct ls as [|l' ls'].
    + injection Hrun as <-.
      destruct (Nat.eq_dec j i) as [->|Hne].
      * intros _ y Hy Hlt. rewrite Hat1 in Hlt. now apply (Hhere s1).
      * intros Hns y Hy _. apply Hseen1 in Hy. destruct Hy as (i' & Hi' & E).
        exists i'. split; [lia|exact E].
    + destruct (Normalize_loop_prefix k l' ls' (S i) s1 r) as [Hlen Hpre]; auto.
      { lia. }
      { now apply increasing_tail in Hinc'. }
      { intros H. apply Hsp'. now right. }
      { intros j' Hj'. unfold s1. rewrite swap_labels_from by lia.
        apply cell_ok_sw; auto. apply Hok. lia. }
      destruct (Nat.eq_dec j i) as [->|Hne].
      * intros _ y Hy Hlt. rewrite Hpre, Hat1 in Hlt by lia. now apply (Hhere r).
      * rewrite <- Hlen1 in Hj.
        assert (E : seen ++ l :: l' :: ls' = (seen ++ [l]) ++ l' :: ls')
          by now rewrite <- app_assoc.
        rewrite E in *.
        apply (IH (seen ++ [l]) l' ls' (S i) s1 r); auto; lia.
Qed.

Lemma Normalize_no_labels_undefined k : forall s i,
  (exists j, i <= j < i + k /\ get s j <> space) ->
  Normalize_loop s [] i k = Undefined.
Proof.
  induction k as [|k IH]; intros s i (j & Hj & Hne); [lia|]. simpl.
  destruct (Z.eqb_spec (get s i) space) as [E|E]; [|reflexivity].
  apply IH. exists j. split; [|exact Hne].
  destruct (Nat.eq_dec j i) as [->|]; [contradiction|lia].
Qed.

Lemma forallb_false_nth (f : char -> bool) (l : list char) :
  forallb f l = false -> exists j, j < length l /\ f (get l j) = false.
Proof.
  induction l as [|x l IH]; simpl; [discriminate|].
  destruct (f x) eqn:E; simpl.
  - intros H. destruct (IH H) as (j & Hj & Hf). exists (S j). split; [lia|exact Hf].
  - intros _. exists 0. split; [lia|exact E].
Qed.

Lemma mixed_labels_label_set : label_set mixed_labels.
Proof.
  split.
  - repeat constructor; reflexivity.
  - simpl. intros [H|[H|[H|[]]]]; discriminate H.
Qed.

Lemma mixed_board_uses : uses mixed_labels mixed_board.
Proof.
  intros x Hx. simpl in Hx.
  repeat (destruct Hx as [<-|Hx]; [first [left; reflexivity | right; in_list]|]).
  contradiction.
Qed.

(** The result of [Normalize] meets the labels in increasing order. *)
Lemma Normalize_result_in_order L s r :
  label_set L -> uses L s -> Normalize s L = Done r -> in_order L r.
Proof.
  intros HL Hu Hr.
  destruct (Normalize_canonical L s r HL Hu Hr) as (_ & _ & Hlen).
  destruct HL as [Hinc Hsp]. destruct L as [|l ls].
  - intros j Hj Hne y [].
  - intros j Hj Hne y Hy Hlt. rewrite Hlen in Hj.
    apply (Normalize_loop_in_order (length s) [] l ls 0 s r); auto; try lia.
    + intros j' Hj'. apply Hu. apply get_In. lia.
    + intros y' [].
Qed.

(** The result of [Normalize] has the empty cells and the blocks of the
    state it was given. *)
Lemma Normalize_result_blocks L s r :
  label_set L -> uses L s -> Normalize s L = Done r ->
  length r = length s /\
  (forall i, i < length s -> (get r i = space <-> get s i = space)) /\
  (forall i j, i < length s -> j < length s ->
               (get r i = get r j <-> get s i = get s j)).
Proof.
  intros HL Hu Hr.
  destruct (Normalize_shape L s HL Hu) as (r' & g & Hr' & -> & Hg).
  rewrite Hr in Hr'. injection Hr' as ->.
  pose proof (relabeling_space L g (proj2 HL) Hg) as Hgs.
  destruct Hg as (_ & _ & Hinj).
  split; [apply length_map|]. split.
  - intros i Hi. rewrite get_map by assumption. split.
    + intros E. apply Hinj. congruence.
    + intros E. congruence.
  - intros i j Hi Hj. rewrite !get_map by assumption. split.
    + apply Hinj.
    + congruence.
Qed.

(** X1.  On a state whose labels are in the label set, [Normalize] returns,
    and what it returns it leaves unchanged when applied again; the result
    has as many cells and uses the same label set. *)
Theorem Normalize_idempotent (L : Labels) (s : State) :
  label_set L -> uses L s ->
  exists r, Normalize s L = Done r /\ Normalize r L = Done r /\
            length r = length s /\ uses L r.
Proof.
  intros HL Hu. destruct (Normalize_total L s HL Hu) as (r & Hr).
  destruct (Normalize_canonical L s r HL Hu Hr) as (H1 & H2 & H3).
  exists r. auto.
Qed.

Lemma Normalize_idempotent_witness :
  exists r, Normalize mixed_board mixed_labels = Done r /\
            Normalize r mixed_labels = Done r /\
            length r = length mixed_board /\ uses mixed_labels r.
Proof.
  apply Normalize_idempotent; [exact mixed_labels_label_set|exact mixed_board_uses].
Defined.

(** X2.  In the state that [Normalize] returns the labels are met in
    increasing order: before a cell that carries a label, every smaller
    label of the label set has already occurred. *)
Theorem Normalize_first_occurrences (L : Labels) (s : State) :
  label_set L -> uses L s ->
  exists r, Normalize s L = Done r /\ in_order L r.
Proof.
  intros HL Hu. destruct (Normalize_total L s HL Hu) as (r & Hr).
  exists r. split; [exact Hr|]. now apply (Normalize_result_in_order L s r).
Qed.

Lemma Normalize_first_occurrences_witness :
  exists r, Normalize mixed_board mixed_labels = Done r /\ in_order mixed_labels r.
Proof.
  apply Normalize_first_occurrences;
    [exact mixed_labels_label_set|exact mixed_board_uses].
Defined.

(** X3.  With an empty label set [Normalize] leaves an empty board as it is,
    and on a board with a block it dereferences the end iterator
    ([labels.begin()] is [labels.end()]). *)
Theorem Normalize_no_labels (s : State) :
  Normalize s [] =
  if forallb (fun c => (c =? space)%Z) s then Done s else Undefined.
Proof.
  unfold Normalize. destruct (forallb (fun c => (c =? space)%Z) s) eqn:E.
  - apply Normalize_loop_all_space. intros j Hj.
    rewrite forallb_forall in E. apply Z.eqb_eq. apply E. apply get_In. lia.
  - apply forallb_false_nth in E. destruct E as (j & Hj & Hf).
    apply Normalize_no_labels_undefined. exists j. split; [lia|].
    now apply Z.eqb_neq.
Qed.

(** X4.  [Normalize] only renames blocks: the result has the same empty
    cells, and two cells carry the same label in the result exactly when
    they did before. *)
Theorem Normalize_keeps_blocks (L : Labels) (s : State) :
  label_set L -> uses L s ->
  exists r,
    Normalize s L = Done r /\ length r = length s /\
    (forall i, i < length s -> (get r i = space <-> get s i = space)) /\
    (forall i j, i < length s -> j < length s ->
                 (get r i = get r j <-> get s i = get s j)).
Proof.
  intros HL Hu. destruct (Normalize_total L s HL Hu) as (r & Hr).
  exists r. split; [exact Hr|]. now apply (Normalize_result_blocks L s r).
Qed.

Lemma Normalize_keeps_blocks_witness :
  exists r,
    Normalize mixed_board mixed_labels = Done r /\
    length r = length mixed_board /\
    (forall i, i < length mixed_board ->
               (get r i = space <-> get mixed_board i = space)) /\
    (forall i j, i < length mixed_board -> j < length mixed_board ->
                 (get r i = get r j <-> get mixed_board i = get mixed_board j)).
Proof.
  apply Normalize_keeps_blocks;
    [exact mixed_labels_label_set|exact mixed_board_uses].
Defined.

(** The result of [Normalize] is solved exactly when the state was. *)
Lemma Normalize_result_solved L s r :
  label_set L -> uses L s -> length s = 20 -> Normalize s L = Done r ->
  IsSolved r = IsSolved s.
Proof.
  intros HL Hu Hlen Hr.
  destruct (Normalize_shape L s HL Hu) as (r' & g & Hr' & -> & Hg).
  rewrite Hr in Hr'. injection Hr' as ->.
  pose proof (relabeling_space L g (proj2 HL) Hg) as Hgs.
  destruct Hg as (_ & _ & Hinj).
  assert (Heqb : forall x y, (g x =? g y)%Z = (x =? y)%Z).
  { intros x y. destruct (Z.eqb_spec x y) as [->|Hne]; [apply Z.eqb_refl|].
    apply Z.eqb_neq. intros E. apply Hne. now apply Hinj. }
  unfold IsSolved. rewrite !get_map by lia.
  rewrite !Heqb. rewrite <- Hgs at 1. now rewrite Heqb.
Qed.

(** X5.  [Normalize] does not change whether a board is solved. *)
Theorem Normalize_keeps_solved (L : Labels) (s : State) :
  label_set L -> uses L s -> length s = 20 ->
  exists r, Normalize s L = Done r /\ IsSolved r = IsSolved s.
Proof.
  intros HL Hu Hlen. destruct (Normalize_total L s HL Hu) as (r & Hr).
  exists r. split; [exact Hr|]. now apply (Normalize_result_solved L s r).
Qed.

Lemma Normalize_keeps_solved_witness :
  exists r, Normalize mixed_board mixed_labels = Done r /\
            IsSolved r = IsSolved mixed_board.
Proof.
  apply Normalize_keeps_solved;
    [exact mixed_labels_label_set|exact mixed_board_uses|reflexivity].
Defined.

(** Two states over a label set that are in order, have the same empty
    cells and the same blocks are equal. *)
Lemma in_order_unique L (s r : State) :
  uses L s -> uses L r -> in_order L s -> in_order L r ->
  length r = length s ->
  (forall i, i < length s -> (get r i = space <-> get s i = space)) ->
  (forall i j, i < length s -> j < length s ->
               (get r i = get r j <-> get s i = get s j)) ->
  r = s.
Proof.
  intros Hus Hur Hos Hor Hlen Hsp Hpart.
  apply state_ext; [exact Hlen|]. rewrite Hlen.
  intros j. induction j as [j IH] using lt_wf_ind. intros Hj.
  destruct (Z.eq_dec (get s j) space) as [E|E].
  { rewrite E. now apply Hsp. }
  assert (E' : get r j <> space) by (intros H; apply E; now apply Hsp).
  assert (HsL : In (get s j) L).
  { destruct (Hus (get s j)) as [H|H]; auto; [apply get_In; lia|contradiction]. }
  assert (HrL : In (get r j) L).
  { destruct (Hur (get r j)) as [H|H]; auto; [apply get_In; lia|contradiction]. }
  destruct (Z.lt_total (get r j) (get s j)) as [Hlt|[Heq|Hlt]]; [|exact Heq|].
  - exfalso. destruct (Hos j Hj E (get r j) HrL Hlt) as (i & Hi & Hget).
    assert (Hri : get r i = get s i) by (apply IH; lia).
    assert (Hsame : get s i = get s j).
    { apply Hpart; lia. }
    lia.
  - exfalso. rewrite <- Hlen in Hj.
    destruct (Hor j Hj E' (get s j) HsL Hlt) as (i & Hi & Hget).
    rewrite Hlen in Hj.
    assert (Hri : get r i = get s i) by (apply IH; lia).
    assert (Hsame : get r i = get r j).
    { apply Hpart; lia. }
    lia.
Qed.

(** X6.  The states that [Normalize] leaves unchanged are exactly those in
    which the labels are met in increasing order. *)
Theorem Normalize_fixed_points (L : Labels) (s : State) :
  label_set L -> uses L s ->
  (Normalize s L = Done s <-> in_order L s).
Proof.
  intros HL Hu. split.
  - intros Hfix. now apply (Normalize_result_in_order L s s).
  - intros Ho. destruct (Normalize_total L s HL Hu) as (r & Hr).
    pose proof (Normalize_result_in_order L s r HL Hu Hr) as Hor.
    destruct (Normalize_result_blocks L s r HL Hu Hr) as (Hlen & Hsp & Hpart).
    destruct (Normalize_canonical L s r HL Hu Hr) as (_ & Hur & _).
    rewrite Hr. f_equal. now apply in_order_unique with (L := L).
Qed.

Lemma Normalize_fixed_points_witness :
  Normalize mixed_board mixed_labels = Done mixed_board <->
  in_order mixed_labels mixed_board.
Proof.
  apply Normalize_fixed_points; [exact mixed_labels_label_set|exact mixed_board_uses].
Defined.

(** ** Board geometry *)

(** X7.  From a cell that is not on the edge in a direction, [Move] leads to
    another cell of the board, in the same row for LEFT and RIGHT and in the
    same column for TOP and BOTTOM, from which the opposite move leads
    back. *)
Theorem Move_guarded (d : Direction) (i : nat) :
  i < 20 -> IsEdge d i = false ->
  Move d i < 20 /\ Move d i <> i /\
  IsEdge (opposite d) (Move d i) = false /\
  Move (opposite d) (Move d i) = i /\
  match d with
  | LEFT | RIGHT => Move d i / 4 = i / 4
  | TOP | BOTTOM => Move d i mod 4 = i mod 4
  end.
Proof.
  intros Hi. destruct d.
  - revert Hi.
    do 20 (destruct i as [|i];
           [vm_compute; intros; repeat split; (congruence || lia)|]).
    lia.
  - revert Hi.
    do 20 (destruct i as [|i];
           [vm_compute; intros; repeat split; (congruence || lia)|]).
    lia.
  - revert Hi.
    do 20 (destruct i as [|i];
           [vm_compute; intros; repeat split; (congruence || lia)|]).
    lia.
  - revert Hi.
    do 20 (destruct i as [|i];
           [vm_compute; intros; repeat split; (congruence || lia)|]).
    lia.
Qed.

Lemma Move_guarded_witness :
  Move RIGHT 5 < 20 /\ Move RIGHT 5 <> 5 /\
  IsEdge (opposite RIGHT) (Move RIGHT 5) = false /\
  Move (opposite RIGHT) (Move RIGHT 5) = 5 /\
  Move RIGHT 5 / 4 = 5 / 4.
Proof. apply (Move_guarded RIGHT 5); [lia|reflexivity]. Defined.

(** ** GatherLabels *)

Lemma increasing_ext (a b : Labels) :
  increasing a -> increasing b -> (forall x, In x a <-> In x b) -> a = b.
Proof.
  revert b. induction a as [|x a IH]; intros b Ha Hb Hab.
  - destruct b as [|y b]; [reflexivity|].
    exfalso. apply (proj2 (Hab y)). now left.
  - destruct b as [|y b].
    { exfalso. apply (proj1 (Hab x)). now left. }
    pose proof (StronglySorted_inv Ha) as [Ha' Hxa].
    pose proof (StronglySorted_inv Hb) as [Hb' Hyb].
    rewrite Forall_forall in Hxa, Hyb.
    assert (x = y) as <-.
    { destruct (proj1 (Hab x) (or_introl eq_refl)) as [E|Hin]; [auto|].
      destruct (proj2 (Hab y) (or_introl eq_refl)) as [E|Hin']; [auto|].
      specialize (Hxa _ Hin'). specialize (Hyb _ Hin). lia. }
    f_equal. apply IH; auto.
    intros z. split; intros Hz.
    + destruct (proj1 (Hab z) (or_intror Hz)) as [E|H]; [|exact H].
      subst z. specialize (Hxa _ Hz). lia.
    + destruct (proj2 (Hab z) (or_intror Hz)) as [E|H]; [|exact H].
      subst z. specialize (Hyb _ Hz). lia.
Qed.

(** X8.  [GatherLabels] returns the symbols of the non-empty cells, each
    once, in increasing order, and it is the only such list: the result
    depends only on which symbols occur on the board. *)
Theorem GatherLabels_spec (s : State) :
  increasing (GatherLabels s) /\
  ~ In space (GatherLabels s) /\
  (forall x, In x (GatherLabels s) <-> In x s /\ x <> space) /\
  (forall t : State,
      (forall x, x <> space -> (In x t <-> In x s)) ->
      GatherLabels t = GatherLabels s).
Proof.
  destruct (GatherLabels_label_set s) as [Hinc Hsp].
  split; [exact Hinc|]. split; [exact Hsp|]. split.
  - intros x. apply GatherLabels_In.
  - intros t Ht. apply increasing_ext.
    + apply GatherLabels_label_set.
    + exact Hinc.
    + intros x. rewrite !GatherLabels_In. split; intros [H1 H2]; split; auto.
      * now apply Ht.
      * now apply Ht.
Qed.

(** ** The label set along the moves *)

(** A feasible slide neither removes a symbol from the board nor adds one. *)
Lemma slid_In s label d x :
  length s = 20 -> feasible s label d = true -> label <> space -> x <> space ->
  (In x (slid s label d) <-> In x s).
Proof.
  intros Hlen Hf Hl Hx.
  pose proof (proj1 (feasible_spec _ _ _) Hf) as Hf'.
  split; intros Hin.
  - apply In_get in Hin. destruct Hin as (j & Hj & Hget).
    rewrite slid_length, Hlen in Hj.
    rewrite (slid_get s label d j Hlen Hf Hj) in Hget.
    destruct (shifted s label d j) eqn:Hs.
    + destruct (shifted_source s label d j Hlen Hj Hs) as (Hm & Hsrc & _).
      subst x. rewrite <- Hsrc. apply get_In. lia.
    + destruct (get s j =? label)%Z; [congruence|].
      subst x. apply get_In. lia.
  - apply In_get in Hin. destruct Hin as (j & Hj & Hget). rewrite Hlen in Hj.
    destruct (Z.eq_dec x label) as [->|Hne].
    + destruct (shifted_target s label d j Hlen Hf Hj Hget) as (Hm & Hs).
      pose proof (slid_get s label d (Move d j) Hlen Hf Hm) as E.
      rewrite Hs in E.
      assert (Hin : In (get (slid s label d) (Move d j)) (slid s label d))
        by (apply get_In; rewrite slid_length; lia).
      now rewrite E in Hin.
    + pose proof (slid_get s label d j Hlen Hf Hj) as E.
      destruct (shifted s label d j) eqn:Hs.
      * exfalso.
        destruct (shifted_source s label d j Hlen Hj Hs) as (Hm & Hsrc & Hback).
        rewrite <- Hlen in Hm.
        destruct (Hf' _ Hm Hsrc) as (_ & Hfree). rewrite Hback in Hfree.
        destruct Hfree; congruence.
      * destruct (Z.eqb_spec (get s j) label) as [E'|E']; [congruence|].
        rewrite <- Hget, <- E. apply get_In. rewrite slid_length. lia.
Qed.

(** An injective map of a duplicate-free list into itself reaches every
    element. *)
Lemma injective_onto (L : list char) (f : char -> char) :
  NoDup L -> (forall x, In x L -> In (f x) L) ->
  (forall x y, In x L -> In y L -> f x = f y -> x = y) ->
  forall x, In x L -> exists y, In y L /\ f y = x.
Proof.
  intros Hnd Hin Hinj x Hx.
  assert (Hnd' : NoDup (map f L)).
  { apply NoDup_map_NoDup_ForallPairs; [|exact Hnd].
    intros a b Ha Hb. now apply Hinj. }
  assert (Hincl : incl L (map f L)).
  { apply NoDup_length_incl; auto.
    - rewrite length_map. lia.
    - intros z Hz. apply in_map_iff in Hz. destruct Hz as (b & <- & Hb). now apply Hin. }
  specialize (Hincl x Hx). apply in_map_iff in Hincl.
  destruct Hincl as (y & E & Hy). now exists y.
Qed.

Lemma increasing_NoDup (L : Labels) : increasing L -> NoDup L.
Proof.
  induction 1 as [|a l Hs IH Hfa]; constructor; auto.
  intros Ha. rewrite Forall_forall in Hfa. specialize (Hfa _ Ha). lia.
Qed.

(** A relabeling of a label set reaches every label. *)
Lemma relabeling_onto L g x :
  increasing L -> relabeling L g -> In x L -> exists y, In y L /\ g y = x.
Proof.
  intros Hinc (_ & Hin & Hinj) Hx.
  apply injective_onto; auto using increasing_NoDup.
Qed.

(** When every label occurs on the board, it still does after [Normalize]. *)
Lemma Normalize_keeps_labels L s r :
  label_set L -> uses L s -> (forall x, In x L -> In x s) ->
  Normalize s L = Done r -> forall x, In x L -> In x r.
Proof.
  intros HL Hu Hall Hr x Hx.
  destruct (Normalize_shape L s HL Hu) as (r' & g & Hr' & -> & Hg).
  rewrite Hr in Hr'. injection Hr' as ->.
  destruct (relabeling_onto L g x (proj1 HL) Hg Hx) as (y & Hy & <-).
  apply in_map. now apply Hall.
Qed.

(** A state whose symbols are exactly the labels of [L]. *)
Lemma GatherLabels_exact L s :
  label_set L -> uses L s -> (forall x, In x L -> In x s) -> GatherLabels s = L.
Proof.
  intros HL Hu Hall. apply increasing_ext.
  - apply GatherLabels_label_set.
  - apply HL.
  - intros x. rewrite GatherLabels_In. split.
    + intros [Hin Hne]. destruct (Hu x Hin); [contradiction|assumption].
    + intros Hx. split; [now apply Hall|]. intros ->. now apply (proj2 HL).
Qed.

Lemma edge_keeps_labels L a b :
  label_set L -> good L a -> (forall x, In x L -> In x a) -> edge L a b ->
  forall x, In x L -> In x b.
Proof.
  intros HL (Hlen & Hu & _) Hall (label & d & Hl & Hf & Hn).
  assert (Hls : label <> space) by (intros ->; now apply (proj2 HL)).
  apply (Normalize_keeps_labels L (slid a label d) b HL); auto.
  - now apply uses_slid.
  - intros x Hx. apply slid_In; auto.
    intros ->. now apply (proj2 HL).
Qed.

Lemma reachable_keeps_labels L init v :
  label_set L -> good L init -> (forall x, In x L -> In x init) ->
  reachable L init v -> good L v /\ forall x, In x L -> In x v.
Proof.
  intros HL Hg Hall Hr. induction Hr as [|a b Hr [IHg IHall] He].
  - split; assumption.
  - split.
    + now apply (edge_good L a b).
    + now apply (edge_keeps_labels L a b).
Qed.

(** X9.  The label set is gathered once, from the initial arrangement, and it
    is the label set of every vertex of the graph: no move and no
    renaming makes a label disappear or appear. *)
Theorem labels_invariant (fuel : nat) (initial : State) (g : Graph) :
  length initial = 20 -> GenerateGraph fuel initial = Done g ->
  forall v, In v (keys g) -> GatherLabels v = GatherLabels initial.
Proof.
  intros Hlen Hg v Hv.
  destruct (GenerateGraph_inv fuel initial g Hlen Hg) as (init & Hinit & Hinv).
  pose proof (GatherLabels_label_set initial) as HL.
  destruct (inv_good _ _ _ _ Hinv init) as [Hgood _].
  { destruct (inv_init _ _ _ _ Hinv) as [H|[]]. now left. }
  destruct (inv_good _ _ _ _ Hinv v (or_introl Hv)) as [_ Hreach].
  assert (Hall : forall x, In x (GatherLabels initial) -> In x init).
  { apply (Normalize_keeps_labels _ initial init HL (GatherLabels_uses initial)); auto.
    intros x Hx. now apply GatherLabels_In in Hx. }
  destruct (reachable_keeps_labels _ init v HL Hgood Hall Hreach) as [Hgv Hallv].
  apply GatherLabels_exact; auto. apply Hgv.
Qed.

Lemma labels_invariant_witness :
  In square_right (keys square_graph) /\
  GatherLabels square_right = GatherLabels square_board.
Proof.
  assert (H : In square_right (keys square_graph)) by (vm_compute; in_list).
  split; [exact H|].
  apply (labels_invariant 12 square_board square_graph); [reflexivity|reflexivity|exact H].
Defined.

(** ** The work-set loop *)

Lemma GenerateGraph_loop_more_fuel L : forall fuel g todo g',
  GenerateGraph_loop fuel L g todo = Done g' ->
  forall fuel', fuel <= fuel' -> GenerateGraph_loop fuel' L g todo = Done g'.
Proof.
  induction fuel as [|fuel IH]; intros g todo g' Hrun fuel' Hle.
  - destruct todo; simpl in Hrun; [|discriminate].
    destruct fuel'; exact Hrun.
  - destruct todo as [|current rest].
    + destruct fuel'; exact Hrun.
    + destruct fuel' as [|fuel']; [lia|].
      cbn [GenerateGraph_loop] in *.
      destruct (AddNeighbors g (current :: rest) L) as [st| | |]; simpl in *;
        try discriminate.
      apply IH with (fuel' := fuel') in Hrun; [exact Hrun|lia].
Qed.

Lemma GenerateGraph_more_fuel initial f1 f2 g :
  GenerateGraph f1 initial = Done g -> f1 <= f2 ->
  GenerateGraph f2 initial = Done g.
Proof.
  intros Hrun Hle. unfold GenerateGraph in *.
  destruct (Normalize initial (GatherLabels initial)) as [init| | |];
    unfold bind in *; try discriminate.
  now apply GenerateGraph_loop_more_fuel with (fuel := f1).
Qed.

(** The graph of a board, and a number of rounds from which on the loop
    returns it. *)
Lemma GenerateGraph_enough initial :
  length initial = 20 ->
  exists g B,
    B = state_bound (GatherLabels initial) /\
    GenerateGraph B initial = Done g /\
    forall fuel, B <= fuel -> GenerateGraph fuel initial = Done g.
Proof.
  intros Hlen.
  destruct (GenerateGraph_terminates (state_bound (GatherLabels initial)) initial
              Hlen (le_n _)) as (g & Hg).
  exists g. revert Hg. generalize (state_bound (GatherLabels initial)).
  intros B Hg. exists B. split; [reflexivity|]. split; [exact Hg|].
  intros fuel Hle. now apply GenerateGraph_more_fuel with (f1 := B).
Qed.

(** X10.  On a board of 20 cells [GenerateGraph] terminates: there is one
    graph that it returns whenever the loop is given at least
    [(n+1)^20] rounds ([n] the number of labels); with fewer rounds it
    returns the same graph or is still running; no assertion fails and no
    end iterator is dereferenced.  The graph has at least one and at most
    [(n+1)^20] vertices. *)
Theorem GenerateGraph_total (initial : State) :
  length initial = 20 ->
  exists g,
    (forall fuel, state_bound (GatherLabels initial) <= fuel ->
                  GenerateGraph fuel initial = Done g) /\
    (forall fuel, GenerateGraph fuel initial = Done g \/
                  GenerateGraph fuel initial = OutOfFuel) /\
    1 <= length g <= state_bound (GatherLabels initial).
Proof.
  intros Hlen.
  destruct (GenerateGraph_enough initial Hlen) as (g & B & HB & Hg & Hgen).
  exists g. split; [now rewrite <- HB|split].
  - intros fuel. destruct (GenerateGraph_outcome fuel initial Hlen) as [H|(g' & H)];
      [now right|left].
    destruct (Nat.le_ge_cases fuel B) as [Hle|Hle].
    + pose proof (GenerateGraph_more_fuel _ _ _ _ H Hle) as H'. congruence.
    + now apply Hgen.
  - destruct (GenerateGraph_inv _ initial g Hlen Hg) as (init & Hinit & Hinv).
    split.
    + destruct (inv_init _ _ _ _ Hinv) as [H|[]].
      rewrite <- (length_keys g). destruct (keys g); [contradiction|simpl; lia].
    + rewrite <- (length_keys g). apply good_states_bounded.
      * exact (builder_inv_NoDup _ _ _ _ Hinv).
      * intros v Hv. apply (inv_good _ _ _ _ Hinv). now left.
Qed.

Lemma GenerateGraph_total_witness :
  exists g,
    (forall fuel, state_bound (GatherLabels square_board) <= fuel ->
                  GenerateGraph fuel square_board = Done g) /\
    (forall fuel, GenerateGraph fuel square_board = Done g \/
                  GenerateGraph fuel square_board = OutOfFuel) /\
    1 <= length g <= state_bound (GatherLabels square_board).
Proof. apply GenerateGraph_total. reflexivity. Defined.

(** ** AddNeighbors *)

(** X11.  The assertion of [AddNeighbors] fires exactly when the state it
    takes from the work-set is already a vertex of the graph; otherwise
    [AddNeighbors] returns, with that state as the one new vertex and the
    rest of the work-set still waiting. *)
Theorem AddNeighbors_assertion (L : Labels) (g : Graph) (current : State)
        (rest : list State) :
  label_set L -> good L current ->
  sorted_map State_compare g -> sorted_set State_compare (current :: rest) ->
  (AddNeighbors g (current :: rest) L = AssertFailed <-> In current (keys g)) /\
  (~ In current (keys g) ->
   exists g' todo',
     AddNeighbors g (current :: rest) L = Done (g', todo') /\
     Permutation (keys g') (current :: keys g) /\
     (forall v, v <> current ->
                map_find State_compare v g' = map_find State_compare v g) /\
     (forall w, In w rest -> In w todo')).
Proof.
  intros HL Hgood Hg Htodo. split; [split|].
  - intros Hfail.
    destruct (in_dec State_eq_dec current (keys g)) as [Hin|Hnew]; [exact Hin|].
    destruct (AddNeighbors_expanding L g current rest HL Hgood Hg Htodo Hnew)
      as (acc & Hrun & _).
    congruence.
  - intros Hin. unfold AddNeighbors.
    now rewrite (insert_present current [] g Hg Hin).
  - intros Hnew.
    destruct (AddNeighbors_expanding L g current rest HL Hgood Hg Htodo Hnew)
      as ([g' todo'] & Hrun & Hexp).
    exists g', todo'. split; [exact Hrun|].
    destruct Hexp as [_ K2 _ K4 _ _ K7]. simpl in *.
    split; [exact K2|]. split; [exact K4|].
    intros w Hw. apply K7. now left.
Qed.

Lemma square_graph_inv :
  builder_inv (GatherLabels square_board) square_board square_graph [].
Proof.
  destruct (GenerateGraph_inv 12 square_board square_graph eq_refl eq_refl)
    as (init & Hinit & Hinv).
  vm_compute in Hinit. injection Hinit as <-. exact Hinv.
Qed.

(** The assertion fires when the initial board is expanded a second time,
    and does not when it is expanded first. *)
Lemma AddNeighbors_assertion_witness :
  AddNeighbors square_graph [square_board] (GatherLabels square_board) = AssertFailed /\
  exists g' todo',
    AddNeighbors [] [square_board] (GatherLabels square_board) = Done (g', todo') /\
    Permutation (keys g') [square_board].
Proof.
  assert (Hgood : good (GatherLabels square_board) square_board).
  { apply (inv_good _ _ _ _ square_graph_inv). left. vm_compute. in_list. }
  split.
  - apply (AddNeighbors_assertion (GatherLabels square_board) square_graph
             square_board []).
    + apply GatherLabels_label_set.
    + exact Hgood.
    + apply (inv_graph_sorted _ _ _ _ square_graph_inv).
    + repeat constructor.
    + vm_compute. in_list.
  - destruct (AddNeighbors_assertion (GatherLabels square_board) [] square_board []
                (GatherLabels_label_set square_board) Hgood)
      as (_ & Hdone).
    + constructor.
    + repeat constructor.
    + destruct Hdone as (g' & todo' & Hrun & Hperm & _); [intros []|].
      exists g', todo'. split; [exact Hrun|exact Hperm].
Defined.

(** One round of the work-set loop leaves the entries of the graph as they
    are and keeps the rest of the work-set. *)
Lemma AddNeighbors_frame L init g current rest g' todo' :
  label_set L -> builder_inv L init g (current :: rest) ->
  AddNeighbors g (current :: rest) L = Done (g', todo') ->
  builder_inv L init g' todo' /\
  (forall v ns, map_find State_compare v g = Some ns ->
                map_find State_compare v g' = Some ns) /\
  In current (keys g') /\
  (forall w, In w rest -> In w todo').
Proof.
  intros HL Hinv Hrun.
  destruct (AddNeighbors_inv L init g current rest HL Hinv)
    as (g1 & todo1 & Hstep & Hinv1 & _).
  rewrite Hrun in Hstep. injection Hstep as <- <-.
  split; [exact Hinv1|].
  destruct (inv_good _ _ _ _ Hinv current) as [Hgood _]; [right; now left|].
  assert (Hnew : ~ In current (keys g)).
  { intros H. apply (inv_disjoint _ _ _ _ Hinv _ H). now left. }
  destruct (AddNeighbors_expanding L g current rest HL Hgood
              (inv_graph_sorted _ _ _ _ Hinv) (inv_todo_sorted _ _ _ _ Hinv) Hnew)
    as (acc & Hrun' & Hexp).
  rewrite Hrun in Hrun'. injection Hrun' as <-.
  destruct Hexp as [K1 _ _ K4 _ _ K7]. simpl in *.
  split; [|split].
  - intros v ns Hfind. rewrite K4; [exact Hfind|].
    intros ->. apply Hnew. apply find_keys. now exists ns.
  - apply K1. now left.
  - intros w Hw. apply K7. now left.
Qed.

Lemma builder_run_stable L init : label_set L ->
  forall m g1 t1 g2 t2,
    builder_inv L init g1 t1 ->
    builder_run m L g1 t1 = Done (g2, t2) ->
    (forall v ns, map_find State_compare v g1 = Some ns ->
                  map_find State_compare v g2 = Some ns) /\
    (forall w, In w t1 -> In w (keys g2) \/ In w t2).
Proof.
  intros HL. induction m as [|m IH]; intros g1 t1 g2 t2 Hinv Hrun.
  - assert (E : (g1, t1) = (g2, t2)) by (destruct t1; simpl in Hrun; congruence).
    injection E as <- <-. split; auto.
  - destruct t1 as [|current rest].
    { simpl in Hrun. injection Hrun as <- <-. split; auto. }
    change (builder_run (S m) L g1 (current :: rest))
      with (bind (AddNeighbors g1 (current :: rest) L)
                 (fun st => builder_run m L (fst st) (snd st))) in Hrun.
    destruct (AddNeighbors_inv L init g1 current rest HL Hinv)
      as (g' & todo' & Hstep & _).
    rewrite Hstep in Hrun. simpl in Hrun.
    destruct (AddNeighbors_frame L init g1 current rest g' todo' HL Hinv Hstep)
      as (Hinv' & Hkeep & Hcur & Hrest).
    destruct (IH g' todo' g2 t2 Hinv' Hrun) as (Hkeep' & Htodo').
    split.
    + intros v ns Hfind. apply Hkeep', Hkeep, Hfind.
    + intros w [<-|Hw].
      * left. apply find_keys in Hcur. destruct Hcur as (ns & Hns).
        apply find_keys. exists ns. now apply Hkeep'.
      * apply Htodo'. now apply Hrest.
Qed.

Lemma builder_run_add L m : forall n g todo,
  builder_run (n + m) L g todo =
  bind (builder_run n L g todo) (fun st => builder_run m L (fst st) (snd st)).
Proof.
  induction n as [|n IH]; intros g todo.
  - simpl. now destruct todo.
  - destruct todo as [|current rest].
    + simpl. now destruct m.
    + change (builder_run (S n + m) L g (current :: rest))
        with (bind (AddNeighbors g (current :: rest) L)
                   (fun st => builder_run (n + m) L (fst st) (snd st))).
      change (builder_run (S n) L g (current :: rest))
        with (bind (AddNeighbors g (current :: rest) L)
                   (fun st => builder_run n L (fst st) (snd st))).
      destruct (AddNeighbors g (current :: rest) L) as [st| | |]; simpl; auto.
Qed.

(** X12.  In a run of [GenerateGraph], what the work-set loop has done is
    never undone: an entry of the graph after [n] rounds, with its set of
    neighbors, is an entry after [n + m] rounds, and a state that waits in
    the work-set after [n] rounds is then still waiting or has become a
    vertex. *)
Theorem explored_entries_final (initial : State) (n m : nat) :
  length initial = 20 ->
  exists g1 t1 g2 t2,
    GenerateGraph_rounds n initial = Done (g1, t1) /\
    GenerateGraph_rounds (n + m) initial = Done (g2, t2) /\
    (forall v ns, map_find State_compare v g1 = Some ns ->
                  map_find State_compare v g2 = Some ns) /\
    (forall w, In w t1 -> In w (keys g2) \/ In w t2).
Proof.
  intros Hlen.
  destruct (GenerateGraph_rounds_inv n initial Hlen)
    as (init & g1 & t1 & Hinit & Hrun1 & Hinv1).
  destruct (GenerateGraph_rounds_inv (n + m) initial Hlen)
    as (init' & g2 & t2 & Hinit' & Hrun2 & _).
  exists g1, t1, g2, t2. split; [exact Hrun1|]. split; [exact Hrun2|].
  unfold GenerateGraph_rounds in Hrun1, Hrun2.
  rewrite Hinit in Hrun1, Hrun2. simpl in Hrun1, Hrun2.
  rewrite builder_run_add, Hrun1 in Hrun2. simpl in Hrun2.
  apply (builder_run_stable _ init (GatherLabels_label_set initial) m g1 t1 g2 t2);
    assumption.
Qed.

Lemma explored_entries_final_witness :
  exists g1 t1 g2 t2,
    GenerateGraph_rounds 2 square_board = Done (g1, t1) /\
    GenerateGraph_rounds (2 + 3) square_board = Done (g2, t2) /\
    (forall v ns, map_find State_compare v g1 = Some ns ->
                  map_find State_compare v g2 = Some ns) /\
    (forall w, In w t1 -> In w (keys g2) \/ In w t2).
Proof. apply explored_entries_final. reflexivity. Defined.

(** ** Solve *)

(** X13.  For a graph that [GenerateGraph] returns, the last assertion of
    [Solve] fires exactly when no vertex is solved, and [Solve] returns a
    map exactly when some vertex is solved. *)
Theorem Solve_fails_iff_unsolvable (fuel : nat) (initial : State) (g : Graph) :
  length initial = 20 -> GenerateGraph fuel initial = Done g ->
  (Solve g = AssertFailed <-> forall v, In v (keys g) -> IsSolved v = false) /\
  ((exists sol, Solve g = Done sol) <->
   exists v, In v (keys g) /\ IsSolved v = true).
Proof.
  intros Hlen Hg.
  destruct (GenerateGraph_inv fuel initial g Hlen Hg) as (init & _ & Hinv).
  pose proof (GatherLabels_label_set initial) as HL.
  assert (Hdec : (exists v, In v (keys g) /\ IsSolved v = true) \/
                 (forall v, In v (keys g) -> IsSolved v = false)).
  { clear. induction (keys g) as [|x l IH].
    - right. intros v [].
    - destruct (IsSolved x) eqn:E.
      + left. exists x. split; [now left|exact E].
      + destruct IH as [(v & Hv & Hs)|IH].
        * left. exists v. split; [now right|exact Hs].
        * right. intros v [<-|Hv]; auto. }
  split; split.
  - intros Hfail. destruct Hdec as [Hsome|Hnone]; [|exact Hnone].
    destruct (Solve_solvable _ init g HL Hinv Hsome) as (sol & Hsol). congruence.
  - now apply (Solve_unsolvable _ init g HL Hinv).
  - intros (sol & Hsol). destruct Hdec as [Hsome|Hnone]; [exact Hsome|].
    rewrite (Solve_unsolvable _ init g HL Hinv Hnone) in Hsol. discriminate.
  - now apply (Solve_solvable _ init g HL Hinv).
Qed.

Lemma Solve_fails_iff_unsolvable_witness :
  (Solve square_graph = AssertFailed <->
   forall v, In v (keys square_graph) -> IsSolved v = false) /\
  ((exists sol, Solve square_graph = Done sol) <->
   exists v, In v (keys square_graph) /\ IsSolved v = true).
Proof.
  apply (Solve_fails_iff_unsolvable 12 square_board square_graph); reflexivity.
Defined.

(** ** Print *)

Lemma follow_snoc sol k : forall v,
  follow sol (S k) v =
  match follow sol k v with
  | Some u => map_find State_compare u sol
  | None => None
  end.
Proof.
  induction k as [|k IH]; intros v.
  - simpl. now destruct (map_find State_compare v sol).
  - change (follow sol (S (S k)) v)
      with (match map_find State_compare v sol with
            | Some p => follow sol (S k) p
            | None => None
            end).
    destruct (map_find State_compare v sol) as [p|] eqn:E.
    + rewrite IH. simpl. now rewrite E.
    + simpl. now rewrite E.
Qed.

Lemma follow_in_graph g sol lev : solved_by g sol lev ->
  forall k v u, In v (keys g) -> follow sol k v = Some u -> In u (keys g).
Proof.
  intros Hsol. induction k as [|k IH]; intros v u Hv Hf.
  - simpl in Hf. now injection Hf as <-.
  - simpl in Hf. destruct (map_find State_compare v sol) as [p|] eqn:E;
      [|discriminate].
    apply (IH p u); auto.
    destruct (sol_forest _ _ _ Hsol v p E) as [_ [(<- & _)|(_ & _ & Hp & _)]]; auto.
    now apply (sol_keys _ _ _ Hsol).
Qed.

(** What the [while] loop of [Print] writes from a vertex [lev v] steps away
    from a solved state. *)
Lemma Print_loop_follow g sol lev : solved_by g sol lev ->
  forall n v p,
    In v (keys g) -> lev v = n -> map_find State_compare v sol = Some p ->
    exists rest,
      (forall k, n <= k -> Print_loop k sol v p = Done rest) /\
      length rest = n /\
      forall i, i < n -> nth_error rest i = follow sol (S i) v.
Proof.
  intros Hsol. induction n as [|n IH]; intros v p Hv Hn Hp;
    destruct (sol_forest _ _ _ Hsol v p Hp)
      as [_ [(<- & _ & Hl)|(_ & _ & Hk & Hl)]]; try lia.
  - exists []. split; [|split; [reflexivity|intros i Hi; lia]].
    intros k _. destruct k; simpl; now rewrite State_compare_refl.
  - assert (Hpg : In p (keys g)) by now apply (sol_keys _ _ _ Hsol).
    destruct (solved_entry g sol lev Hsol p Hpg) as (p' & Hp' & _).
    destruct (IH p p' Hpg ltac:(lia) Hp') as (rest & Hrun & Hlen & Hnth).
    assert (Hne : v <> p) by (intros ->; lia).
    exists (p :: rest). split; [|split].
    + intros [|k] Hle; [lia|]. simpl. rewrite Hp', (Hrun k) by lia. simpl.
      pose proof (State_compare_ne v p Hne) as Hc.
      destruct (State_compare v p); [contradiction|reflexivity|reflexivity].
    + simpl. now rewrite Hlen.
    + intros [|i] Hi.
      * simpl. now rewrite Hp.
      * change (nth_error (p :: rest) (S i)) with (nth_error rest i).
        rewrite Hnth by lia.
        change (follow sol (S (S i)) v)
          with (match map_find State_compare v sol with
                | Some q => follow sol (S i) q
                | None => None
                end).
        now rewrite Hp.
Qed.

(** The path that [Print] writes from a vertex. *)
Lemma Print_path g sol lev v :
  closed_graph g -> symmetric_graph g -> solved_by g sol lev -> In v (keys g) ->
  exists path,
    (forall k, lev v <= k -> Print k v sol = Done path) /\
    length path = S (lev v) /\
    (forall k, k <= lev v -> nth_error path k = follow sol k v) /\
    (forall k a b, nth_error path k = Some a -> nth_error path (S k) = Some b ->
                   IsSolved a = false /\ adj g a b) /\
    (exists goal, nth_error path (lev v) = Some goal /\ IsSolved goal = true).
Proof.
  intros Hclosed Hsym Hsol Hv.
  destruct (solved_entry g sol lev Hsol v Hv) as (p & Hp & _).
  destruct (Print_loop_follow g sol lev Hsol (lev v) v p Hv eq_refl Hp)
    as (rest & Hrun & Hlen & Hnth).
  destruct (follow_level g sol lev Hsym Hsol (lev v) v Hv eq_refl)
    as (goal & Hfg & Hgs & _ & _ & Hbefore).
  assert (Hpath : forall k, k <= lev v -> nth_error (v :: rest) k = follow sol k v).
  { intros [|k] Hk; [reflexivity|]. simpl nth_error. apply Hnth. lia. }
  exists (v :: rest). split; [|split; [|split; [|split]]].
  - intros k Hk. unfold Print. rewrite Hp, (Hrun k Hk). reflexivity.
  - simpl. now rewrite Hlen.
  - exact Hpath.
  - intros k a b Ha Hb.
    assert (Hk : S k <= lev v).
    { assert (H : nth_error (v :: rest) (S k) <> None) by congruence.
      apply nth_error_Some in H. simpl in H. lia. }
    rewrite Hpath in Ha, Hb by lia. rewrite follow_snoc, Ha in Hb.
    destruct (Hbefore k ltac:(lia)) as (u & Hu & Hus).
    rewrite Ha in Hu. injection Hu as <-.
    split; [exact Hus|].
    assert (Hag : In a (keys g)) by now apply (follow_in_graph g sol lev Hsol k v a).
    destruct (solved_next g sol lev Hsym Hsol a Hag Hus) as (q & Hq & Hadj & _).
    congruence.
  - exists goal. split; [|exact Hgs]. now rewrite Hpath.
Qed.

(** X14.  From a vertex of the graph, [Print] writes a shortest path to a
    solved state: the vertex itself, then the states that the map leads
    through, each a neighbor of the one before and none of them solved
    but the last; the number of steps is the distance of the vertex to the
    nearest solved state.  The loop needs no more rounds than that. *)
Theorem Print_shortest_path (fuel : nat) (initial : State) (g : Graph)
        (sol : Solution) (v : State) :
  length initial = 20 -> GenerateGraph fuel initial = Done g ->
  Solve g = Done sol -> In v (keys g) ->
  exists path n,
    (forall k, n <= k -> Print k v sol = Done path) /\
    length path = S n /\
    distance_to_goal g v n /\
    (forall k, k <= n -> nth_error path k = follow sol k v) /\
    (forall k a b, nth_error path k = Some a -> nth_error path (S k) = Some b ->
                   IsSolved a = false /\ adj g a b) /\
    (exists goal, nth_error path n = Some goal /\ IsSolved goal = true).
Proof.
  intros Hlen Hg Hs Hv.
  destruct (GenerateGraph_solved fuel initial g sol Hlen Hg Hs)
    as (Hclosed & Hsym & lev & Hsol).
  destruct (Print_path g sol lev v Hclosed Hsym Hsol Hv)
    as (path & H1 & H2 & H3 & H4 & H5).
  exists path, (lev v). repeat (split; [assumption|]).
  split; [now apply (level_is_distance g sol lev)|].
  repeat (split; [assumption|]). assumption.
Qed.

Lemma Print_shortest_path_witness :
  exists path n,
    (forall k, n <= k -> Print k square_board square_solution = Done path) /\
    length path = S n /\
    distance_to_goal square_graph square_board n /\
    (forall k, k <= n -> nth_error path k = follow square_solution k square_board) /\
    (forall k a b, nth_error path k = Some a -> nth_error path (S k) = Some b ->
                   IsSolved a = false /\ adj square_graph a b) /\
    (exists goal, nth_error path n = Some goal /\ IsSolved goal = true).
Proof.
  apply (Print_shortest_path 12 square_board square_graph square_solution square_board);
    [reflexivity|reflexivity|reflexivity|vm_compute; in_list].
Defined.

(** ** main *)




(** ** operator<< *)

(** X16.  The text written for a board has 26 characters: five rows of four
    cells, each row followed by a newline, and a newline after the last
    row.  Cell [i] is character [i + i / 4] of the text, so two boards with
    the same text are equal. *)
Theorem operator_shl_layout (s : State) :
  length s = 20 ->
  length (operator_shl s) = 26 /\
  (forall i, i < 20 -> nth (i + i / 4) (operator_shl s) 0%Z = get s i) /\
  (forall r, r < 5 -> nth (5 * r + 4) (operator_shl s) 0%Z = endl) /\
  nth 25 (operator_shl s) 0%Z = endl /\
  (forall t : State, length t = 20 -> operator_shl t = operator_shl s -> t = s).
Proof.
  intros Hlen.
  assert (Hcell : forall (u : State) i, i < 20 ->
                    nth (i + i / 4) (operator_shl u) 0%Z = get u i).
  { intros u i Hi.
    do 20 (destruct i as [|i]; [reflexivity|]). lia. }
  split; [reflexivity|]. split; [apply Hcell|]. split; [|split].
  - intros r Hr. do 5 (destruct r as [|r]; [reflexivity|]). lia.
  - reflexivity.
  - intros t Ht Heq. apply state_ext; [congruence|].
    intros i Hi. rewrite Ht in Hi.
    now rewrite <- (Hcell t i Hi), <- (Hcell s i Hi), Heq.
Qed.

Lemma operator_shl_layout_witness :
  length (operator_shl square_board) = 26 /\
  (forall i, i < 20 -> nth (i + i / 4) (operator_shl square_board) 0%Z = get square_board i) /\
  (forall r, r < 5 -> nth (5 * r + 4) (operator_shl square_board) 0%Z = endl) /\
  nth 25 (operator_shl square_board) 0%Z = endl /\
  (forall t : State, length t = 20 ->
                     operator_shl t = operator_shl square_board -> t = square_board).
Proof. apply operator_shl_layout. reflexivity. Defined.

(** ** A slide permutes the cells *)

Lemma count_occ_indices (s : State) (x : char) :
  count_occ Z.eq_dec s x = length (indices_of s x).
Proof.
  unfold indices_of, get. induction s as [|a s IH]; [reflexivity|].
  cbn [length seq]. rewrite <- seq_shift.
  cbn [filter nth]. rewrite filter_map_swap.
  cbn [count_occ]. destruct (Z.eq_dec a x) as [E|E].
  - rewrite (proj2 (Z.eqb_eq a x) E). cbn [length]. rewrite length_map. now f_equal.
  - rewrite (proj2 (Z.eqb_neq a x) E). now rewrite length_map.
Qed.

Lemma filter_split {A : Type} (p q : A -> bool) (l : list A) :
  length (filter p l) =
  length (filter (fun x => p x && q x) l) +
  length (filter (fun x => p x && negb (q x)) l).
Proof.
  induction l as [|a l IH]; [reflexivity|]. simpl.
  destruct (p a), (q a); simpl; lia.
Qed.

(** As many cells are moved onto as the block has. *)
Lemma shifted_count s label d :
  length s = 20 -> feasible s label d = true ->
  length (filter (shifted s label d) (seq 0 20)) = length (indices_of s label).
Proof.
  intros Hlen Hf.
  pose proof (proj1 (feasible_spec _ _ _) Hf) as Hf'.
  rewrite <- (length_map (Move d) (indices_of s label)).
  apply Permutation_length, NoDup_Permutation.
  - apply NoDup_filter, seq_NoDup.
  - apply NoDup_map_NoDup_ForallPairs.
    + intros i i' Hi Hi' E.
      apply indices_of_In in Hi, Hi'. destruct Hi as [Hi Hgi], Hi' as [Hi' Hgi'].
      destruct (Hf' i Hi Hgi) as [He _]. destruct (Hf' i' Hi' Hgi') as [He' _].
      rewrite Hlen in Hi, Hi'.
      destruct (Move_inside d i Hi He) as (_ & _ & Hb).
      destruct (Move_inside d i' Hi' He') as (_ & _ & Hb').
      congruence.
    + unfold indices_of. apply NoDup_filter, seq_NoDup.
  - intros j. rewrite filter_In, in_seq, in_map_iff. split.
    + intros [Hj Hs]. assert (Hj' : j < 20) by lia.
      destruct (shifted_source s label d j Hlen Hj' Hs) as (Hm & Hsrc & Hback).
      exists (Move (opposite d) j). split; [exact Hback|].
      apply indices_of_In. split; [lia|exact Hsrc].
    + intros (i & <- & Hi). apply indices_of_In in Hi. destruct Hi as [Hi Hgi].
      rewrite Hlen in Hi.
      destruct (shifted_target s label d i Hlen Hf Hi Hgi) as (Hm & Hs).
      split; [lia|exact Hs].
Qed.

(** A cell that is moved onto held the block or was empty. *)
Lemma shifted_free s label d j :
  length s = 20 -> feasible s label d = true -> j < 20 ->
  shifted s label d j = true -> get s j = space \/ get s j = label.
Proof.
  intros Hlen Hf Hj Hs.
  destruct (shifted_source s label d j Hlen Hj Hs) as (Hm & Hsrc & Hback).
  rewrite <- Hlen in Hm.
  destruct (proj1 (feasible_spec _ _ _) Hf _ Hm Hsrc) as (_ & Hfree).
  now rewrite Hback in Hfree.
Qed.

Lemma slid_count s label d x :
  length s = 20 -> label <> space -> feasible s label d = true ->
  length (indices_of (slid s label d) x) = length (indices_of s x).
Proof.
  intros Hlen Hl Hf.
  pose proof (shifted_count s label d Hlen Hf) as HT.
  unfold indices_of at 1. rewrite slid_length, Hlen.
  assert (Hget : forall j, In j (seq 0 20) ->
            get (slid s label d) j =
            if shifted s label d j then label
            else if (get s j =? label)%Z then space else get s j).
  { intros j Hj. apply in_seq in Hj. apply slid_get; auto. lia. }
  assert (Hfree : forall j, In j (seq 0 20) -> shifted s label d j = true ->
                            get s j = space \/ get s j = label).
  { intros j Hj. apply in_seq in Hj. apply shifted_free; auto. lia. }
  destruct (Z.eq_dec x label) as [->|Hxl]; [|destruct (Z.eq_dec x space) as [->|Hxs]].
  - rewrite <- HT. f_equal. apply filter_ext_in. intros j Hj. rewrite (Hget j Hj).
    destruct (shifted s label d j); [apply Z.eqb_refl|].
    destruct (Z.eqb_spec (get s j) label) as [E|E].
    + now apply Z.eqb_neq.
    + now apply Z.eqb_neq.
  - set (P := fun j => ((get s j =? label) || (get s j =? space))%Z).
    rewrite (filter_ext_in _ (fun j => P j && negb (shifted s label d j))).
    2:{ intros j Hj. rewrite (Hget j Hj). unfold P.
        destruct (shifted s label d j) eqn:Hs.
        - rewrite andb_false_r. now apply Z.eqb_neq.
        - rewrite andb_true_r.
          destruct (Z.eqb_spec (get s j) label) as [E|E]; [apply Z.eqb_refl|].
          reflexivity. }
    pose proof (filter_split P (shifted s label d) (seq 0 20)) as H1.
    pose proof (filter_split P (fun j => (get s j =? label)%Z) (seq 0 20)) as H2.
    cbv beta in H2.
    rewrite (filter_ext_in (fun j => P j && shifted s label d j) (shifted s label d))
      in H1.
    2:{ intros j Hj. unfold P. destruct (shifted s label d j) eqn:Hs;
          [|apply andb_false_r].
        rewrite andb_true_r.
        destruct (Hfree j Hj Hs) as [E|E]; rewrite E.
        - rewrite Z.eqb_refl. apply orb_true_r.
        - now rewrite Z.eqb_refl. }
    rewrite (filter_ext_in (fun j => P j && (get s j =? label)%Z)
                           (fun j => (get s j =? label)%Z)) in H2.
    2:{ intros j _. unfold P.
        destruct (get s j =? label)%Z; [reflexivity|apply andb_false_r]. }
    rewrite (filter_ext_in (fun j => P j && negb (get s j =? label)%Z)
                           (fun j => (get s j =? space)%Z)) in H2.
    2:{ intros j _. unfold P.
        destruct (Z.eqb_spec (get s j) label) as [E|E]; [|apply andb_true_r].
        simpl. symmetry. apply Z.eqb_neq. congruence. }
    unfold indices_of in HT |- *. rewrite Hlen in *. lia.
  - unfold indices_of. rewrite Hlen. f_equal. apply filter_ext_in.
    intros j Hj. rewrite (Hget j Hj).
    destruct (shifted s label d j) eqn:Hs.
    + destruct (Hfree j Hj Hs) as [E|E]; rewrite E.
      * transitivity false; [|symmetry]; apply Z.eqb_neq; congruence.
      * reflexivity.
    + destruct (Z.eqb_spec (get s j) label) as [E|E]; [|reflexivity].
      rewrite E. transitivity false; [|symmetry]; apply Z.eqb_neq; congruence.
Qed.

(** X17.  A feasible slide only rearranges the contents of the cells: every
    symbol, the empty marker included, is in as many cells after the slide
    as before. *)
Theorem slide_permutes_cells (s : State) (label : char) (d : Direction) :
  length s = 20 -> label <> space -> feasible s label d = true ->
  Permutation (slid s label d) s /\
  forall x, length (indices_of (slid s label d) x) = length (indices_of s x).
Proof.
  intros Hlen Hl Hf. split.
  - apply (Permutation_count_occ Z.eq_dec). intros x.
    rewrite !count_occ_indices. now apply slid_count.
  - intros x. now apply slid_count.
Qed.

Lemma slide_permutes_cells_witness :
  Permutation (slid square_board 65%Z RIGHT) square_board /\
  forall x, length (indices_of (slid square_board 65%Z RIGHT) x) =
            length (indices_of square_board x).
Proof.
  apply slide_permutes_cells; [reflexivity| |reflexivity].
  intros H. discriminate H.
Defined.

(** ** The graph does not depend on the labelling of the board *)

Lemma Normalize_relabel_permutation L s pi :
  label_set L -> uses L s -> label_permutation pi s ->
  Normalize (relabel pi s) L = Normalize s L.
Proof.
  intros HL Hu [Hclosed Hinj].
  unfold relabel. apply Normalize_relabel; auto.
  - intros x Hx Hne. cbv beta.
    destruct (Z.eqb_spec x space) as [|_]; [contradiction|].
    destruct (Hclosed x (conj Hx Hne)) as [Hin Hne'].
    destruct (Hu _ Hin); [contradiction|assumption].
  - intros x y Hx Hy. cbv beta.
    destruct (Z.eqb_spec x space) as [Ex|Ex], (Z.eqb_spec y space) as [Ey|Ey].
    + congruence.
    + intros E. exfalso. destruct (Hclosed y (conj Hy Ey)) as [_ H]. congruence.
    + intros E. exfalso. destruct (Hclosed x (conj Hx Ex)) as [_ H]. congruence.
    + apply Hinj; now split.
Qed.

Lemma GatherLabels_relabel s pi :
  label_permutation pi s -> GatherLabels (relabel pi s) = GatherLabels s.
Proof.
  intros [Hclosed Hinj]. apply increasing_ext; try apply GatherLabels_label_set.
  intros x. rewrite !GatherLabels_In. split.
  - intros [Hin Hne]. unfold relabel in Hin. apply in_map_iff in Hin.
    destruct Hin as (c & E & Hc).
    destruct (Z.eqb_spec c space) as [Ec|Ec]; [congruence|].
    subst x. now apply Hclosed.
  - intros Hx.
    destruct (injective_onto (GatherLabels s) pi) with (x := x) as (y & Hy & E).
    + apply increasing_NoDup, GatherLabels_label_set.
    + intros z Hz. apply GatherLabels_In. apply Hclosed. now apply GatherLabels_In.
    + intros a b Ha Hb. apply Hinj; now apply GatherLabels_In.
    + now apply GatherLabels_In.
    + apply GatherLabels_In in Hy. destruct Hy as [Hy Hyn].
      split; [|apply Hx]. unfold relabel. apply in_map_iff. exists y.
      split; [|exact Hy].
      destruct (Z.eqb_spec y space); [contradiction|exact E].
Qed.

Lemma cycle_labels_permutation : label_permutation cycle_labels mixed_board.
Proof.
  split.
  - intros x [Hx Hne]. simpl in Hx.
    repeat (destruct Hx as [<-|Hx];
            [first [exfalso; apply Hne; reflexivity
                   | split; [in_list | discriminate]]|]).
    contradiction.
  - intros x y _ _. unfold cycle_labels.
    destruct (Z.eqb_spec x 65), (Z.eqb_spec x 66), (Z.eqb_spec x 67),
      (Z.eqb_spec y 65), (Z.eqb_spec y 66), (Z.eqb_spec y 67); lia.
Qed.

(** X18.  The graph depends on the blocks of the initial board and not on
    their labels: when the labels of the board are permuted,
    [GatherLabels] gathers the same label set and [GenerateGraph] builds
    the same graph, in as many rounds. *)
Theorem GenerateGraph_relabel (fuel : nat) (initial : State) (pi : char -> char) :
  label_permutation pi initial ->
  GatherLabels (relabel pi initial) = GatherLabels initial /\
  GenerateGraph fuel (relabel pi initial) = GenerateGraph fuel initial.
Proof.
  intros Hpi. pose proof (GatherLabels_relabel initial pi Hpi) as HL.
  split; [exact HL|]. unfold GenerateGraph. rewrite HL.
  rewrite (Normalize_relabel_permutation _ initial pi); auto.
  - apply GatherLabels_label_set.
  - apply GatherLabels_uses.
Qed.

Lemma GenerateGraph_relabel_witness :
  GatherLabels (relabel cycle_labels mixed_board) = GatherLabels mixed_board /\
  GenerateGraph 3 (relabel cycle_labels mixed_board) = GenerateGraph 3 mixed_board.
Proof. apply GenerateGraph_relabel. exact cycle_labels_permutation. Defined.

(** ** A move changes the state *)

(** The number of moves in a direction that lead from a cell to the edge. *)
Lemma Move_towards_edge d i :
  i < 20 -> IsEdge d i = false ->
  match d with
  | LEFT => Move d i mod 4 < i mod 4
  | RIGHT => i mod 4 < Move d i mod 4
  | TOP => Move d i < i
  | BOTTOM => i < Move d i
  end.
Proof.
  intros Hi. destruct d.
  - revert Hi. do 20 (destruct i as [|i]; [vm_compute; intros; (congruence || lia)|]). lia.
  - revert Hi. do 20 (destruct i as [|i]; [vm_compute; intros; (congruence || lia)|]). lia.
  - revert Hi. do 20 (destruct i as [|i]; [vm_compute; intros; (congruence || lia)|]). lia.
  - revert Hi. do 20 (destruct i as [|i]; [vm_compute; intros; (congruence || lia)|]). lia.
Qed.

(** A block that can slide and stays where it is has no cell. *)
Lemma stay_no_cell s label d :
  length s = 20 -> feasible s label d = true ->
  (forall j, j < 20 -> shifted s label d j = true -> get s j = label) ->
  forall k i, i < 20 -> get s i = label ->
    match d with
    | LEFT => i mod 4 < k
    | RIGHT => 4 <= i mod 4 + k
    | TOP => i < k
    | BOTTOM => 20 <= i + k
    end -> False.
Proof.
  intros Hlen Hf Hstay.
  pose proof (proj1 (feasible_spec _ _ _) Hf) as Hf'.
  induction k as [|k IH]; intros i Hi Hget Hk.
  - destruct d; try lia.
    pose proof (Nat.mod_upper_bound i 4). lia.
  - rewrite <- Hlen in Hi. destruct (Hf' i Hi Hget) as [He _]. rewrite Hlen in Hi.
    destruct (shifted_target s label d i Hlen Hf Hi Hget) as (Hm & Hs).
    pose proof (Move_towards_edge d i Hi He) as Hlt.
    apply (IH (Move d i) Hm (Hstay _ Hm Hs)).
    destruct d; lia.
Qed.

Lemma edge_irreflexive L a :
  label_set L -> good L a -> (forall x, In x L -> In x a) -> ~ edge L a a.
Proof.
  intros HL (Hlen & Hu & _) Hall (label & d & Hl & Hf & Hn).
  assert (Hls : label <> space) by (intros ->; now apply (proj2 HL)).
  destruct (Normalize_shape L (slid a label d) HL (uses_slid L a label d Hlen Hu Hl Hf))
    as (r & g & Hr & -> & Hg).
  rewrite Hn in Hr. injection Hr as Ha.
  pose proof (relabeling_space L g (proj2 HL) Hg) as Hgs.
  destruct Hg as (_ & _ & Hinj).
  destruct (In_get label a (Hall label Hl)) as (i & Hi & Hget).
  rewrite Hlen in Hi.
  apply (stay_no_cell a label d Hlen Hf) with (k := 20) (i := i); auto.
  - intros j Hj Hs.
    destruct (shifted_free a label d j Hlen Hf Hj Hs) as [E|E]; [exfalso|exact E].
    assert (Hcell : get a j = g (get (slid a label d) j)).
    { rewrite Ha at 1. apply get_map. rewrite slid_length. lia. }
    rewrite (slid_get a label d j Hlen Hf Hj), Hs, E in Hcell.
    apply Hls. apply Hinj. congruence.
  - pose proof (Nat.mod_upper_bound i 4). destruct d; lia.
Qed.

(** X19.  No vertex of the graph is its own neighbor: a move always leads to
    another state. *)
Theorem no_self_loops (fuel : nat) (initial : State) (g : Graph) :
  length initial = 20 -> GenerateGraph fuel initial = Done g ->
  forall v nbrs, map_find State_compare v g = Some nbrs -> ~ In v nbrs.
Proof.
  intros Hlen Hg v nbrs Hfind Hin.
  destruct (GenerateGraph_inv fuel initial g Hlen Hg) as (init & Hinit & Hinv).
  pose proof (GatherLabels_label_set initial) as HL.
  assert (Hv : In v (keys g)) by (apply find_keys; now exists nbrs).
  destruct (inv_good _ _ _ _ Hinv init) as [Hgood _].
  { destruct (inv_init _ _ _ _ Hinv) as [H|[]]. now left. }
  destruct (inv_good _ _ _ _ Hinv v (or_introl Hv)) as [_ Hreach].
  assert (Hall : forall x, In x (GatherLabels initial) -> In x init).
  { apply (Normalize_keeps_labels _ initial init HL (GatherLabels_uses initial)); auto.
    intros x Hx. now apply GatherLabels_In in Hx. }
  destruct (reachable_keeps_labels _ init v HL Hgood Hall Hreach) as [Hgv Hallv].
  apply (edge_irreflexive _ v HL Hgv Hallv).
  now apply (inv_edges _ _ _ _ Hinv v nbrs Hfind).
Qed.

Lemma no_self_loops_witness :
  exists nbrs, map_find State_compare square_board square_graph = Some nbrs /\
               ~ In square_board nbrs.
Proof.
  eexists. split; [vm_compute; reflexivity|].
  apply (no_self_loops 12 square_board square_graph); reflexivity.
Defined.

(** ** The graph and the puzzle *)

(** A renaming of the blocks neither allows nor forbids a slide. *)
Lemma feasible_map_eq g s label d :
  length s = 20 -> (forall x y, g x = g y -> x = y) -> g space = space ->
  feasible (map g s) (g label) d = feasible s label d.
Proof.
  intros Hlen Hinj Hgs.
  destruct (feasible s label d) eqn:Hf; [now apply feasible_map|].
  destruct (feasible (map g s) (g label) d) eqn:Hf'; [|reflexivity].
  rewrite <- Hf. symmetry. apply feasible_spec.
  pose proof (proj1 (feasible_spec _ _ _) Hf') as H.
  intros i Hi Hget.
  assert (Hi' : i < length (map g s)) by now rewrite length_map.
  destruct (H i Hi') as [He Hfree].
  { rewrite get_map by assumption. now rewrite Hget. }
  split; [exact He|].
  rewrite Hlen in Hi. destruct (Move_inside d i Hi He) as (Hm & _).
  rewrite get_map in Hfree by lia.
  destruct Hfree as [E|E]; [left|right]; apply Hinj; congruence.
Qed.

(** The moves of a state and of its normal form correspond, block by block,
    and lead to the same normal forms. *)
Lemma Normalize_moves L s :
  label_set L -> uses L s -> length s = 20 ->
  exists r g,
    Normalize s L = Done r /\ r = map g s /\ relabeling L g /\
    forall label d, In label L ->
      feasible r (g label) d = feasible s label d /\
      (feasible s label d = true ->
       Normalize (slid r (g label) d) L = Normalize (slid s label d) L).
Proof.
  intros HL Hu Hlen.
  destruct (Normalize_shape L s HL Hu) as (r & g & Hr & -> & Hg).
  exists (map g s), g. split; [exact Hr|]. split; [reflexivity|]. split; [exact Hg|].
  pose proof (relabeling_space L g (proj2 HL) Hg) as Hgs.
  destruct Hg as (Hg1 & Hg2 & Hinj).
  intros label d Hl. split; [now apply feasible_map_eq|].
  intros Hf. rewrite slid_map by assumption.
  apply Normalize_relabel; auto.
  - now apply uses_slid.
  - intros x Hx Hne. apply Hg2.
    destruct (uses_slid L s label d Hlen Hu Hl Hf x Hx); [contradiction|assumption].
Qed.

Lemma moves_uses L n s t :
  moves L n s t -> length s = 20 -> uses L s -> length t = 20 /\ uses L t.
Proof.
  induction 1 as [s|n s t label d Hl Hf Hm IH]; intros Hlen Hu; [now split|].
  apply IH.
  - now rewrite slid_length.
  - now apply uses_slid.
Qed.

Lemma moves_walk L init g :
  label_set L -> builder_inv L init g [] ->
  forall n s t, moves L n s t ->
  forall v, length s = 20 -> uses L s -> Normalize s L = Done v -> In v (keys g) ->
  exists w, Normalize t L = Done w /\ walk g v w n.
Proof.
  intros HL Hinv. induction 1 as [s|n s t label d Hl Hf Hm IH];
    intros v Hlen Hu Hv Hin.
  - exists v. split; [exact Hv|constructor].
  - destruct (Normalize_moves L s HL Hu Hlen) as (r & gs & Hr & -> & Hg & Hcorr).
    rewrite Hv in Hr. injection Hr as ->.
    destruct (Hcorr label d Hl) as [Hfe Hsame]. specialize (Hsame Hf).
    pose proof (uses_slid L s label d Hlen Hu Hl Hf) as Hu'.
    destruct (Normalize_total L _ HL Hu') as (u & Hu1).
    assert (Hadj : adj g (map gs s) u).
    { apply (builder_adj L init g [] _ _ Hinv). split; [exact Hin|].
      exists (gs label), d. split; [now apply (proj1 (proj2 Hg))|].
      split; [congruence|]. congruence. }
    destruct (IH u) as (w & Hw & Hwalk); auto.
    + now rewrite slid_length.
    + now apply (builder_closed L init g Hinv (map gs s) u).
    + exists w. split; [exact Hw|]. now apply walk_step with (u := u).
Qed.

Lemma walk_moves L init g :
  label_set L -> builder_inv L init g [] ->
  forall n v w, walk g v w n ->
  forall s, length s = 20 -> uses L s -> Normalize s L = Done v ->
  exists t, moves L n s t /\ Normalize t L = Done w.
Proof.
  intros HL Hinv. induction 1 as [v|v u w n Hvu Hw IH]; intros s Hlen Hu Hv.
  - exists s. split; [constructor|exact Hv].
  - apply (builder_adj L init g [] _ _ Hinv) in Hvu.
    destruct Hvu as [_ (label' & d & Hl' & Hf' & Hn')].
    destruct (Normalize_moves L s HL Hu Hlen) as (r & gs & Hr & -> & Hg & Hcorr).
    rewrite Hv in Hr. injection Hr as ->.
    destruct (relabeling_onto L gs label' (proj1 HL) Hg Hl') as (label & Hl & <-).
    destruct (Hcorr label d Hl) as [Hfe Hsame].
    rewrite Hf' in Hfe. symmetry in Hfe. specialize (Hsame Hfe).
    destruct (IH (slid s label d)) as (t & Hm & Ht).
    + now rewrite slid_length.
    + now apply uses_slid.
    + congruence.
    + exists t. split; [|exact Ht]. now apply moves_step with (label := label) (d := d).
Qed.

(** X20.  The moves of a state and of its normal form correspond: the
    renaming [g] that [Normalize] applies takes each block that can slide in
    a direction to a block of the normal form that can, and back, and the two
    slides have the same normal form. *)
Theorem Normalize_respects_moves (L : Labels) (s : State) :
  label_set L -> uses L s -> length s = 20 ->
  exists r g,
    Normalize s L = Done r /\ r = map g s /\
    (forall label', In label' L -> exists label, In label L /\ g label = label') /\
    forall label d, In label L ->
      In (g label) L /\
      feasible r (g label) d = feasible s label d /\
      (feasible s label d = true ->
       Normalize (slid r (g label) d) L = Normalize (slid s label d) L).
Proof.
  intros HL Hu Hlen.
  destruct (Normalize_moves L s HL Hu Hlen) as (r & g & Hr & Hmap & Hg & Hcorr).
  exists r, g. split; [exact Hr|]. split; [exact Hmap|]. split.
  - intros label' Hl'. apply relabeling_onto; [apply HL|exact Hg|exact Hl'].
  - intros label d Hl. split; [now apply (proj1 (proj2 Hg))|]. now apply Hcorr.
Qed.

Lemma Normalize_respects_moves_witness :
  exists r g,
    Normalize mixed_board mixed_labels = Done r /\ r = map g mixed_board /\
    (forall label', In label' mixed_labels ->
                    exists label, In label mixed_labels /\ g label = label') /\
    forall label d, In label mixed_labels ->
      In (g label) mixed_labels /\
      feasible r (g label) d = feasible mixed_board label d /\
      (feasible mixed_board label d = true ->
       Normalize (slid r (g label) d) mixed_labels =
       Normalize (slid mixed_board label d) mixed_labels).
Proof.
  apply Normalize_respects_moves;
    [exact mixed_labels_label_set|exact mixed_board_uses|reflexivity].
Defined.

(** X21.  The graph is the puzzle up to renaming of blocks: its vertices are
    the normal forms of the positions that sequences of moves lead to from
    the initial board, and from a position [s] with normal form [v] the
    walks of [n] edges from [v] lead to the normal forms of the positions
    that [n] moves lead to from [s]. *)
Theorem graph_simulates_puzzle (fuel : nat) (initial : State) (g : Graph) :
  length initial = 20 -> GenerateGraph fuel initial = Done g ->
  (forall w, In w (keys g) <->
             exists n t, moves (GatherLabels initial) n initial t /\
                         Normalize t (GatherLabels initial) = Done w) /\
  (forall s v n w,
      length s = 20 -> uses (GatherLabels initial) s ->
      Normalize s (GatherLabels initial) = Done v -> In v (keys g) ->
      (walk g v w n <->
       exists t, moves (GatherLabels initial) n s t /\
                 Normalize t (GatherLabels initial) = Done w)).
Proof.
  intros Hlen Hg.
  destruct (GenerateGraph_inv fuel initial g Hlen Hg) as (init & Hinit & Hinv).
  pose proof (GatherLabels_label_set initial) as HL.
  pose proof (GatherLabels_uses initial) as Hu.
  pose proof (builder_closed _ _ _ Hinv) as Hclosed.
  assert (Hi : In init (keys g)).
  { destruct (inv_init _ _ _ _ Hinv) as [H|[]]. exact H. }
  split.
  - intros w. split.
    + intros Hw.
      destruct (builder_connected _ init g init w HL Hinv Hi Hw) as (n & Hn).
      exists n. now apply (walk_moves _ init g HL Hinv n init w Hn initial).
    + intros (n & t & Hm & Ht).
      destruct (moves_walk _ init g HL Hinv n initial t Hm init Hlen Hu Hinit Hi)
        as (w' & Hw' & Hwalk).
      rewrite Ht in Hw'. injection Hw' as <-.
      now apply (walk_in_graph g Hclosed init w n).
  - intros s v n w Hls Hus Hv Hin. split.
    + intros Hwalk. now apply (walk_moves _ init g HL Hinv n v w Hwalk s).
    + intros (t & Hm & Ht).
      destruct (moves_walk _ init g HL Hinv n s t Hm v Hls Hus Hv Hin)
        as (w' & Hw' & Hwalk).
      rewrite Ht in Hw'. now injection Hw' as <-.
Qed.

Lemma graph_simulates_puzzle_witness :
  (forall w, In w (keys square_graph) <->
             exists n t, moves (GatherLabels square_board) n square_board t /\
                         Normalize t (GatherLabels square_board) = Done w) /\
  (forall s v n w,
      length s = 20 -> uses (GatherLabels square_board) s ->
      Normalize s (GatherLabels square_board) = Done v -> In v (keys square_graph) ->
      (walk square_graph v w n <->
       exists t, moves (GatherLabels square_board) n s t /\
                 Normalize t (GatherLabels square_board) = Done w)).
Proof.
  apply (graph_simulates_puzzle 12 square_board square_graph); reflexivity.
Defined.

(** From a position [s] with normal form [v], the solved vertices at [m]
    edges from [v] answer to the solved positions at [m] moves from [s]. *)
Lemma solved_walk_moves L init g s v m :
  label_set L -> builder_inv L init g [] ->
  length s = 20 -> uses L s -> Normalize s L = Done v -> In v (keys g) ->
  ((exists goal, IsSolved goal = true /\ walk g v goal m) <->
   (exists t, moves L m s t /\ IsSolved t = true)).
Proof.
  intros HL Hinv Hls Hus Hv Hin. split.
  - intros (goal & Hs & Hwalk).
    destruct (walk_moves L init g HL Hinv m v goal Hwalk s Hls Hus Hv)
      as (t & Hm & Ht).
    destruct (moves_uses L m s t Hm Hls Hus) as [Hlt Hut].
    exists t. split; [exact Hm|].
    now rewrite <- (Normalize_result_solved L t goal HL Hut Hlt Ht).
  - intros (t & Hm & Hs).
    destruct (moves_walk L init g HL Hinv m s t Hm v Hls Hus Hv Hin)
      as (w & Hw & Hwalk).
    destruct (moves_uses L m s t Hm Hls Hus) as [Hlt Hut].
    exists w. split; [|exact Hwalk].
    now rewrite (Normalize_result_solved L t w HL Hut Hlt Hw).
Qed.

(** The distance of a vertex to the solved vertices, in moves of the
    puzzle. *)
Lemma distance_moves L init g s v n :
  label_set L -> builder_inv L init g [] ->
  length s = 20 -> uses L s -> Normalize s L = Done v -> In v (keys g) ->
  (distance_to_goal g v n <->
   (exists t, moves L n s t /\ IsSolved t = true) /\
   (forall m t, moves L m s t -> IsSolved t = true -> n <= m)).
Proof.
  intros HL Hinv Hls Hus Hv Hin.
  pose proof (fun m => solved_walk_moves L init g s v m HL Hinv Hls Hus Hv Hin) as H.
  split.
  - intros [Hex Hmin]. split; [now apply H|].
    intros m t Hm Ht. destruct (proj2 (H m)) as (goal & Hs & Hw); [now exists t|].
    now apply (Hmin m goal).
  - intros [Hex Hmin]. split; [now apply H|].
    intros m goal Hs Hw. destruct (proj1 (H m)) as (t & Hm & Ht); [now exists goal|].
    now apply (Hmin m t).
Qed.

(** X22.  The distances of the graph are those of the puzzle: for a position
    [s] whose normal form [v] is a vertex, the distance of [v] to the
    nearest solved vertex is the least number of moves that lead from [s] to
    a solved position. *)
Theorem distance_is_number_of_moves (fuel : nat) (initial : State) (g : Graph)
        (s v : State) (n : nat) :
  length initial = 20 -> GenerateGraph fuel initial = Done g ->
  length s = 20 -> uses (GatherLabels initial) s ->
  Normalize s (GatherLabels initial) = Done v -> In v (keys g) ->
  (distance_to_goal g v n <->
   (exists t, moves (GatherLabels initial) n s t /\ IsSolved t = true) /\
   (forall m t, moves (GatherLabels initial) m s t -> IsSolved t = true -> n <= m)).
Proof.
  intros Hlen Hg Hls Hus Hv Hin.
  destruct (GenerateGraph_inv fuel initial g Hlen Hg) as (init & _ & Hinv).
  apply (distance_moves _ init g s v n); auto. apply GatherLabels_label_set.
Qed.

Lemma distance_is_number_of_moves_witness :
  distance_to_goal square_graph square_board 4 <->
  (exists t, moves (GatherLabels square_board) 4 square_board t /\ IsSolved t = true) /\
  (forall m t, moves (GatherLabels square_board) m square_board t ->
               IsSolved t = true -> 4 <= m).
Proof.
  apply (distance_is_number_of_moves 12 square_board square_graph square_board
                                     square_board 4);
    try reflexivity.
  - apply GatherLabels_uses.
  - vm_compute. in_list.
Defined.

(** ** The program and the puzzle *)


